(** * mangadex-downloader: the download pipeline, the CLI entry point and the
      background worker, embedded from the Python sources

    - [mangadex_downloader/main.py]      : [fetch], [download]
    - [mangadex_downloader/cli/__init__.py] : [_main]
    - [mangadex_downloader/format/base.py]  : [_Worker]

    Python floats are IEEE-754 doubles, which is what Rocq's primitive
    floats are; the file system is a pair of finite sets of paths; every
    call that leaves the process (HTTP request, file creation) is recorded
    in a chronological trace, so that "before any network activity" and
    "exactly N+1 fetch calls" are statements about that trace.  Logging calls
    have no influence on control flow and are left out of the pipeline
    model. *)

From Stdlib Require Import Floats.
From stdpp Require Import gmap strings list pretty.

(** ** Python values that reach the entry points *)

Module Py.

(** Exceptions raised by the modelled code or by its collaborators. *)
Inductive exn :=
| ValueError (msg : string)
| TypeError (msg : string)
| UnboundLocalError (name : string)
| AttributeError (msg : string)
| InvalidURL (msg : string)
| InvalidManga (msg : string)
| ChapterNotFound (msg : string)
| FileExistsError (filename : list string)
| NotADirectoryError (filename : list string)
| OtherError (msg : string).

(** A value passed for [start_chapter] / [end_chapter]: [None], a float,
    or a value of some other type, of which only [type(x)] is observed
    (it is printed in the error message). *)
Inductive arg :=
| ANone
| AFloat (f : float)
| AOther (type_repr : string).

(** The volume key yielded by the chapter iterator.  The code compares it
    both with the integer [0] and with the string ["none"]. *)
Inductive label :=
| LInt (n : Z)
| LStr (s : string).

(** [vol == 0] *)
Definition label_eq_int (v : label) (n : Z) : bool :=
  match v with
  | LInt m => bool_decide (m = n)
  | LStr _ => false
  end.

(** [vol == "none"] *)
Definition label_eq_str (v : label) (s : string) : bool :=
  match v with
  | LInt _ => false
  | LStr t => String.eqb t s
  end.

(** [str(vol)], as used by ['%s' % vol] *)
Definition label_str (v : label) : string :=
  match v with
  | LInt n => pretty n
  | LStr s => s
  end.

(** [a > b] on floats *)
Definition float_gt (a b : float) : bool := PrimFloat.ltb b a.

(** The rendering of a list of strings by ['%s' % lst], for strings that
    need no escaping. *)
Definition str_of_list (l : list string) : string :=
  "[" +:+ String.concat ", " (map (fun s => "'" +:+ s +:+ "'") l) +:+ "]".

End Py.
Export Py.

(** ** Paths, as [pathlib] sees them: the sequence of their parts.
    [Path('.')] has no parts; [p / name] appends one. *)

Abbreviation Path := (list string) (only parsing).

Definition path_div (p : Path) (name : string) : Path := p ++ [name].
Infix "//" := path_div (at level 40, left associativity).

(** ** The chapter folder name ([download], "Create chapter folder") *)

Definition chapter_folder (vol : label) (chap : string) : string :=
  let chapter_folder := "" in
  if label_eq_int vol 0 && String.eqb chap "none" then
    chapter_folder +:+ "Oneshot"
  else if label_eq_str vol "none" && String.eqb chap "none" then
    chapter_folder +:+ "Oneshot"
  else if label_eq_str vol "none" && String.eqb chap "0" then
    chapter_folder +:+ "Oneshot"
  else
    let chapter_folder :=
      if negb (label_eq_str vol "none")
      then chapter_folder +:+ ("Volume. " +:+ label_str vol +:+ " ")
      else chapter_folder in
    chapter_folder +:+ ("Chapter. " +:+ chap).

(** The three oneshot sentinel combinations. *)
Definition oneshot_sentinel (vol : label) (chap : string) : Prop :=
  (vol = LInt 0 /\ chap = "none") \/
  (vol = LStr "none" /\ chap = "none") \/
  (vol = LStr "none" /\ chap = "0").

(** ** The world the pipeline runs in *)

(** What a download call did with one destination file. *)
Inductive outcome := Skipped | Transferred | Failed.

(** One entry of a chapter's image set: [(page, img_url, img_name)]. *)
Record page_entry := PageEntry {
  pe_page : nat;
  pe_url : string;
  pe_name : string;
}.

(** One relationship of the manga payload: [rel.get('type')], [rel.get('id')]. *)
Record rel := Rel {
  rel_type : option string;
  rel_id : option string;
}.

(** Calls that leave the process, in the order they were made. *)
Inductive event :=
| EvGetManga (manga_id : string)
| EvGetAuthor (author_id : option string)
| EvGetCoverArt (cover_id : option string)
| EvGetAllChapters (manga_id lang : string)
| EvMkdir (p : Path)
| EvDownloadFile (url : string) (p : Path) (replace : bool) (o : outcome)
| EvWriteDetails (p : Path)
| EvImagesFetch (chapter_id : string)
| EvPageDownload (url : string) (p : Path) (replace : bool) (o : outcome).

Record World := mkWorld {
  files : gset (list string);
  dirs : gset (list string);
  trace : list event;
}.

(** Creation of directories or files. *)
Definition is_output (e : event) : bool :=
  match e with
  | EvMkdir _ | EvWriteDetails _ => true
  | EvDownloadFile _ _ _ Transferred | EvPageDownload _ _ _ Transferred => true
  | _ => false
  end.

(** A page or cover transfer that moved bytes to [p]. *)
Definition transfers_to (p : Path) (e : event) : bool :=
  match e with
  | EvDownloadFile _ q _ Transferred | EvPageDownload _ q _ Transferred =>
      bool_decide (q = p)
  | _ => false
  end.

Definition is_page_transfer (e : event) : bool :=
  match e with EvPageDownload _ _ _ Transferred => true | _ => false end.

Definition is_page_failure (e : event) : bool :=
  match e with EvPageDownload _ _ _ Failed => true | _ => false end.

Definition is_page_download (e : event) : bool :=
  match e with EvPageDownload _ _ _ _ => true | _ => false end.

Definition is_images_fetch (e : event) : bool :=
  match e with EvImagesFetch _ => true | _ => false end.

Definition count (f : event -> bool) (t : list event) : nat :=
  length (filter (fun e => f e = true) t).

(** ** A state-and-exception monad with a third result for a loop that has
    not finished within the allotted number of iterations *)

Inductive result (A : Type) :=
| Ok (a : A)
| Raise (e : exn)
| Diverge.
Arguments Ok {A} a.
Arguments Raise {A} e.
Arguments Diverge {A}.

Definition M (A : Type) : Type := World -> result A * World.

Definition ret {A} (a : A) : M A := fun w => (Ok a, w).

Definition bind {A B} (m : M A) (k : A -> M B) : M B :=
  fun w =>
    match m w with
    | (Ok a, w') => k a w'
    | (Raise e, w') => (Raise e, w')
    | (Diverge, w') => (Diverge, w')
    end.

Definition raise {A} (e : exn) : M A := fun w => (Raise e, w).

Definition diverge {A} : M A := fun w => (Diverge, w).

Definition lift {A} (r : exn + A) : M A :=
  match r with inl e => raise e | inr a => ret a end.

Definition emit (e : event) : M unit :=
  fun w => (Ok tt, mkWorld (files w) (dirs w) (trace w ++ [e])).

(** The moment a request is made: the number of calls made so far. *)
Definition now : M nat := fun w => (Ok (length (trace w)), w).

Notation "x <- m ;; k" := (bind m (fun x => k))
  (at level 100, m at next level, right associativity).
Notation "m ;;; k" := (bind m (fun _ => k))
  (at level 100, right associativity).

(** ** Collaborators of [main.py] that live in other modules of the package
    ([utils], [fetcher], [manga], [chapter], [downloader]) or in third-party
    libraries.  They are taken as parameters; the answers of the image-link
    endpoint and of a transfer may change from one request to the next, which
    is what the retry loop exists for, so those two take the moment of the
    request. *)

(** A [ChapterImages] object: which chapter it stands for, which variant of
    the images it asks for, and the sequence its last [fetch()] stored. *)
Record ChapterImages := mkImages {
  ci_id : string;
  ci_data_saver : bool;
  ci_images : list page_entry;
}.

Record Env := {
  json : Type;
  Language : Type;
  Chapter : Type;
  (** [Language.value] *)
  Language_value : Language -> string;
  (** [utils.get_language] *)
  get_language : string -> exn + Language;
  (** [utils.validate_url], raising [InvalidURL] *)
  validate_url : string -> exn + string;
  (** [utils.valid_cover_types] *)
  valid_cover_types : list string;
  (** [pathvalidate.sanitize_filename] *)
  sanitize_filename : string -> string;
  (** [fetcher.get_manga], [get_author], [get_cover_art], [get_all_chapters] *)
  get_manga : string -> exn + json;
  get_author : option string -> exn + json;
  get_cover_art : option string -> exn + json;
  get_all_chapters : string -> string -> exn + json;
  (** [data['data']['relationships']] *)
  relationships : json -> list rel;
  (** The properties of [Manga(data)] that [main.py] reads, from the payload
      and the cover, authors and artists stored into it. *)
  Manga_id : json -> string;
  Manga_title : json -> string;
  Manga_cover_art : json -> option json -> string;
  Manga_cover_art_512px : json -> option json -> string;
  Manga_cover_art_256px : json -> option json -> string;
  (** [Chapter(data, title, lang)], raising [ChapterNotFound] *)
  Chapter_init : json -> string -> string -> exn + Chapter;
  (** [Chapter.iter_chapter_images(start, end, no_oneshot, data_saver)] *)
  iter_chapter_images :
    Chapter -> option float -> option float -> bool -> bool ->
    list (label * string * ChapterImages);
  (** What the image-link endpoint answers to [ChapterImages.fetch()] *)
  images_endpoint : nat -> string -> bool -> exn + list page_entry;
  (** Whether a transfer of the resource behind a URL goes through *)
  transfer_ok : nat -> string -> bool;
}.

Section Pipeline.

Variable E : Env.

(** A [Manga] object as [main.py] uses it. *)
Record Manga := mkManga {
  id : string;
  title : string;
  cover_art : string;
  cover_art_512px : string;
  cover_art_256px : string;
  _chapters : option (Chapter E);
}.

(** The [language] argument: a [Language] member, a [str], or anything
    else, of which the class name is printed. *)
Inductive lang_arg :=
| LangEnum (l : Language E)
| LangStr (s : string)
| LangOther (class_name : string).

(** A request: the call is recorded, then it answers or raises. *)
Definition request {A} (ev : event) (answer : nat -> exn + A) : M A :=
  t <- now ;;
  emit ev ;;;
  lift (answer t).

(** *** Collaborators that touch the disk or the network *)

Definition path_exists (p : Path) : M bool :=
  fun w => (Ok (bool_decide (p ∈ files w) || bool_decide (p ∈ dirs w)), w).

Definition file_exists (p : Path) : M bool :=
  fun w => (Ok (bool_decide (p ∈ files w)), w).

Definition create_file (p : Path) : M unit :=
  fun w => (Ok tt, mkWorld ({[p]} ∪ files w) (dirs w) (trace w)).

Definition create_dir (p : Path) : M unit :=
  fun w => (Ok tt, mkWorld (files w) ({[p]} ∪ dirs w) (trace w)).

(** All the non-empty prefixes of a path, shortest first. *)
Fixpoint ancestors (prefix p : Path) : list Path :=
  match p with
  | [] => []
  | x :: p' => (prefix ++ [x]) :: ancestors (prefix ++ [x]) p'
  end.

Definition is_dir (p : Path) : M bool :=
  fun w => (Ok (bool_decide (p ∈ dirs w)), w).

(** Down the path to [target]: a directory that exists is left alone
    ([exist_ok=True]), a missing one is created ([parents=True]), and a
    regular file in the way makes [os.mkdir(target)] fail: with
    [FileExistsError] when it sits at [target] itself, with
    [NotADirectoryError] when it is one of the parents. *)
Fixpoint create_dirs (target : Path) (ps : list Path) : M unit :=
  match ps with
  | [] => ret tt
  | p :: ps' =>
      there <- is_dir p ;;
      if there then create_dirs target ps'
      else
        regular <- file_exists p ;;
        if regular then
          match ps' with
          | [] => raise (FileExistsError target)
          | _ :: _ => raise (NotADirectoryError target)
          end
        else
          create_dir p ;;;
          create_dirs target ps'
  end.

(** [p.mkdir(parents=True, exist_ok=True)] *)
Definition mkdir_parents (p : Path) : M unit :=
  emit (EvMkdir p) ;;;
  create_dirs p (ancestors [] p).

(** [p.mkdir(exist_ok=True)] *)
Definition mkdir (p : Path) : M unit :=
  emit (EvMkdir p) ;;;
  create_dir p.

(** [utils.write_details(manga, path)] *)
Definition write_details (manga : Manga) (p : Path) : M unit :=
  emit (EvWriteDetails p) ;;;
  create_file p.

(** Modelled from the spec: [ChapterPageDownloader(url, path,
    replace).download()] of [downloader.py], which is not among the sources.
    "If dest_path exists and replace is false, skip transfer, return
    success.  Otherwise stream the resource [...] and atomically move it
    into place only on full, verified transfer.  Returns false (not an
    exception) on any transport failure [...]; never leaves a
    partially-written file at dest_path." *)
Definition page_download (url : string) (p : Path) (replace : bool) : M bool :=
  present <- file_exists p ;;
  if present && negb replace then
    emit (EvPageDownload url p replace Skipped) ;;;
    ret true
  else
    t <- now ;;
    if transfer_ok E t url then
      emit (EvPageDownload url p replace Transferred) ;;;
      create_file p ;;;
      ret true
    else
      emit (EvPageDownload url p replace Failed) ;;;
      ret false.

(** Modelled from the spec: [utils.download(url, file, replace=...)], which
    is not among the sources; the same replace/skip contract as the page
    downloader.  [download] ignores what it returns. *)
Definition download_file (url : string) (p : Path) (replace : bool) : M unit :=
  present <- file_exists p ;;
  if present && negb replace then
    emit (EvDownloadFile url p replace Skipped)
  else
    t <- now ;;
    if transfer_ok E t url then
      emit (EvDownloadFile url p replace Transferred) ;;;
      create_file p
    else
      emit (EvDownloadFile url p replace Failed).

(** [images.fetch()]: replaces the whole stored sequence. *)
Definition images_fetch (images : ChapterImages) : M ChapterImages :=
  pages <- request (EvImagesFetch (ci_id images))
             (fun t => images_endpoint E t (ci_id images) (ci_data_saver images)) ;;
  ret (mkImages (ci_id images) (ci_data_saver images) pages).

(** [images.iter()]: walks the sequence stored at the time of the call. *)
Definition images_iter (images : ChapterImages) : list page_entry :=
  ci_images images.

(** *** [fetch(url, language)] *)

(** The loop over [rels]: authors and artists are appended in order, a
    later cover replaces an earlier one. *)
Fixpoint fetch_rels (rels : list rel)
    (authors artists : list (json E)) (cover : option (json E))
    : M (list (json E) * list (json E) * option (json E)) :=
  match rels with
  | [] => ret (authors, artists, cover)
  | r :: rels' =>
      let _type := rel_type r in
      let _id := rel_id r in
      if bool_decide (_type = Some "author") then
        a <- request (EvGetAuthor _id) (fun _ => get_author E _id) ;;
        fetch_rels rels' (authors ++ [a]) artists cover
      else if bool_decide (_type = Some "artist") then
        a <- request (EvGetAuthor _id) (fun _ => get_author E _id) ;;
        fetch_rels rels' authors (artists ++ [a]) cover
      else if bool_decide (_type = Some "cover_art") then
        c <- request (EvGetCoverArt _id) (fun _ => get_cover_art E _id) ;;
        fetch_rels rels' authors artists (Some c)
      else
        fetch_rels rels' authors artists cover
  end.

Definition parse_language (language : lang_arg) : M string :=
  match language with
  | LangEnum l => ret (Language_value E l)
  | LangStr s =>
      l <- lift (get_language E s) ;;
      ret (Language_value E l)
  | LangOther class_name =>
      raise (ValueError ("language must be Language or str, not " +:+ class_name))
  end.

Definition fetch (url : string) (language : lang_arg) : M Manga :=
  (* Parse language *)
  lang <- parse_language language ;;
  manga_id <- lift (validate_url E url) ;;
  (* Begin fetching *)
  data <- request (EvGetManga manga_id) (fun _ => get_manga E manga_id) ;;
  (* Append some additional informations *)
  extra <- fetch_rels (relationships E data) [] [] None ;;
  let '(authors, artists, cover) := extra in
  let manga :=
    mkManga (Manga_id E data) (Manga_title E data)
            (Manga_cover_art E data cover)
            (Manga_cover_art_512px E data cover)
            (Manga_cover_art_256px E data cover)
            None in
  (* fetch the chapters first before creating folder *)
  listing <- request (EvGetAllChapters (id manga) lang)
               (fun _ => get_all_chapters E (id manga) lang) ;;
  chapters <- lift (Chapter_init E listing (title manga) lang) ;;
  ret (mkManga (id manga) (title manga) (cover_art manga)
               (cover_art_512px manga) (cover_art_256px manga)
               (Some chapters)).

(** *** [download(...)] *)

(** The two [isinstance] checks on a chapter bound. *)
Definition validate_bound (name : string) (a : arg) : M (option float) :=
  match a with
  | ANone => ret None
  | AFloat f => ret (Some f)
  | AOther type_repr =>
      raise (ValueError (name +:+ " must be float, not " +:+ type_repr))
  end.

Definition type_name (a : option float) : string :=
  match a with None => "NoneType" | Some _ => "float" end.

(** [start_chapter > end_chapter], on values that passed the checks above:
    Python orders two floats and nothing that involves [None]. *)
Definition bound_gt (a b : option float) : M bool :=
  match a, b with
  | Some x, Some y => ret (float_gt x y)
  | _, _ =>
      raise (TypeError ("'>' not supported between instances of '"
                        +:+ type_name a +:+ "' and '" +:+ type_name b +:+ "'"))
  end.

(** "Determine cover art quality": an [if]/[elif] chain without [else], so
    [cover_url] may be left unbound. *)
Definition select_cover_url (cover : string) (manga : Manga) : option string :=
  if String.eqb cover "original" then Some (cover_art manga)
  else if String.eqb cover "512px" then Some (cover_art_512px manga)
  else if String.eqb cover "256px" then Some (cover_art_256px manga)
  else None.

(** [if folder:] *)
Definition truthy (folder : option string) : bool :=
  match folder with
  | None => false
  | Some s => negb (String.eqb s "")
  end.

(** The body of [for page, img_url, img_name in images.iter()]: stops at
    the first failed page, after refetching; the result is the [error]
    flag and the image set as the pass left it. *)
Fixpoint page_loop (entries : list page_entry) (chapter_path : Path)
    (replace : bool) (images : ChapterImages) : M (bool * ChapterImages) :=
  match entries with
  | [] => ret (false, images)
  | PageEntry page img_url img_name :: rest =>
      let img_path := chapter_path // img_name in
      success <- page_download img_url img_path replace ;;
      if negb success then
        images' <- images_fetch images ;;
        ret (true, images')
      else
        page_loop rest chapter_path replace images
  end.

(** [while True: ...], with at most [fuel] passes. *)
Fixpoint retry_loop (fuel : nat) (chapter_path : Path) (replace : bool)
    (images : ChapterImages) : M unit :=
  match fuel with
  | 0 => diverge
  | S fuel' =>
      pass <- page_loop (images_iter images) chapter_path replace images ;;
      let '(error, images') := pass in
      if negb error then ret tt
      else retry_loop fuel' chapter_path replace images'
  end.

(** The head of one iteration of [for vol, chap, images in ...]: the first
    [images.fetch()] and the chapter folder. *)
Definition prepare_chapter (base_path : Path)
    (item : label * string * ChapterImages) : M (Path * ChapterImages) :=
  let '(vol, chap, images) := item in
  (* Fetching chapter images *)
  images <- images_fetch images ;;
  (* Create chapter folder *)
  let chapter_path := base_path // chapter_folder vol chap in
  present <- path_exists chapter_path ;;
  (if negb present then mkdir chapter_path else ret tt) ;;;
  ret (chapter_path, images).

(** One iteration of [for vol, chap, images in ...]. *)
Definition download_chapter (fuel : nat) (base_path : Path) (replace : bool)
    (item : label * string * ChapterImages) : M unit :=
  prepared <- prepare_chapter base_path item ;;
  let '(chapter_path, images) := prepared in
  retry_loop fuel chapter_path replace images.

Fixpoint download_chapters (fuel : nat) (base_path : Path) (replace : bool)
    (items : list (label * string * ChapterImages)) : M unit :=
  match items with
  | [] => ret tt
  | item :: items' =>
      download_chapter fuel base_path replace item ;;;
      download_chapters fuel base_path replace items'
  end.

(** The arguments of [download], with the defaults of the signature. *)
Record Args := mkArgs {
  url : string;
  folder : option string;
  replace : bool;
  compressed_image : bool;
  start_chapter : arg;
  end_chapter : arg;
  no_oneshot_chapter : bool;
  language : lang_arg;
  cover : string;
}.

Definition base_path_of (folder : option string) (manga : Manga) : Path :=
  let base_path : Path := [] in
  let base_path := if truthy folder then base_path // default "" folder else base_path in
  base_path // sanitize_filename E (title manga).

Definition manga_chapters (manga : Manga) : M (Chapter E) :=
  match _chapters manga with
  | Some c => ret c
  | None => raise (AttributeError "'NoneType' object has no attribute 'iter_chapter_images'")
  end.

Definition download (a : Args) (fuel : nat) : M Manga :=
  (* Validate start_chapter and end_chapter param *)
  start <- validate_bound "start_chapter" (start_chapter a) ;;
  stop <- validate_bound "end_chapter" (end_chapter a) ;;
  gt <- bound_gt start stop ;;
  if gt then raise (ValueError "start_chapter cannot be more than end_chapter") else
  if negb (bool_decide (cover a ∈ valid_cover_types E)) then
    raise (ValueError ("invalid cover type, available are: "
                       +:+ str_of_list (valid_cover_types E)))
  else
  manga <- fetch (url a) (language a) ;;
  let base_path := base_path_of (folder a) manga in
  (* Create folder *)
  mkdir_parents base_path ;;;
  (* Cover path *)
  let cover_path := base_path // "cover.jpg" in
  (* Determine cover art quality, download the cover art *)
  match select_cover_url (cover a) manga with
  | None => raise (UnboundLocalError "cover_url")
  | Some cover_url =>
      download_file cover_url cover_path true ;;;
      (* Write details.json for tachiyomi local manga *)
      write_details manga (base_path // "details.json") ;;;
      (* Begin downloading *)
      chapters <- manga_chapters manga ;;
      download_chapters fuel base_path (replace a)
        (iter_chapter_images E chapters start stop
           (no_oneshot_chapter a) (compressed_image a)) ;;;
      ret manga
  end.

End Pipeline.

(** ** The command-line entry point ([cli/__init__.py]) *)

Module Cli.

(** The calls [_main] makes, in the order it makes them. *)
Inductive call :=
| RegisterKeyboardinterruptHandler
| GetArgs (argv : list string)
| SetupLogging
| LogError (msg : string)
| SetupProxy
| LoginWithErrHandler
| Download
| LogoutWithErrHandler
| CheckUpdate
| CloseNetworkObject.

(** The parsed arguments, as far as [_main] itself reads them. *)
Record Namespace := mkNamespace {
  start_chapter : option float;
  end_chapter : option float;
}.

(** The collaborators: the argument parser, and for every other call
    whether it returns or raises. *)
Record Env := {
  get_args : list string -> exn + Namespace;
  behaviour : call -> exn + unit;
}.

Definition C (A : Type) : Type := list call -> result A * list call.

Definition cret {A} (a : A) : C A := fun t => (Ok a, t).

Definition cbind {A B} (m : C A) (k : A -> C B) : C B :=
  fun t =>
    match m t with
    | (Ok a, t') => k a t'
    | (Raise e, t') => (Raise e, t')
    | (Diverge, t') => (Diverge, t')
    end.

Definition perform {A} (c : call) (answer : exn + A) : C A :=
  fun t =>
    match answer with
    | inl e => (Raise e, t ++ [c])
    | inr a => (Ok a, t ++ [c])
    end.

Section Main.

Variable E : Env.

Definition do (c : call) : C unit := perform c (behaviour E c).

Definition _main (argv : list string) : C Z :=
  (* Signal handler *)
  cbind (do RegisterKeyboardinterruptHandler) (fun _ =>
  (* Get command-line arguments *)
  cbind (perform (GetArgs argv) (get_args E argv)) (fun args =>
  (* Setup logging *)
  cbind (do SetupLogging) (fun _ =>
  (* Add checking before log in *)
  let invalid :=
    match start_chapter args, end_chapter args with
    | Some s, Some e => float_gt s e
    | _, _ => false
    end in
  if invalid then
    cbind (do (LogError "--start-chapter cannot be more than --end-chapter")) (fun _ =>
    cret 1%Z)
  else
    (* Setup proxy *)
    cbind (do SetupProxy) (fun _ =>
    (* Login *)
    cbind (do LoginWithErrHandler) (fun _ =>
    (* Download the manga *)
    cbind (do Download) (fun _ =>
    (* Logout when it's finished *)
    cbind (do LogoutWithErrHandler) (fun _ =>
    (* Check update *)
    cbind (do CheckUpdate) (fun _ =>
    (* Cleaning up *)
    cbind (do CloseNetworkObject) (fun _ =>
    (* We're done here *)
    cret 0%Z))))))))).

(** [main(argv)]: [sys.argv[1:]] when no argument vector is given; the
  result is what [sys.exit] is called with. *)
Definition main (argv : option (list string)) (sys_argv : list string) : C Z :=
  match argv with
  | None => _main (tail sys_argv)
  | Some argv => _main argv
  end.

End Main.

(** The calls that stand for proxy setup, login and download work. *)
Definition is_work (c : call) : bool :=
  match c with
  | SetupProxy | LoginWithErrHandler | Download | LogoutWithErrHandler
  | CheckUpdate | CloseNetworkObject => true
  | _ => false
  end.

(** Every collaborator returns normally. *)
Definition all_return (E : Env) (argv : list string) (args : Namespace) : Prop :=
  get_args E argv = inr args /\ forall c, behaviour E c = inr tt.

End Cli.

(** ** The background worker ([format/base.py], class [_Worker])

    Three kinds of threads share a [_Worker]: the worker thread running
    [_main], the watchdog running [_loop_check_mainthread], and the callers
    of [submit].  The model is the interleaving of their atomic operations on
    the queue and on the events ([Queue.put], [Queue.get], [Event.set],
    [Event.wait]); a scheduler picks the thread that moves next. *)

Module Worker.

(** How a call [job()] ends: it returns, it raises an instance of
    [Exception] (which [except Exception] catches), or it raises something
    that is not one ([SystemExit], [KeyboardInterrupt], ...). *)
Inductive job_outcome := Returns | RaisesException | RaisesBaseException.

Record Job := mkJob {
  job_name : string;
  run : job_outcome;
}.

(** A queue item: [[event, job]], or the [None] that stops [_main].
    An [Event] object is identified by its creation rank. *)
Abbreviation item := (option (nat * Job)) (only parsing).

(** Where [_main] stands. *)
Inductive main_pc :=
| MGet                          (* at [self._queue.get()] *)
| MRun (event : nat) (job : Job)  (* at [job()] *)
| MSet (event : nat)            (* at [event.set()] *)
| MReturned                     (* took the [None] and returned *)
| MDied.                        (* an exception left [_main] *)

(** Where a caller of [submit(job)] stands. *)
Inductive submit_pc :=
| SPut (job : Job)                   (* before [self._queue.put(data)] *)
| SWait (event : nat) (job : Job)    (* at [event.wait()] *)
| SReturned (event : nat) (job : Job).

(** Where [_loop_check_mainthread] stands. *)
Inductive watchdog_pc := DLoop | DReturned.

Record state := mkState {
  _queue : list item;
  set_events : gset nat;          (* the events whose flag is set *)
  next_event : nat;               (* how many events were created *)
  _shutdown_event : bool;
  mainthread_alive : bool;
  _thread_main : main_pc;
  _thread_shutdown : watchdog_pc;
  callers : list submit_pc;
  submitted : list (nat * Job);   (* history: items put, in order *)
  finished : list (nat * Job);    (* history: calls [job()] that ended *)
  logged : list string;           (* records written to the log *)
}.

(** Who moves: the worker thread, the watchdog, the [i]-th caller of
    [submit], some thread calling [shutdown()], or the interpreter's main
    thread coming to its end. *)
Inductive thread :=
| TMain
| TWatchdog
| TCaller (i : nat)
| TShutdown
| TMainthreadExit.

Definition with_main (pc : main_pc) (q : list item) (s : state) : state :=
  mkState q (set_events s) (next_event s) (_shutdown_event s)
          (mainthread_alive s) pc (_thread_shutdown s) (callers s)
          (submitted s) (finished s) (logged s).

Definition with_finished (pc : main_pc) (done : nat * Job) (s : state) : state :=
  mkState (_queue s) (set_events s) (next_event s) (_shutdown_event s)
          (mainthread_alive s) pc (_thread_shutdown s) (callers s)
          (submitted s) (finished s ++ [done]) (logged s).

Definition with_event_set (pc : main_pc) (event : nat) (s : state) : state :=
  mkState (_queue s) ({[event]} ∪ set_events s) (next_event s)
          (_shutdown_event s) (mainthread_alive s) pc (_thread_shutdown s)
          (callers s) (submitted s) (finished s) (logged s).

(** One turn of [while True] in [_main], cut at its blocking and
    observable points. *)
Definition step_main (s : state) : option state :=
  match _thread_main s with
  | MGet =>
      match _queue s with
      | [] => None                                  (* [get()] blocks *)
      | None :: q => Some (with_main MReturned q s)   (* [return] *)
      | Some (event, job) :: q => Some (with_main (MRun event job) q s)
      end
  | MRun event job =>
      match run job with
      | Returns => Some (with_finished (MSet event) (event, job) s)
      | RaisesException =>                          (* [except Exception: pass] *)
          Some (with_finished (MSet event) (event, job) s)
      | RaisesBaseException => Some (with_finished MDied (event, job) s)
      end
  | MSet event => Some (with_event_set MGet event s)
  | MReturned | MDied => None
  end.

(** [submit(job)] *)
Definition step_caller (i : nat) (s : state) : option state :=
  match callers s !! i with
  | Some (SPut job) =>
      let event := next_event s in
      Some (mkState (_queue s ++ [Some (event, job)]) (set_events s)
                    (S (next_event s)) (_shutdown_event s)
                    (mainthread_alive s) (_thread_main s)
                    (_thread_shutdown s)
                    (<[i := SWait event job]> (callers s))
                    (submitted s ++ [(event, job)]) (finished s) (logged s))
  | Some (SWait event job) =>
      if bool_decide (event ∈ set_events s) then
        Some (mkState (_queue s) (set_events s) (next_event s)
                      (_shutdown_event s) (mainthread_alive s)
                      (_thread_main s) (_thread_shutdown s)
                      (<[i := SReturned event job]> (callers s))
                      (submitted s) (finished s) (logged s))
      else None                                     (* [wait()] blocks *)
  | Some (SReturned _ _) | None => None
  end.

(** [_loop_check_mainthread], then [_shutdown_main]. *)
Definition step_watchdog (s : state) : option state :=
  match _thread_shutdown s with
  | DLoop =>
      if mainthread_alive s && negb (_shutdown_event s) then Some s
      else
        Some (mkState (_queue s ++ [None]) (set_events s) (next_event s)
                      (_shutdown_event s) (mainthread_alive s)
                      (_thread_main s) DReturned (callers s)
                      (submitted s) (finished s) (logged s))
  | DReturned => None
  end.

Definition step (t : thread) (s : state) : option state :=
  match t with
  | TMain => step_main s
  | TWatchdog => step_watchdog s
  | TCaller i => step_caller i s
  | TShutdown =>                                    (* [shutdown()] *)
      Some (mkState (_queue s) (set_events s) (next_event s) true
                    (mainthread_alive s) (_thread_main s)
                    (_thread_shutdown s) (callers s)
                    (submitted s) (finished s) (logged s))
  | TMainthreadExit =>
      Some (mkState (_queue s) (set_events s) (next_event s)
                    (_shutdown_event s) false (_thread_main s)
                    (_thread_shutdown s) (callers s)
                    (submitted s) (finished s) (logged s))
  end.

(** A started worker and the callers about to submit [jobs]. *)
Definition init (jobs : list Job) : state :=
  mkState [] ∅ 0 false true MGet DLoop (SPut <$> jobs) [] [] [].

Inductive reachable (jobs : list Job) : state -> Prop :=
| reach_init : reachable jobs (init jobs)
| reach_step s t s' :
    reachable jobs s -> step t s = Some s' -> reachable jobs s'.

(** Running a schedule; a thread that cannot move loses its turn. *)
Fixpoint exec (schedule : list thread) (s : state) : state :=
  match schedule with
  | [] => s
  | t :: schedule' => exec schedule' (default s (step t s))
  end.

(** The item whose job the worker thread is in the middle of. *)
Definition running (s : state) : list (nat * Job) :=
  match _thread_main s with
  | MRun event job => [(event, job)]
  | _ => []
  end.

(** The items still waiting in the queue. *)
Definition pending (s : state) : list (nat * Job) :=
  omap (fun x : item => x) (_queue s).

(** What the steps preserve: items are served in the order they were put;
    an event is set only for a job that ended; a caller waits for, or has
    returned from, an item it put; events are distinct; nothing is logged. *)
Record invariant (s : state) : Prop := {
  inv_order : submitted s = finished s ++ running s ++ pending s;
  inv_set : forall event, event ∈ set_events s -> event ∈ (finished s).*1;
  inv_setting : forall event, _thread_main s = MSet event ->
                event ∈ (finished s).*1;
  inv_waiting : forall i event job,
      callers s !! i = Some (SWait event job) -> (event, job) ∈ submitted s;
  inv_returned : forall i event job,
      callers s !! i = Some (SReturned event job) ->
      (event, job) ∈ submitted s /\ event ∈ set_events s;
  inv_rank : forall event job,
      (event, job) ∈ submitted s -> event < next_event s;
  inv_nodup : NoDup (submitted s).*1;
  inv_log : logged s = [];
}.

End Worker.

Arguments id {E} m.
Arguments title {E} m.
Arguments cover_art {E} m.
Arguments cover_art_512px {E} m.
Arguments cover_art_256px {E} m.
Arguments _chapters {E} m.
Arguments mkManga {E}.
Arguments LangEnum {E} l.
Arguments LangStr {E} s.
Arguments LangOther {E} class_name.
Arguments mkArgs {E}.
Arguments url {E} a.
Arguments folder {E} a.
Arguments replace {E} a.
Arguments compressed_image {E} a.
Arguments start_chapter {E} a.
Arguments end_chapter {E} a.
Arguments no_oneshot_chapter {E} a.
Arguments language {E} a.
Arguments cover {E} a.
Arguments select_cover_url {E} cover manga.
Arguments write_details {E} manga p.
Arguments manga_chapters {E} manga.
Arguments base_path_of {E} folder manga.

(** ** Vocabulary of the statements *)

(** What a run from [w] to [w'] added to the trace. *)
Definition new_events (w w' : World) : list event :=
  drop (length (trace w)) (trace w').

(** The configuration errors of a call. *)
Definition invalid_language {E : Env} (l : lang_arg E) : Prop :=
  match l with
  | LangEnum _ => False
  | LangStr s => exists e, get_language E s = inl e
  | LangOther _ => True
  end.

Definition config_error {E : Env} (a : Args E) : Prop :=
  (exists s e, start_chapter a = AFloat s /\ end_chapter a = AFloat e /\
               float_gt s e = true) \/
  cover a ∉ valid_cover_types E \/
  invalid_language (language a).

(** The checks at the head of [download] let the call through. *)
Definition validated {E : Env} (a : Args E) (s e : float) : Prop :=
  start_chapter a = AFloat s /\ end_chapter a = AFloat e /\
  float_gt s e = false /\ cover a ∈ valid_cover_types E.

Definition is_download_file (e : event) : bool :=
  match e with EvDownloadFile _ _ _ _ => true | _ => false end.

Definition is_api_request (e : event) : bool :=
  match e with
  | EvGetManga _ | EvGetAuthor _ | EvGetCoverArt _ | EvGetAllChapters _ _ => true
  | _ => false
  end.

Definition is_chapter_event (e : event) : bool :=
  match e with
  | EvImagesFetch _ | EvPageDownload _ _ _ _ | EvMkdir _ => true
  | _ => false
  end.

Definition is_skipped_page (e : event) : bool :=
  match e with EvPageDownload _ _ _ Skipped => true | _ => false end.

(** From [w] to [w']: nothing on disk disappeared, and the trace grew by
    events that all satisfy [P]. *)
Definition evolves (P : event -> Prop) (w w' : World) : Prop :=
  files w ⊆ files w' /\ dirs w ⊆ dirs w' /\
  exists t, trace w' = trace w ++ t /\ Forall P t.

(** From [w] to [w']: the disk is as it was. *)
Definition same_fs (w w' : World) : Prop :=
  files w' = files w /\ dirs w' = dirs w.

(** From [w] to [w']: no file that existed was transferred, no file was
    transferred twice, and what was transferred exists. *)
Definition transfers_fresh (w w' : World) : Prop :=
  files w ⊆ files w' /\
  exists t, trace w' = trace w ++ t /\
    forall p, count (transfers_to p) t <= 1 /\
              (p ∈ files w -> count (transfers_to p) t = 0) /\
              (count (transfers_to p) t = 1 -> p ∈ files w').

(** Every run of [m] relates the world it starts in to the one it leaves. *)
Definition respects {A} (R : World -> World -> Prop) (m : M A) : Prop :=
  forall w r w', m w = (r, w') -> R w w'.

(** What [m] computes does not depend on the world it runs in. *)
Definition world_independent {A} (m : M A) : Prop :=
  forall w w', fst (m w) = fst (m w').

(** The events of a pass over [entries] in which every page went through. *)
Definition downloaded (cp : Path) (r : bool)
    (entries : list page_entry) (t : list event) : Prop :=
  Forall2 (fun en ev => exists o, o <> Failed /\
             ev = EvPageDownload (pe_url en) (cp // pe_name en) r o)
          entries t.

(** The traces of a chapter's page loop, starting at moment [n] with the
    image set [images], together with the way the loop ended: one pass over
    the whole set without a failure ends it; a pass that fails at some page
    is followed by the refetch and, if that answers, by such a trace again
    for the refreshed set, from its first page; a refetch that raises ends
    the loop with that exception; and a loop may be observed before it has
    ended, at the head of a pass. *)
Inductive chapter_run (E : Env) (cp : Path) (r : bool) :
    nat -> ChapterImages -> result unit -> list event -> Prop :=
| run_clean n images t :
    downloaded cp r (ci_images images) t ->
    chapter_run E cp r n images (Ok tt) t
| run_retry n images before en after t_before pages res t_rest :
    ci_images images = before ++ en :: after ->
    downloaded cp r before t_before ->
    images_endpoint E (n + length t_before + 1)
      (ci_id images) (ci_data_saver images) = inr pages ->
    chapter_run E cp r (n + length t_before + 2)
      (mkImages (ci_id images) (ci_data_saver images) pages) res t_rest ->
    chapter_run E cp r n images res
      (t_before
       ++ [EvPageDownload (pe_url en) (cp // pe_name en) r Failed;
           EvImagesFetch (ci_id images)]
       ++ t_rest)
| run_refetch_raises n images before en after t_before e :
    ci_images images = before ++ en :: after ->
    downloaded cp r before t_before ->
    images_endpoint E (n + length t_before + 1)
      (ci_id images) (ci_data_saver images) = inl e ->
    chapter_run E cp r n images (Raise e)
      (t_before
       ++ [EvPageDownload (pe_url en) (cp // pe_name en) r Failed;
           EvImagesFetch (ci_id images)])
| run_unfinished n images :
    chapter_run E cp r n images Diverge [].

(** An upstream that never lets a transfer through and keeps answering with
    image sets whose first page is not on disk. *)
Definition broken_upstream (E : Env) (cp : Path) (images : ChapterImages)
    (w : World) : Prop :=
  (forall t u, transfer_ok E t u = false) /\
  (forall t, exists en rest,
     images_endpoint E t (ci_id images) (ci_data_saver images) = inr (en :: rest) /\
     cp // pe_name en ∉ files w) /\
  (exists en rest, ci_images images = en :: rest /\ cp // pe_name en ∉ files w).

(** The first [n] passes over the chapter fail, the next one goes through. *)
Fixpoint failed_passes (E : Env) (n : nat) (cp : Path) (r : bool)
    (images : ChapterImages) (w : World) : Prop :=
  match n with
  | 0 => exists w', page_loop E (images_iter images) cp r images w
                    = (Ok (false, images), w')
  | S n' => exists images' w',
      page_loop E (images_iter images) cp r images w = (Ok (true, images'), w') /\
      failed_passes E n' cp r images' w'
  end.

(** A chapter whose links work after [n] failed passes. *)
Definition converges_after (E : Env) (n : nat) (bp : Path) (r : bool)
    (item : label * string * ChapterImages) (w : World) : Prop :=
  exists cp images w1,
    prepare_chapter E bp item w = (Ok (cp, images), w1) /\
    failed_passes E n cp r images w1.

(** The image-link endpoint names the files of a chapter the same way each
    time it answers. *)
Definition stable_names (E : Env) : Prop :=
  forall t t' cid saver l l',
    images_endpoint E t cid saver = inr l ->
    images_endpoint E t' cid saver = inr l' ->
    map pe_name l = map pe_name l'.

(** From moment [from] on, the image-link endpoint answers. *)
Definition endpoint_up (E : Env) (from : nat) : Prop :=
  forall t cid saver, from <= t -> exists l, images_endpoint E t cid saver = inr l.

(** Every page file the endpoint may name for the chapter is on disk. *)
Definition pages_present (E : Env) (bp : Path)
    (item : label * string * ChapterImages) (w : World) : Prop :=
  let '(vol, chap, images) := item in
  forall t l en,
    images_endpoint E t (ci_id images) (ci_data_saver images) = inr l ->
    en ∈ l ->
    bp // chapter_folder vol chap // pe_name en ∈ files w.

(** What a run that only verifies what is already there leaves in the trace:
    refetched image links, directory checks, pages skipped because their file
    exists. *)
Definition is_recheck (e : event) : bool :=
  match e with
  | EvImagesFetch _ | EvMkdir _ | EvPageDownload _ _ _ Skipped => true
  | _ => false
  end.

(** What [download] does once [fetch] has returned [manga]. *)
Definition after_fetch (E : Env) (a : Args E) (fuel : nat)
    (start stop : option float) (manga : Manga E) : M (Manga E) :=
  let base_path := base_path_of (folder a) manga in
  mkdir_parents base_path ;;;
  match select_cover_url (cover a) manga with
  | None => raise (UnboundLocalError "cover_url")
  | Some cover_url =>
      download_file E cover_url (base_path // "cover.jpg") true ;;;
      write_details manga (base_path // "details.json") ;;;
      chapters <- manga_chapters manga ;;
      download_chapters E fuel base_path (replace a)
        (iter_chapter_images E chapters start stop
           (no_oneshot_chapter a) (compressed_image a)) ;;;
      ret manga
  end.

(** ** A small upstream to run the pipeline against *)

Module Mock.

Definition pages (host : string) : list page_entry :=
  [PageEntry 1 (host +:+ "/1.png") "1.png";
   PageEntry 2 (host +:+ "/2.png") "2.png"].

(** One manga, ["m1"], with one chapter of two pages; the manga ["gone"]
    does not exist, and there are no chapters in language ["id"]. *)
Definition upstream
    (endpoint : nat -> string -> bool -> exn + list page_entry)
    (transfer : nat -> string -> bool) : Env :=
  {| json := string;
     Language := string;
     Chapter := list (label * string * ChapterImages);
     Language_value := fun l => l;
     get_language := fun s =>
       if bool_decide (s ∈ ["en"; "id"]) then inr s
       else inl (ValueError (s +:+ " is not a valid Language"));
     validate_url := fun u =>
       if String.eqb u "" then inl (InvalidURL "invalid MangaDex URL or manga id")
       else inr u;
     valid_cover_types := ["original"; "512px"; "256px"];
     sanitize_filename := fun s => s;
     get_manga := fun mid =>
       if String.eqb mid "gone" then inl (InvalidManga "Manga cannot be found")
       else inr mid;
     get_author := fun _ => inr "author";
     get_cover_art := fun _ => inr "cover";
     get_all_chapters := fun mid _ => inr mid;
     relationships := fun _ =>
       [Rel (Some "author") (Some "a1"); Rel (Some "cover_art") (Some "c1")];
     Manga_id := fun data => data;
     Manga_title := fun _ => "Title";
     Manga_cover_art := fun _ _ => "covers/c1.jpg";
     Manga_cover_art_512px := fun _ _ => "covers/c1.jpg.512.jpg";
     Manga_cover_art_256px := fun _ _ => "covers/c1.jpg.256.jpg";
     Chapter_init := fun _ _ lang =>
       if String.eqb lang "id" then inl (ChapterNotFound "no chapters")
       else inr [(LStr "1", "1", mkImages "ch1" false [])];
     iter_chapter_images := fun chapters _ _ _ _ => chapters;
     images_endpoint := endpoint;
     transfer_ok := transfer |}.

(** Every link works. *)
Definition healthy : Env :=
  upstream (fun _ _ _ => inr (pages "cdn")) (fun _ _ => true).

(** The links handed out before moment [fresh_from] are stale: the second
    page behind them cannot be transferred; later answers work. *)
Definition flaky (fresh_from : nat) : Env :=
  upstream (fun t _ _ => if t <? fresh_from then inr (pages "stale")
                         else inr (pages "cdn"))
           (fun _ u => negb (String.eqb u "stale/2.png")).

(** No transfer ever goes through. *)
Definition broken : Env :=
  upstream (fun _ _ _ => inr (pages "cdn")) (fun _ _ => false).

Definition empty_world : World := mkWorld ∅ ∅ [].

Definition args (E : Env) (language : lang_arg E) (url : string)
    (start stop : arg) (cover : string) (replace : bool) : Args E :=
  mkArgs url None replace false start stop false language cover.

Definition chapter1 : label * string * ChapterImages :=
  (LStr "1", "1", mkImages "ch1" false []).

Definition chapter1_path : Path := ["Title"; "Volume. 1 Chapter. 1"].

(** A call that passes the checks, and the manga it returns. *)
Definition run_args : Args healthy :=
  args healthy (LangStr "en") "m1" (AFloat 1) (AFloat 2) "original" false.

Definition the_manga : Manga healthy :=
  mkManga "m1" "Title" "covers/c1.jpg" "covers/c1.jpg.512.jpg"
          "covers/c1.jpg.256.jpg"
          (Some [chapter1] : option (Chapter healthy)).

(** The world after one run from scratch, and after a second run. *)
Definition after_first_run : World :=
  snd (download healthy run_args 1 empty_world).

Definition after_second_run : World :=
  snd (download healthy run_args 1 after_first_run).

(** The chapter's image set holding links that have gone stale. *)
Definition stale_images : ChapterImages := mkImages "ch1" false (pages "stale").

(** A command line that parses to [args]; every collaborator returns. *)
Definition cli (args : Cli.Namespace) : Cli.Env :=
  {| Cli.get_args := fun _ => inr args;
     Cli.behaviour := fun _ => inr tt |}.

(** Two jobs for the worker: one that raises, one that returns. *)
Definition boom : Worker.Job := Worker.mkJob "boom" Worker.RaisesException.
Definition zip : Worker.Job := Worker.mkJob "zip" Worker.Returns.

End Mock.

(** ** Vocabulary for the remaining behaviour of [fetch] and [download] *)

(** The request the loop over [rels] makes for one relationship, if any. *)
Definition rel_request (r : rel) : option event :=
  if bool_decide (rel_type r = Some "author") then Some (EvGetAuthor (rel_id r))
  else if bool_decide (rel_type r = Some "artist") then Some (EvGetAuthor (rel_id r))
  else if bool_decide (rel_type r = Some "cover_art") then Some (EvGetCoverArt (rel_id r))
  else None.

(** The answers to the requests for the relationships of type [kind], in
    the order of the relationships. *)
Definition answers_of {A} (kind : string) (ask : option string -> exn + A)
    (rels : list rel) : list A :=
  omap (fun r =>
          if bool_decide (rel_type r = Some kind) then
            match ask (rel_id r) with inr a => Some a | inl _ => None end
          else None)
       rels.


(** ** Vocabulary for the shutdown of the worker *)

(** The number of [None] items in the queue. *)
Definition sentinels (q : list (option (nat * Worker.Job))) : nat :=
  length (filter (fun x => x = None) q).

(** The worker thread has left [_main], by [return] or by an exception. *)
Definition main_ended (s : Worker.state) : Prop :=
  Worker._thread_main s = Worker.MReturned \/
  Worker._thread_main s = Worker.MDied.

(** A caller of [submit] whose job the worker has not answered: it has not
    put its item yet, or waits on an event that is not set. *)
Definition unanswered (s : Worker.state) (i : nat) : Prop :=
  (exists job, Worker.callers s !! i = Some (Worker.SPut job)) \/
  (exists event job,
     Worker.callers s !! i = Some (Worker.SWait event job) /\
     event ∉ Worker.set_events s).

(** What the steps preserve about the sentinel: it is put once, by the
    watchdog, after [shutdown()] or the end of the main thread, and the
    worker returns only by taking it. *)
Record shutdown_invariant (s : Worker.state) : Prop := {
  si_watching :
    Worker._thread_shutdown s = Worker.DLoop ->
    sentinels (Worker._queue s) = 0 /\
    Worker._thread_main s <> Worker.MReturned;
  si_put :
    Worker._thread_shutdown s = Worker.DReturned ->
    Worker._shutdown_event s = true \/ Worker.mainthread_alive s = false;
  si_once : sentinels (Worker._queue s) <= 1;
  si_taken :
    Worker._thread_main s = Worker.MReturned ->
    sentinels (Worker._queue s) = 0;
}.

(** ** Vocabulary for the runs of [_main] of the command line *)

(** The calls of a run that passes the pre-flight check, and of one that
    does not. *)
Definition full_run (argv : list string) : list Cli.call :=
  [Cli.RegisterKeyboardinterruptHandler; Cli.GetArgs argv; Cli.SetupLogging;
   Cli.SetupProxy; Cli.LoginWithErrHandler; Cli.Download;
   Cli.LogoutWithErrHandler; Cli.CheckUpdate; Cli.CloseNetworkObject].

Definition rejected_run (argv : list string) : list Cli.call :=
  [Cli.RegisterKeyboardinterruptHandler; Cli.GetArgs argv; Cli.SetupLogging;
   Cli.LogError "--start-chapter cannot be more than --end-chapter"].

(** Both bounds are given and [start_chapter > end_chapter]. *)
Definition bounds_reversed (args : Cli.Namespace) : bool :=
  match Cli.start_chapter args, Cli.end_chapter args with
  | Some s, Some e => float_gt s e
  | _, _ => false
  end.

(** What a call answered: the argument parser for [GetArgs], the
    collaborator's behaviour for the others. *)
Definition raised_by (E : Cli.Env) (c : Cli.call) (e : exn) : Prop :=
  match c with
  | Cli.GetArgs argv => Cli.get_args E argv = inl e
  | _ => Cli.behaviour E c = inl e
  end.

(** ** Vocabulary for the base folder and for the errors of [fetch] *)

(** A regular file sits where the directory [p], or one of its parents,
    would have to be. *)
Definition blocked (p : Path) (w : World) : Prop :=
  exists a, a ∈ ancestors [] p /\ a ∈ files w /\ a ∉ dirs w.

(** Every request that [fetch] makes for one of the relationships is
    answered. *)
Definition rels_answered (E : Env) (rels : list rel) : Prop :=
  forall r, r ∈ rels ->
    (rel_type r = Some "author" \/ rel_type r = Some "artist" ->
     exists a, get_author E (rel_id r) = inr a) /\
    (rel_type r = Some "cover_art" ->
     exists c, get_cover_art E (rel_id r) = inr c).

(** [fetch] raises [e] after the requests [requests], and so does
    [download]: with [e] itself in a call that passed the checks, with the
    error of the checks otherwise; either way the disk is as it was and
    nothing was created. *)
Definition raises_without_output {E : Env} (a : Args E) (fuel : nat)
    (w : World) (e : exn) (requests : list event) : Prop :=
  exists w1,
    fetch E (url a) (language a) w = (Raise e, w1) /\
    new_events w w1 = requests /\
    exists e' w',
      download E a fuel w = (Raise e', w') /\
      files w' = files w /\ dirs w' = dirs w /\
      Forall (fun ev => is_output ev = false) (new_events w w') /\
      (forall s t, validated a s t -> e' = e /\ w' = w1).

(** ** Vocabulary for the loop over the chapters *)

(** The events of the loop over the chapters [items], entered at moment
    [n], together with the way it ended.  A chapter starts with the fetch
    of its image links, then its folder is created unless something of that
    name exists, then comes its page loop.  The next chapter is entered
    only when that page loop has returned, which it does only after a pass
    without a failure; otherwise the loop over the chapters ends the way
    the page loop did, or with the exception of the first fetch. *)
Inductive chapters_run (E : Env) (bp : Path) (r : bool) :
    nat -> list (label * string * ChapterImages) -> result unit ->
    list event -> Prop :=
| chapters_done n :
    chapters_run E bp r n [] (Ok tt) []
| chapters_next n vol chap images items pages t_dir t res t_rest :
    images_endpoint E n (ci_id images) (ci_data_saver images) = inr pages ->
    t_dir = [] \/ t_dir = [EvMkdir (bp // chapter_folder vol chap)] ->
    chapter_run E (bp // chapter_folder vol chap) r (n + 1 + length t_dir)
      (mkImages (ci_id images) (ci_data_saver images) pages) (Ok tt) t ->
    chapters_run E bp r (n + 1 + length t_dir + length t) items res t_rest ->
    chapters_run E bp r n ((vol, chap, images) :: items) res
      (EvImagesFetch (ci_id images) :: t_dir ++ t ++ t_rest)
| chapters_stop n vol chap images items pages t_dir t res :
    res <> Ok tt ->
    images_endpoint E n (ci_id images) (ci_data_saver images) = inr pages ->
    t_dir = [] \/ t_dir = [EvMkdir (bp // chapter_folder vol chap)] ->
    chapter_run E (bp // chapter_folder vol chap) r (n + 1 + length t_dir)
      (mkImages (ci_id images) (ci_data_saver images) pages) res t ->
    chapters_run E bp r n ((vol, chap, images) :: items) res
      (EvImagesFetch (ci_id images) :: t_dir ++ t)
| chapters_fetch_raises n vol chap images items e :
    images_endpoint E n (ci_id images) (ci_data_saver images) = inl e ->
    chapters_run E bp r n ((vol, chap, images) :: items) (Raise e)
      [EvImagesFetch (ci_id images)].

(** An upstream that answers every fetch for the chapter with an image set
    whose first page is not on disk, and lets no transfer through. *)
Definition never_delivers (E : Env) (cp : Path) (images : ChapterImages)
    (w : World) : Prop :=
  (forall t u, transfer_ok E t u = false) /\
  (forall t, exists en rest,
     images_endpoint E t (ci_id images) (ci_data_saver images) = inr (en :: rest) /\
     cp // pe_name en ∉ files w).

(** ** More upstreams and command lines to run the code against *)

Module Scenarios.



(** A command line without chapter bounds; the download raises. *)
Definition failing_download : Cli.Env :=
  {| Cli.get_args := fun _ => inr (Cli.mkNamespace None None);
     Cli.behaviour := fun c =>
       match c with
       | Cli.Download => inl (InvalidManga "Manga cannot be found")
       | _ => inr tt
       end |}.

(** A regular file named [Title] in the working directory. *)
Definition title_is_a_file : World := mkWorld {[ ["Title"] ]} ∅ [].

(** [shutdown()] was called and the worker took the [None] before the only
    caller put its job. *)
Definition stopped_early : Worker.state :=
  Worker.exec [Worker.TShutdown; Worker.TWatchdog; Worker.TMain]
              (Worker.init [Mock.boom]).

(** Two jobs were put, then [shutdown()] was called. *)
Definition two_queued : Worker.state :=
  Worker.exec [Worker.TCaller 0; Worker.TCaller 1; Worker.TShutdown;
               Worker.TWatchdog]
              (Worker.init [Mock.boom; Mock.zip]).

End Scenarios.

(** * Properties

    ** The chapter folder *)

Lemma append_nil (b : string) : "" +:+ b = b.
Proof. reflexivity. Qed.

Lemma append_cons (ch : Ascii.ascii) (a b : string) :
  String ch a +:+ b = String ch (a +:+ b).
Proof. reflexivity. Qed.

Lemma string_app_assoc (a b c : string) : (a +:+ b) +:+ c = a +:+ (b +:+ c).
Proof.
  induction a as [|ch a IH]; [done |].
  by rewrite !append_cons, IH.
Qed.

Lemma chapter_folder_eq (vol : label) (chap : string) :
  chapter_folder vol chap =
    if label_eq_int vol 0 && String.eqb chap "none"
       || label_eq_str vol "none" && (String.eqb chap "none" || String.eqb chap "0")
    then "Oneshot"
    else if label_eq_str vol "none" then "Chapter. " +:+ chap
    else "Volume. " +:+ label_str vol +:+ " Chapter. " +:+ chap.
Proof.
  unfold chapter_folder.
  destruct (label_eq_int vol 0), (label_eq_str vol "none"),
    (String.eqb chap "none"), (String.eqb chap "0"); simpl;
    rewrite ?append_nil, ?string_app_assoc; reflexivity.
Qed.

Lemma oneshot_sentinel_test (vol : label) (chap : string) :
  oneshot_sentinel vol chap <->
  label_eq_int vol 0 && String.eqb chap "none"
  || label_eq_str vol "none" && (String.eqb chap "none" || String.eqb chap "0") = true.
Proof.
  unfold oneshot_sentinel. split.
  - intros [[-> ->] | [[-> ->] | [-> ->]]]; reflexivity.
  - intros H. apply orb_true_iff in H as [H | H];
      apply andb_true_iff in H as [Hv Hc].
    + left. destruct vol as [n | s]; simpl in Hv; [| done].
      apply bool_decide_eq_true in Hv. apply String.eqb_eq in Hc. by subst.
    + right. destruct vol as [n | s]; simpl in Hv; [done |].
      apply String.eqb_eq in Hv. subst s.
      apply orb_true_iff in Hc as [Hc | Hc]; apply String.eqb_eq in Hc; auto.
Qed.

(** C5: the chapter folder name is ["Oneshot"] exactly for the three oneshot
    sentinel combinations (volume [0] with chapter ["none"], volume ["none"]
    with chapter ["none"], volume ["none"] with chapter ["0"]); for every
    other pair it is ["Chapter. {chap}"] when the volume label is ["none"],
    and ["Volume. {vol} Chapter. {chap}"] otherwise, with the volume label
    itself when it is a string and its decimal digits when it is an
    integer. *)
Theorem chapter_folder_spec (vol : label) (chap : string) :
  (chapter_folder vol chap = "Oneshot" <-> oneshot_sentinel vol chap) /\
  (~ oneshot_sentinel vol chap ->
     (vol = LStr "none" -> chapter_folder vol chap = "Chapter. " +:+ chap) /\
     (forall s, vol = LStr s -> s <> "none" ->
        chapter_folder vol chap = "Volume. " +:+ s +:+ " Chapter. " +:+ chap) /\
     (forall n, vol = LInt n ->
        chapter_folder vol chap =
          "Volume. " +:+ pretty n +:+ " Chapter. " +:+ chap)).
Proof.
  rewrite chapter_folder_eq, oneshot_sentinel_test.
  destruct (label_eq_int vol 0 && String.eqb chap "none"
            || label_eq_str vol "none"
               && (String.eqb chap "none" || String.eqb chap "0")) eqn:Hs.
  - split; [done | intros []; done].
  - split.
    { split; [| done].
      destruct (label_eq_str vol "none"); rewrite append_cons; discriminate. }
    intros _. repeat split.
    + intros ->. reflexivity.
    + intros s -> Hne. simpl.
      destruct (String.eqb s "none") eqn:Heq; [| done].
      by apply String.eqb_eq in Heq.
    + intros n ->. reflexivity.
Qed.

(** ** The checks at the head of [download] *)

Section Checks.
Variable E : Env.

Lemma download_bounds_gt (a : Args E) fuel w s e :
  start_chapter a = AFloat s -> end_chapter a = AFloat e ->
  float_gt s e = true ->
  download E a fuel w =
    (Raise (ValueError "start_chapter cannot be more than end_chapter"), w).
Proof.
  intros Hs He Hgt. unfold download, bind. rewrite Hs, He. simpl.
  by rewrite Hgt.
Qed.

Lemma download_bad_cover (a : Args E) fuel w :
  cover a ∉ valid_cover_types E -> exists e, download E a fuel w = (Raise e, w).
Proof.
  intros Hc. unfold download, bind.
  destruct (start_chapter a), (end_chapter a); simpl; eauto.
  destruct (float_gt f f0); eauto.
  rewrite bool_decide_eq_false_2 by done. simpl. eauto.
Qed.

Lemma parse_language_invalid (l : lang_arg E) w :
  invalid_language l -> exists e, parse_language E l w = (Raise e, w).
Proof.
  destruct l as [l | s | c]; simpl; [done | | eauto].
  intros [e He]. unfold bind. rewrite He. simpl. eauto.
Qed.

Lemma download_bad_language (a : Args E) fuel w :
  invalid_language (language a) -> exists e, download E a fuel w = (Raise e, w).
Proof.
  intros Hl. unfold download, bind.
  destruct (start_chapter a), (end_chapter a); simpl; eauto.
  destruct (float_gt f f0); eauto.
  destruct (bool_decide _); simpl; eauto.
  unfold fetch, bind.
  destruct (parse_language_invalid _ w Hl) as [e ->]. eauto.
Qed.

(** C1: a call with a configuration error ([start_chapter > end_chapter]
    with both bounds given as floats, a cover that is not a valid cover
    type, an invalid language) raises, and the world it leaves is the world
    it started in: no request was made, nothing was written.  When the
    bounds are the reversed floats, the error is the [ValueError] of the
    bounds check, whatever else is wrong. *)
Theorem config_errors_before_network (a : Args E) (fuel : nat) (w : World) :
  config_error a ->
  exists e, download E a fuel w = (Raise e, w) /\
    (forall s e', start_chapter a = AFloat s -> end_chapter a = AFloat e' ->
       float_gt s e' = true ->
       e = ValueError "start_chapter cannot be more than end_chapter").
Proof.
  intros [(s & e & Hs & He & Hgt) | [Hc | Hl]].
  - eexists. split; [by eapply download_bounds_gt |]. done.
  - destruct (download_bad_cover a fuel w Hc) as [e He]. exists e.
    split; [done |]. intros s e' Hs He' Hgt.
    rewrite (download_bounds_gt a fuel w s e' Hs He' Hgt) in He. congruence.
  - destruct (download_bad_language a fuel w Hl) as [e He]. exists e.
    split; [done |]. intros s e' Hs He' Hgt.
    rewrite (download_bounds_gt a fuel w s e' Hs He' Hgt) in He. congruence.
Qed.
End Checks.

(** ** How runs change the world *)

Global Instance evolves_preorder P : PreOrder (evolves P).
Proof.
  split.
  - intros w. repeat split; [done | done |]. exists []. by rewrite app_nil_r.
  - intros w1 w2 w3 (Hf1 & Hd1 & t1 & Ht1 & HP1) (Hf2 & Hd2 & t2 & Ht2 & HP2).
    repeat split; [set_solver | set_solver |].
    exists (t1 ++ t2). split; [by rewrite Ht2, Ht1, app_assoc |].
    by apply Forall_app.
Qed.

Global Instance same_fs_preorder : PreOrder same_fs.
Proof.
  split.
  - by intros w.
  - intros w1 w2 w3 [Hf1 Hd1] [Hf2 Hd2]. split; congruence.
Qed.

Lemma evolves_impl (P Q : event -> Prop) w w' :
  (forall e, P e -> Q e) -> evolves P w w' -> evolves Q w w'.
Proof.
  intros HPQ (Hf & Hd & t & Ht & HP). repeat split; [done | done |].
  exists t. split; [done |]. by eapply Forall_impl.
Qed.

Lemma new_events_app w w' t : trace w' = trace w ++ t -> new_events w w' = t.
Proof. intros H. unfold new_events. by rewrite H, drop_app_length. Qed.

Lemma evolves_new_events P w w' : evolves P w w' -> Forall P (new_events w w').
Proof. intros (_ & _ & t & Ht & HP). by rewrite (new_events_app _ _ _ Ht). Qed.

Lemma evolves_trace P w w' :
  evolves P w w' -> trace w' = trace w ++ new_events w w'.
Proof. intros (_ & _ & t & Ht & HP). by rewrite (new_events_app _ _ _ Ht). Qed.

Lemma new_events_trans P Q w1 w2 w3 :
  evolves P w1 w2 -> evolves Q w2 w3 ->
  new_events w1 w3 = new_events w1 w2 ++ new_events w2 w3.
Proof.
  intros H12 H23.
  pose proof (evolves_trace _ _ _ H12) as E12.
  pose proof (evolves_trace _ _ _ H23) as E23.
  apply new_events_app. by rewrite E23, E12 at 1; rewrite app_assoc.
Qed.

Section Respects.
Context {A B : Type} (R : World -> World -> Prop) `{!PreOrder R}.

Lemma respects_ret (a : A) : respects R (ret a).
Proof. intros w r w' [= <- <-]. reflexivity. Qed.

Lemma respects_raise (e : exn) : respects R (@raise A e).
Proof. intros w r w' [= <- <-]. reflexivity. Qed.

Lemma respects_diverge : respects R (@diverge A).
Proof. intros w r w' [= <- <-]. reflexivity. Qed.

Lemma respects_lift (x : exn + A) : respects R (lift x).
Proof. destruct x; [apply respects_raise | apply respects_ret]. Qed.

Lemma respects_bind (m : M A) (k : A -> M B) :
  respects R m -> (forall a, respects R (k a)) -> respects R (bind m k).
Proof.
  intros Hm Hk w r w'. unfold bind.
  destruct (m w) as [[a | e |] w1] eqn:Hmw; intros Hrun.
  - etrans; [by eapply Hm | by eapply Hk].
  - injection Hrun as <- <-. by eapply Hm.
  - injection Hrun as <- <-. by eapply Hm.
Qed.
End Respects.

Lemma respects_now R `{!PreOrder R} : respects R now.
Proof. intros w r w' [= <- <-]. reflexivity. Qed.

Lemma respects_file_exists R `{!PreOrder R} p : respects R (file_exists p).
Proof. intros w r w' [= <- <-]. reflexivity. Qed.

Lemma respects_path_exists R `{!PreOrder R} p : respects R (path_exists p).
Proof. intros w r w' [= <- <-]. reflexivity. Qed.

Lemma evolves_emit (P : event -> Prop) e : P e -> respects (evolves P) (emit e).
Proof.
  intros HP w r w' [= <- <-]. repeat split; simpl; [done | done |].
  exists [e]. split; [done |]. by constructor.
Qed.

Lemma evolves_create_file P p : respects (evolves P) (create_file p).
Proof.
  intros w r w' [= <- <-]. repeat split; simpl; [set_solver | done |].
  exists []. by rewrite app_nil_r.
Qed.

Lemma evolves_create_dir P p : respects (evolves P) (create_dir p).
Proof.
  intros w r w' [= <- <-]. repeat split; simpl; [done | set_solver |].
  exists []. by rewrite app_nil_r.
Qed.

Lemma same_fs_emit e : respects same_fs (emit e).
Proof. by intros w r w' [= <- <-]. Qed.

Ltac respects_step :=
  first
    [ apply respects_ret; apply _ | apply respects_raise; apply _
    | apply respects_diverge; apply _ | apply respects_lift; apply _
    | apply respects_now; apply _ | apply respects_file_exists; apply _
    | apply respects_path_exists; apply _ | apply evolves_create_file
    | apply evolves_create_dir | apply same_fs_emit
    | apply evolves_emit; done
    | apply respects_bind; [ apply _ | | intros ? ] ].

Ltac respects_auto := repeat (respects_step || case_match); try done.

Section PipelineFacts.
Variable E : Env.

Lemma request_evolves {A} (P : event -> Prop) ev (answer : nat -> exn + A) :
  P ev -> respects (evolves P) (request ev answer).
Proof. intros HP. unfold request. respects_auto. Qed.

Lemma request_same_fs {A} ev (answer : nat -> exn + A) :
  respects same_fs (request ev answer).
Proof. unfold request. respects_auto. Qed.

Lemma fetch_rels_evolves rels authors artists cover_ :
  respects (evolves (fun e => is_api_request e = true))
    (fetch_rels E rels authors artists cover_).
Proof.
  revert authors artists cover_.
  induction rels as [| r rels IH]; intros; simpl; [apply respects_ret; apply _ |].
  repeat case_match;
    try (apply respects_bind; [apply _ | by apply request_evolves | intros ?]);
    apply IH.
Qed.

Lemma fetch_rels_same_fs rels authors artists cover_ :
  respects same_fs (fetch_rels E rels authors artists cover_).
Proof.
  revert authors artists cover_.
  induction rels as [| r rels IH]; intros; simpl; [apply respects_ret; apply _ |].
  repeat case_match;
    try (apply respects_bind; [apply _ | by apply request_same_fs | intros ?]);
    apply IH.
Qed.

Lemma parse_language_pure l w r w' :
  parse_language E l w = (r, w') -> w' = w.
Proof.
  destruct l; simpl; unfold bind, ret, raise, lift;
    repeat case_match; intros; simplify_eq; try done.
  all: unfold ret, raise in *; by simplify_eq.
Qed.

Lemma fetch_evolves u l :
  respects (evolves (fun e => is_api_request e = true)) (fetch E u l).
Proof.
  unfold fetch.
  apply respects_bind; [apply _ | | intros lang].
  { intros w r w' H. apply parse_language_pure in H as ->. reflexivity. }
  apply respects_bind; [apply _ | apply respects_lift; apply _ | intros mid].
  apply respects_bind; [apply _ | by apply request_evolves | intros data].
  apply respects_bind; [apply _ | apply fetch_rels_evolves | intros [[au ar] co]].
  apply respects_bind; [apply _ | by apply request_evolves | intros listing].
  apply respects_bind; [apply _ | apply respects_lift; apply _ | intros ch].
  apply respects_ret; apply _.
Qed.

Lemma fetch_same_fs u l : respects same_fs (fetch E u l).
Proof.
  unfold fetch.
  apply respects_bind; [apply _ | | intros lang].
  { intros w r w' H. apply parse_language_pure in H as ->. reflexivity. }
  apply respects_bind; [apply _ | apply respects_lift; apply _ | intros mid].
  apply respects_bind; [apply _ | by apply request_same_fs | intros data].
  apply respects_bind; [apply _ | apply fetch_rels_same_fs | intros [[au ar] co]].
  apply respects_bind; [apply _ | by apply request_same_fs | intros listing].
  apply respects_bind; [apply _ | apply respects_lift; apply _ | intros ch].
  apply respects_ret; apply _.
Qed.
End PipelineFacts.

(** ** What the chapter loop may emit; errors before and during [fetch] *)

Section ChapterFacts.
Variable E : Env.

Lemma page_download_evolves u p r :
  respects (evolves (fun e => is_chapter_event e = true)) (page_download E u p r).
Proof. unfold page_download. respects_auto. Qed.

Lemma images_fetch_evolves images :
  respects (evolves (fun e => is_chapter_event e = true)) (images_fetch E images).
Proof.
  unfold images_fetch. respects_auto.
Qed.

Lemma page_loop_evolves entries cp r images :
  respects (evolves (fun e => is_chapter_event e = true))
    (page_loop E entries cp r images).
Proof.
  induction entries as [| [page u name] rest IH]; simpl; [respects_auto |].
  apply respects_bind; [apply _ | apply page_download_evolves | intros ok].
  destruct ok; simpl; [apply IH |].
  apply respects_bind; [apply _ | apply images_fetch_evolves | intros ?].
  respects_auto.
Qed.

Lemma retry_loop_evolves fuel cp r images :
  respects (evolves (fun e => is_chapter_event e = true))
    (retry_loop E fuel cp r images).
Proof.
  revert images. induction fuel as [| fuel IH]; intros; simpl; [respects_auto |].
  apply respects_bind; [apply _ | apply page_loop_evolves | intros [err images']].
  destruct err; simpl; [apply IH | respects_auto].
Qed.

Lemma mkdir_evolves p :
  respects (evolves (fun e => is_chapter_event e = true)) (mkdir p).
Proof. unfold mkdir. respects_auto. Qed.

Lemma prepare_chapter_evolves bp item :
  respects (evolves (fun e => is_chapter_event e = true)) (prepare_chapter E bp item).
Proof.
  destruct item as [[vol chap] images]. unfold prepare_chapter.
  apply respects_bind; [apply _ | apply images_fetch_evolves | intros ?].
  apply respects_bind; [apply _ | respects_auto | intros present].
  apply respects_bind; [apply _ | | intros ?]; [| respects_auto].
  destruct present; simpl; [respects_auto | apply mkdir_evolves].
Qed.

Lemma download_chapter_evolves fuel bp r item :
  respects (evolves (fun e => is_chapter_event e = true))
    (download_chapter E fuel bp r item).
Proof.
  unfold download_chapter.
  apply respects_bind; [apply _ | apply prepare_chapter_evolves | intros [cp images]].
  apply retry_loop_evolves.
Qed.

Lemma download_chapters_evolves fuel bp r items :
  respects (evolves (fun e => is_chapter_event e = true))
    (download_chapters E fuel bp r items).
Proof.
  induction items as [| item items IH]; simpl; [respects_auto |].
  apply respects_bind; [apply _ | apply download_chapter_evolves | intros ?].
  apply IH.
Qed.

(** Once the checks pass, [download] is [fetch] followed by the rest. *)
Lemma download_validated (a : Args E) fuel s t w :
  validated a s t ->
  download E a fuel w =
    bind (fetch E (url a) (language a))
         (after_fetch E a fuel (Some s) (Some t)) w.
Proof.
  intros (Hs & Ht & Hgt & Hc). unfold download at 1.
  unfold bind at 1. rewrite Hs. simpl.
  unfold bind at 1. rewrite Ht. simpl.
  unfold bind at 1. simpl. rewrite Hgt.
  by rewrite bool_decide_eq_true_2.
Qed.

(** Before [fetch], [download] can only raise, and leaves the world alone. *)
Lemma download_not_validated (a : Args E) fuel w :
  (forall s t, ~ validated a s t) ->
  exists e, download E a fuel w = (Raise e, w).
Proof.
  intros Hn. unfold download, bind.
  destruct (start_chapter a) as [| s |] eqn:Hs,
           (end_chapter a) as [| t |] eqn:Ht; simpl; eauto.
  destruct (float_gt s t) eqn:Hgt; eauto.
  destruct (bool_decide (cover a ∈ valid_cover_types E)) eqn:Hc; simpl; eauto.
  apply bool_decide_eq_true in Hc. by destruct (Hn s t).
Qed.

Lemma validated_dec (a : Args E) :
  (exists s t, validated a s t) \/ (forall s t, ~ validated a s t).
Proof.
  unfold validated.
  destruct (start_chapter a) as [| s |], (end_chapter a) as [| t |];
    try (right; intros ?? (? & ? & _); congruence).
  destruct (float_gt s t) eqn:Hgt;
    [ right; intros ?? (? & ? & ? & _); congruence |].
  destruct (decide (cover a ∈ valid_cover_types E)).
  - left. by exists s, t.
  - right. by intros ?? (? & ? & ? & ?).
Qed.

(** When [fetch] raises, [download] raises too and nothing was created;
    a call that passed the checks raises the very error of [fetch], in the
    world [fetch] left. *)
Lemma download_fetch_raises (a : Args E) fuel w e w1 :
  fetch E (url a) (language a) w = (Raise e, w1) ->
  exists e' w', download E a fuel w = (Raise e', w') /\
    files w' = files w /\ dirs w' = dirs w /\
    Forall (fun ev => is_output ev = false) (new_events w w') /\
    (forall s t, validated a s t -> e' = e /\ w' = w1).
Proof.
  intros Hf. destruct (validated_dec a) as [(s & t & Hv) | Hn].
  - exists e, w1. rewrite (download_validated a fuel s t w Hv).
    unfold bind at 1. rewrite Hf.
    destruct (fetch_same_fs E _ _ _ _ _ Hf) as [Hfs Hds].
    pose proof (fetch_evolves E _ _ _ _ _ Hf) as Hev.
    repeat split; try done.
    eapply Forall_impl; [by apply evolves_new_events in Hev |].
    by intros [] ?.
  - destruct (download_not_validated a fuel w Hn) as [e' He'].
    exists e', w. repeat split; try done.
    + unfold new_events. by rewrite drop_all.
    + by destruct (Hn s t).
    + by destruct (Hn s t).
Qed.

(** C10, as amended: a call in which [start_chapter] or [end_chapter] is
    [None] raises before anything is requested or written: the [TypeError]
    of the unconditional comparison when the other bound is [None] or a
    float, the [ValueError] of the type check when the other bound is a
    value of another type.  Hence a call returns only when both bounds are
    floats. *)
Theorem none_bound_raises (a : Args E) fuel w :
  (start_chapter a = ANone \/ end_chapter a = ANone ->
   exists e, download E a fuel w = (Raise e, w) /\
     match start_chapter a, end_chapter a with
     | AOther ty, _ => e = ValueError ("start_chapter must be float, not " +:+ ty)
     | _, AOther ty => e = ValueError ("end_chapter must be float, not " +:+ ty)
     | _, _ => exists msg, e = TypeError msg
     end) /\
  (forall m w', download E a fuel w = (Ok m, w') ->
     exists s t, start_chapter a = AFloat s /\ end_chapter a = AFloat t).
Proof.
  split.
  - intros H. unfold download, bind.
    destruct (start_chapter a) as [| s | ty], (end_chapter a) as [| t | ty'];
      simpl; try (destruct H; congruence); eauto.
  - intros m w'. unfold download, bind.
    destruct (start_chapter a) as [| s | ty], (end_chapter a) as [| t | ty'];
      simpl; try (intros; discriminate); eauto.
Qed.
End ChapterFacts.

(** ** The cover *)

Lemma respects_impl {A} (R R' : World -> World -> Prop) (m : M A) :
  (forall w w', R w w' -> R' w w') -> respects R m -> respects R' m.
Proof. intros HR Hm w r w' Hrun. apply HR. by eapply Hm. Qed.

Lemma respects_evolves_impl {A} (P Q : event -> Prop) (m : M A) :
  (forall e, P e -> Q e) -> respects (evolves P) m -> respects (evolves Q) m.
Proof. intros HPQ. apply respects_impl. intros w w'. by apply evolves_impl. Qed.

Lemma filter_none {A} (P : A -> Prop) `{!forall x, Decision (P x)} (l : list A) :
  Forall (fun x => ~ P x) l -> filter P l = [].
Proof.
  induction 1 as [| x l Hx Hl IH]; [done |].
  by rewrite filter_cons_False.
Qed.

Section Cover.
Variable E : Env.

Lemma ancestors_longer (prefix p a : list string) :
  a ∈ ancestors prefix p -> length prefix < length a.
Proof.
  revert prefix. induction p as [| x p IH]; intros prefix; simpl.
  - by intros ?%elem_of_nil.
  - intros [-> | Hin%IH]%elem_of_cons.
    + rewrite length_app. simpl. lia.
    + rewrite length_app in Hin. simpl in Hin. lia.
Qed.

Lemma create_dirs_spec target p : forall prefix w,
  exists res w',
    create_dirs target (ancestors prefix p) w = (res, w') /\
    trace w' = trace w /\ files w' = files w /\ dirs w ⊆ dirs w' /\
    ((res = Ok tt /\
      (forall a, a ∈ ancestors prefix p -> a ∈ files w -> a ∈ dirs w) /\
      (forall a, a ∈ ancestors prefix p -> a ∈ dirs w')) \/
     (exists e, res = Raise e /\
        (e = FileExistsError target \/ e = NotADirectoryError target) /\
        exists a, a ∈ ancestors prefix p /\ a ∈ files w /\ a ∉ dirs w)).
Proof.
  induction p as [| x p IH]; intros prefix w.
  - exists (Ok tt), w. simpl. repeat split; try done. left.
    repeat split; by intros a ?%elem_of_nil.
  - cbn [ancestors create_dirs]. set (q := prefix ++ [x]).
    unfold bind at 1, is_dir at 1.
    destruct (bool_decide (q ∈ dirs w)) eqn:Hdir.
    + apply bool_decide_eq_true in Hdir.
      destruct (IH q w) as (res & w' & Hrun & Ht & Hf & Hd & Hcase).
      exists res, w'. repeat split; try done.
      destruct Hcase as [(-> & Hfree & Hall) | (e & -> & He & a & Ha & Haf & Had)].
      * left. repeat split.
        -- intros a [-> | Ha]%elem_of_cons; [done | by apply Hfree].
        -- intros a [-> | Ha]%elem_of_cons; [by apply Hd | by apply Hall].
      * right. exists e. repeat split; try done.
        exists a. split; [apply elem_of_cons; by right | done].
    + apply bool_decide_eq_false in Hdir.
      unfold bind at 1, file_exists at 1.
      destruct (bool_decide (q ∈ files w)) eqn:Hfile.
      * apply bool_decide_eq_true in Hfile.
        exists (Raise (match ancestors q p with
                       | [] => FileExistsError target
                       | _ :: _ => NotADirectoryError target
                       end)), w.
        split; [by destruct (ancestors q p) |].
        repeat split; try done. right. eexists. split; [done |].
        split; [destruct (ancestors q p); auto |].
        exists q. split; [apply elem_of_cons; by left | done].
      * apply bool_decide_eq_false in Hfile.
        unfold bind at 1, create_dir at 1.
        destruct (IH q (mkWorld (files w) ({[q]} ∪ dirs w) (trace w)))
          as (res & w' & Hrun & Ht & Hf & Hd & Hcase).
        simpl in Ht, Hf, Hd, Hcase.
        exists res, w'. split; [done |]. split; [done |]. split; [done |].
        split; [etrans; [apply union_subseteq_r | exact Hd] |].
        destruct Hcase as [(-> & Hfree & Hall) | (e & -> & He & a & Ha & Haf & Had)].
        -- left. repeat split.
           ++ intros a [-> | Ha]%elem_of_cons; [done |]. intros Haf.
              apply Hfree in Haf; [| done].
              apply elem_of_union in Haf as [Haq%elem_of_singleton | Haf];
                [| done].
              apply ancestors_longer in Ha. subst a. lia.
           ++ intros a [-> | Ha]%elem_of_cons; [| by apply Hall].
              by apply Hd, elem_of_union_l, elem_of_singleton.
        -- right. exists e. repeat split; try done.
           exists a. split; [apply elem_of_cons; by right |].
           split; [done |]. intros Hin. apply Had. by apply elem_of_union_r.
Qed.

(** [mkdir(parents=True, exist_ok=True)] returns with the path and its
    parents in place when no regular file is in the way, and raises
    otherwise; either way no file is touched. *)
Lemma mkdir_parents_spec p w :
  exists res w',
    mkdir_parents p w = (res, w') /\
    trace w' = trace w ++ [EvMkdir p] /\ files w' = files w /\
    dirs w ⊆ dirs w' /\
    ((res = Ok tt /\ ~ blocked p w /\
      forall a, a ∈ ancestors [] p -> a ∈ dirs w') \/
     (exists e, res = Raise e /\
        (e = FileExistsError p \/ e = NotADirectoryError p) /\
        blocked p w)).
Proof.
  unfold mkdir_parents, bind, emit.
  destruct (create_dirs_spec p p []
              (mkWorld (files w) (dirs w) (trace w ++ [EvMkdir p])))
    as (res & w' & -> & Ht & Hf & Hd & Hcase).
  simpl in Ht, Hf, Hd, Hcase. exists res, w'. repeat split; try done.
  destruct Hcase as [(-> & Hfree & Hall) | (e & -> & He & Hblocked)].
  - left. repeat split; [| done]. intros (a & Ha & Haf & Had). auto.
  - right. by exists e.
Qed.

Lemma mkdir_parents_ok p w :
  ~ blocked p w ->
  exists w', mkdir_parents p w = (Ok tt, w') /\
             trace w' = trace w ++ [EvMkdir p] /\ files w' = files w /\
             dirs w ⊆ dirs w' /\
             forall a, a ∈ ancestors [] p -> a ∈ dirs w'.
Proof.
  intros Hfree.
  destruct (mkdir_parents_spec p w)
    as (res & w' & Hrun & Ht & Hf & Hd & [(-> & _ & Hall) | (e & _ & _ & Hb)]);
    [by exists w' | done].
Qed.

Lemma mkdir_parents_blocked p w :
  blocked p w ->
  exists e w', mkdir_parents p w = (Raise e, w') /\
               (e = FileExistsError p \/ e = NotADirectoryError p) /\
               trace w' = trace w ++ [EvMkdir p] /\ files w' = files w /\
               dirs w ⊆ dirs w'.
Proof.
  intros Hb.
  destruct (mkdir_parents_spec p w)
    as (res & w' & Hrun & Ht & Hf & Hd & [(_ & Hfree & _) | (e & -> & He & _)]);
    [done | by exists e, w'].
Qed.

Lemma mkdir_parents_returned p w w' :
  mkdir_parents p w = (Ok tt, w') ->
  ~ blocked p w /\
  trace w' = trace w ++ [EvMkdir p] /\ files w' = files w /\
  dirs w ⊆ dirs w' /\
  forall a, a ∈ ancestors [] p -> a ∈ dirs w'.
Proof.
  intros Hrun.
  destruct (mkdir_parents_spec p w)
    as (res & w2 & Hrun2 & Ht & Hf & Hd & Hcase).
  rewrite Hrun in Hrun2. injection Hrun2 as <- <-.
  destruct Hcase as [(_ & Hfree & Hall) | (e & [=] & _)]. done.
Qed.

Lemma blocked_same_fs p w w' :
  files w' = files w -> dirs w' = dirs w -> blocked p w' <-> blocked p w.
Proof. intros Hf Hd. unfold blocked. by rewrite Hf, Hd. Qed.

Lemma not_blocked_dirs p w :
  (forall a, a ∈ ancestors [] p -> a ∈ dirs w) -> ~ blocked p w.
Proof. intros Hall (a & Ha & _ & Had). by apply Had, Hall. Qed.

Lemma download_file_spec u p r w :
  exists o w', download_file E u p r w = (Ok tt, w') /\
    trace w' = trace w ++ [EvDownloadFile u p r o] /\
    files w ⊆ files w' /\
    (o = Skipped <-> p ∈ files w /\ r = false).
Proof.
  unfold download_file, bind, file_exists, now, emit, create_file.
  destruct (bool_decide (p ∈ files w)) eqn:Hp; simpl.
  - apply bool_decide_eq_true in Hp. destruct r; simpl.
    + destruct (transfer_ok E (length (trace w)) u); simpl.
      * exists Transferred. eexists. repeat split; simpl; try done;
          [set_solver | intros []; done].
      * exists Failed. eexists. repeat split; simpl; try done.
        intros []; done.
    + exists Skipped. eexists. repeat split; simpl; done.
  - apply bool_decide_eq_false in Hp.
    destruct (transfer_ok E (length (trace w)) u); simpl.
    * exists Transferred. eexists. repeat split; simpl; try done;
        [set_solver | intros []; done].
    * exists Failed. eexists. repeat split; simpl; try done.
      intros []; done.
Qed.

Lemma download_file_dirs u p r w res w' :
  download_file E u p r w = (res, w') -> dirs w' = dirs w.
Proof.
  unfold download_file, bind, file_exists, now, emit, create_file.
  destruct (bool_decide (p ∈ files w) && negb r); simpl;
    [by intros [= <- <-] |].
  destruct (transfer_ok E (length (trace w)) u); simpl; by intros [= <- <-].
Qed.



(** A regular file in the way of the base folder: [mkdir] raises, and
    [download] with it, right after [fetch]. *)
Lemma download_blocked (a : Args E) fuel w s t manga w1 :
  validated a s t ->
  fetch E (url a) (language a) w = (Ok manga, w1) ->
  blocked (base_path_of (folder a) manga) w ->
  exists e w',
    download E a fuel w = (Raise e, w') /\
    (e = FileExistsError (base_path_of (folder a) manga) \/
     e = NotADirectoryError (base_path_of (folder a) manga)) /\
    new_events w w' =
      new_events w w1 ++ [EvMkdir (base_path_of (folder a) manga)] /\
    files w' = files w.
Proof.
  intros Hv Hf Hb.
  rewrite (download_validated E a fuel s t w Hv).
  unfold bind at 1. rewrite Hf. unfold after_fetch. cbv zeta.
  set (bp := base_path_of (folder a) manga) in *.
  pose proof (fetch_evolves E _ _ _ _ _ Hf) as Hev.
  destruct (fetch_same_fs E _ _ _ _ _ Hf) as [Hfs Hds].
  destruct (mkdir_parents_blocked bp w1) as (e & w2 & Hm & He & Ht & Hfiles & _).
  { by rewrite (blocked_same_fs bp w w1 Hfs Hds). }
  unfold bind at 1. rewrite Hm.
  exists e, w2. split; [done |]. split; [done |].
  split; [| by rewrite Hfiles].
  destruct Hev as (_ & _ & t1 & Ht1 & _).
  rewrite (new_events_app w w1 t1 Ht1).
  apply new_events_app. by rewrite Ht, Ht1, <- app_assoc.
Qed.

End Cover.

(** ** Passes over a chapter *)

Section Passes.
Variable E : Env.

Lemma page_download_spec u p r w :
  exists o w',
    page_download E u p r w
      = (Ok (match o with Failed => false | _ => true end), w') /\
    trace w' = trace w ++ [EvPageDownload u p r o] /\
    dirs w' = dirs w /\
    files w' = match o with Transferred => {[p]} ∪ files w | _ => files w end /\
    (o = Skipped <-> p ∈ files w /\ r = false) /\
    (o = Failed -> transfer_ok E (length (trace w)) u = false) /\
    (o = Transferred -> transfer_ok E (length (trace w)) u = true).
Proof.
  unfold page_download, bind, file_exists, now, emit, create_file, ret.
  destruct (bool_decide (p ∈ files w)) eqn:Hp, r; simpl;
    try (apply bool_decide_eq_true in Hp);
    try (apply bool_decide_eq_false in Hp);
    try (exists Skipped; eexists; repeat split; simpl; done);
    destruct (transfer_ok E (length (trace w)) u) eqn:Ht; simpl;
    [ exists Transferred | exists Failed
    | exists Transferred | exists Failed
    | exists Transferred | exists Failed ];
    eexists; repeat split; simpl; try done; intros []; done.
Qed.

Lemma images_fetch_spec images w :
  images_fetch E images w =
    (match images_endpoint E (length (trace w))
             (ci_id images) (ci_data_saver images) with
     | inl e => Raise e
     | inr pages => Ok (mkImages (ci_id images) (ci_data_saver images) pages)
     end,
     mkWorld (files w) (dirs w) (trace w ++ [EvImagesFetch (ci_id images)])).
Proof.
  unfold images_fetch, request, bind, now, emit, lift; simpl.
  by destruct (images_endpoint E _ _ _).
Qed.

(** A pass either walks the whole sequence, or stops at the first failed
    page, after the refetch. *)
Lemma page_loop_spec entries cp r images w res w' :
  page_loop E entries cp r images w = (res, w') ->
  (res = Ok (false, images) /\
   exists t, trace w' = trace w ++ t /\ downloaded cp r entries t) \/
  (exists before en after t_before,
     entries = before ++ en :: after /\
     downloaded cp r before t_before /\
     trace w' = trace w ++ t_before
                ++ [EvPageDownload (pe_url en) (cp // pe_name en) r Failed;
                    EvImagesFetch (ci_id images)] /\
     res = match images_endpoint E (length (trace w) + length t_before + 1)
                   (ci_id images) (ci_data_saver images) with
           | inl e => Raise e
           | inr pages =>
               Ok (true, mkImages (ci_id images) (ci_data_saver images) pages)
           end).
Proof.
  revert w. induction entries as [| [page u name] rest IH]; intros w; simpl.
  - intros [= <- <-]. left. split; [done |]. exists [].
    split; [by rewrite app_nil_r | constructor].
  - destruct (page_download_spec u (cp // name) r w)
      as (o & w1 & Hrun & Ht & Hd & Hf & Ho & Hfail & Hsucc).
    unfold bind at 1. rewrite Hrun.
    destruct o; simpl.
    + (* skipped *)
      intros Hrest. apply IH in Hrest as
        [[-> (t & Ht' & Hdl)] | (before & en & after & tb & -> & Hdl & Ht' & ->)].
      * left. split; [done |]. exists (EvPageDownload u (cp // name) r Skipped :: t).
        split; [by rewrite Ht', Ht, <- app_assoc |].
        constructor; [by exists Skipped | done].
      * right. exists (PageEntry page u name :: before), en, after,
          (EvPageDownload u (cp // name) r Skipped :: tb).
        split; [done |]. split; [constructor; [by exists Skipped | done] |].
        split; [by rewrite Ht', Ht, <- app_assoc |].
        rewrite Ht, length_app. simpl.
        by replace (length (trace w) + 1 + length tb + 1)
          with (length (trace w) + S (length tb) + 1) by lia.
    + (* transferred *)
      intros Hrest. apply IH in Hrest as
        [[-> (t & Ht' & Hdl)] | (before & en & after & tb & -> & Hdl & Ht' & ->)].
      * left. split; [done |]. exists (EvPageDownload u (cp // name) r Transferred :: t).
        split; [by rewrite Ht', Ht, <- app_assoc |].
        constructor; [by exists Transferred | done].
      * right. exists (PageEntry page u name :: before), en, after,
          (EvPageDownload u (cp // name) r Transferred :: tb).
        split; [done |]. split; [constructor; [by exists Transferred | done] |].
        split; [by rewrite Ht', Ht, <- app_assoc |].
        rewrite Ht, length_app. simpl.
        by replace (length (trace w) + 1 + length tb + 1)
          with (length (trace w) + S (length tb) + 1) by lia.
    + (* failed *)
      unfold bind. rewrite images_fetch_spec.
      intros Hres. right. exists [], (PageEntry page u name), rest, [].
      split; [done |]. split; [constructor |]. simpl.
      rewrite Ht, length_app in Hres. simpl in Hres.
      replace (length (trace w) + 0 + 1) with (length (trace w) + 1) by lia.
      destruct (images_endpoint E _ _ _); simpl in Hres;
        injection Hres as <- <-; simpl; by rewrite <- ?app_assoc.
Qed.

Lemma downloaded_length cp r entries t :
  downloaded cp r entries t -> length t = length entries.
Proof. intros H. symmetry. by eapply Forall2_length. Qed.

Lemma retry_loop_run fuel cp r images w res w' :
  retry_loop E fuel cp r images w = (res, w') ->
  chapter_run E cp r (length (trace w)) images res (new_events w w').
Proof.
  revert images w. induction fuel as [| fuel IH]; intros images w; simpl.
  { intros [= <- <-]. unfold new_events. rewrite drop_all. apply run_unfinished. }
  unfold bind at 1.
  destruct (page_loop E (images_iter images) cp r images w) as [res1 w1] eqn:Hpass.
  apply page_loop_spec in Hpass as
    [[-> (t & Ht & Hdl)] | (before & en & after & tb & Hen & Hdl & Ht & ->)].
  - simpl. intros [= <- <-]. rewrite (new_events_app _ _ _ Ht). by apply run_clean.
  - destruct (images_endpoint E _ _ _) as [e | pages] eqn:Hend.
    + intros [= <- <-]. rewrite (new_events_app _ _ _ Ht).
      by eapply run_refetch_raises.
    + simpl. intros Hrest.
      pose proof (retry_loop_evolves E _ _ _ _ _ _ _ Hrest) as Hev.
      apply IH in Hrest.
      apply evolves_trace in Hev.
      rewrite (new_events_app w w'
                 (tb ++ [EvPageDownload (pe_url en) (cp // pe_name en) r Failed;
                         EvImagesFetch (ci_id images)] ++ new_events w1 w')).
      2:{ rewrite Hev, Ht. by rewrite <- !app_assoc. }
      eapply run_retry; [done | done | done |].
      rewrite Ht in Hrest. rewrite !length_app in Hrest. simpl in Hrest.
      by replace (length (trace w) + length tb + 2)
        with (length (trace w) + (length tb + 2)) by lia.
Qed.

Lemma count_app f t1 t2 : count f (t1 ++ t2) = count f t1 + count f t2.
Proof. unfold count. by rewrite filter_app, length_app. Qed.

Lemma retry_loop_broken fuel cp r images w0 w :
  files w = files w0 ->
  broken_upstream E cp images w0 ->
  exists w', retry_loop E fuel cp r images w = (Diverge, w') /\
    files w' = files w0 /\
    exists t, trace w' = trace w ++ t /\
      count is_images_fetch t = fuel /\ count is_page_failure t = fuel.
Proof.
  revert images w. induction fuel as [| fuel IH];
    intros images w Hfs (Hnet & Hend & en & rest & Himg & Hnew); simpl.
  - exists w. split; [done |]. split; [done |]. exists [].
    by rewrite app_nil_r.
  - unfold images_iter. rewrite Himg. destruct en as [page u name]. simpl.
    destruct (page_download_spec u (cp // name) r w)
      as (o & w1 & Hrun & Ht & Hd & Hf & Ho & Hfail & Hsucc).
    destruct o.
    + destruct Ho as [Ho _]. destruct (Ho eq_refl) as [Hin _].
      rewrite Hfs in Hin. simpl in Hnew. done.
    + rewrite Hnet in Hsucc. by specialize (Hsucc eq_refl).
    + unfold bind at 1. unfold bind at 1. rewrite Hrun. simpl.
      unfold bind at 1. rewrite images_fetch_spec.
      destruct (Hend (length (trace w1))) as (en' & rest' & Hans & Hnew').
      rewrite Hans. simpl.
      set (w2 := mkWorld (files w1) (dirs w1) (trace w1 ++ [EvImagesFetch (ci_id images)])).
      destruct (IH (mkImages (ci_id images) (ci_data_saver images) (en' :: rest')) w2)
        as (w' & Hloop & Hfs' & t & Ht' & Hc1 & Hc2).
      { simpl. by rewrite Hf. }
      { split; [done |]. split; [done |]. by exists en', rest'. }
      exists w'. split; [done |]. split; [done |].
      exists ([EvPageDownload u (cp // name) r Failed;
               EvImagesFetch (ci_id images)] ++ t).
      split; [rewrite Ht'; simpl; rewrite Ht; by rewrite <- !app_assoc |].
      rewrite !count_app, Hc1, Hc2. done.
Qed.
End Passes.

(** ** Counting fetches and transfers *)

Lemma count_nil f : count f [] = 0.
Proof. done. Qed.

Lemma count_cons f e t :
  count f (e :: t) = (if f e then 1 else 0) + count f t.
Proof.
  unfold count. destruct (f e) eqn:He.
  - by rewrite filter_cons_True.
  - rewrite filter_cons_False; [done |]. by rewrite He.
Qed.

Lemma count_zero f t : Forall (fun e => f e = false) t -> count f t = 0.
Proof.
  induction 1 as [| e t He Ht IH]; [done |]. by rewrite count_cons, He, IH.
Qed.

Global Instance transfers_fresh_preorder : PreOrder transfers_fresh.
Proof.
  split.
  - intros w. split; [done |]. exists []. split; [by rewrite app_nil_r |].
    intros p. rewrite count_nil. repeat split; intros; first [done | lia].
  - intros w1 w2 w3 (Hf1 & t1 & Ht1 & H1) (Hf2 & t2 & Ht2 & H2).
    split; [by etrans |]. exists (t1 ++ t2).
    split; [by rewrite Ht2, Ht1, app_assoc |].
    intros p. rewrite count_app.
    destruct (H1 p) as (Hle1 & Hin1 & Hone1), (H2 p) as (Hle2 & Hin2 & Hone2).
    assert (count (transfers_to p) t1 = 1 -> count (transfers_to p) t2 = 0)
      by (intros ?; auto).
    repeat split.
    + lia.
    + intros Hp. rewrite (Hin1 Hp), Hin2; [done | by apply Hf1].
    + intros Hc.
      destruct (decide (count (transfers_to p) t1 = 1)) as [Hc1 | Hc1].
      * specialize (Hone1 Hc1). by apply Hf2.
      * apply Hone2. lia.
Qed.

Lemma fresh_emit e :
  (forall p, transfers_to p e = false) -> respects transfers_fresh (emit e).
Proof.
  intros He w r w' [= <- <-]. split; [done |]. exists [e]. split; [done |].
  intros p. rewrite count_cons, He, count_nil. repeat split; intros; first [done | lia].
Qed.

Lemma fresh_create_dir p : respects transfers_fresh (create_dir p).
Proof.
  intros w r w' [= <- <-]. split; [done |]. exists [].
  split; [by rewrite app_nil_r |]. intros q. rewrite count_nil.
  repeat split; intros; first [done | lia].
Qed.

Ltac fresh_step :=
  first
    [ apply respects_ret; apply _ | apply respects_raise; apply _
    | apply respects_diverge; apply _ | apply respects_lift; apply _
    | apply respects_now; apply _ | apply respects_file_exists; apply _
    | apply respects_path_exists; apply _ | apply fresh_create_dir
    | apply fresh_emit; done
    | apply respects_bind; [ apply _ | | intros ? ] ].

Ltac fresh_auto := repeat (fresh_step || case_match); try done.

Section Convergence.
Variable E : Env.

Lemma page_download_fresh u p :
  respects transfers_fresh (page_download E u p false).
Proof.
  intros w r w' Hrun.
  destruct (page_download_spec E u p false w)
    as (o & w1 & Hrun' & Ht & Hd & Hf & Ho & _ & _).
  rewrite Hrun' in Hrun. injection Hrun as _ <-.
  split; [rewrite Hf; destruct o; try done; apply union_subseteq_r |].
  exists [EvPageDownload u p false o]. split; [done |].
  intros q. rewrite count_cons, count_nil.
  destruct o; simpl; try (repeat split; intros; first [done | lia]).
  assert (p ∉ files w) as Hnew.
  { intros Hin. destruct Ho as [_ Ho]. by specialize (Ho (conj Hin eq_refl)). }
  case_bool_decide as Hq; subst; repeat split; try lia; try done.
  intros _. rewrite Hf. by apply elem_of_union_l, elem_of_singleton.
Qed.

Lemma images_fetch_fresh images :
  respects transfers_fresh (images_fetch E images).
Proof. unfold images_fetch. fresh_auto. Qed.

Lemma page_loop_fresh entries cp images :
  respects transfers_fresh (page_loop E entries cp false images).
Proof.
  induction entries as [| [page u name] rest IH]; simpl; [fresh_auto |].
  apply respects_bind; [apply _ | apply page_download_fresh | intros ok].
  destruct ok; simpl; [apply IH |].
  apply respects_bind; [apply _ | apply images_fetch_fresh | intros ?].
  fresh_auto.
Qed.

Lemma retry_loop_fresh fuel cp images :
  respects transfers_fresh (retry_loop E fuel cp false images).
Proof.
  revert images. induction fuel as [| fuel IH]; intros; simpl; [fresh_auto |].
  apply respects_bind; [apply _ | apply page_loop_fresh | intros [err images']].
  destruct err; simpl; [apply IH | fresh_auto].
Qed.

Lemma prepare_chapter_fresh bp item :
  respects transfers_fresh (prepare_chapter E bp item).
Proof.
  destruct item as [[vol chap] images]. unfold prepare_chapter.
  apply respects_bind; [apply _ | apply images_fetch_fresh | intros ?].
  apply respects_bind; [apply _ | fresh_auto | intros present].
  apply respects_bind; [apply _ | | intros ?]; [| fresh_auto].
  destruct present; simpl; [fresh_auto | unfold mkdir; fresh_auto].
Qed.

Lemma download_chapter_fresh fuel bp item :
  respects transfers_fresh (download_chapter E fuel bp false item).
Proof.
  unfold download_chapter.
  apply respects_bind; [apply _ | apply prepare_chapter_fresh | intros [cp images]].
  apply retry_loop_fresh.
Qed.

Lemma downloaded_counts cp r entries t :
  downloaded cp r entries t ->
  count is_images_fetch t = 0 /\ count is_page_failure t = 0.
Proof.
  induction 1 as [| en ev entries t (o & Ho & ->) _ [IH1 IH2]]; [done |].
  rewrite !count_cons, IH1, IH2. by destruct o.
Qed.

Lemma failed_passes_run n cp r images w :
  failed_passes E n cp r images w ->
  exists w',
    (forall fuel, n < fuel -> retry_loop E fuel cp r images w = (Ok tt, w')) /\
    exists t, trace w' = trace w ++ t /\
      count is_images_fetch t = n /\ count is_page_failure t = n.
Proof.
  revert images w. induction n as [| n IH]; intros images w; simpl.
  - intros (w' & Hpass). exists w'. split.
    + intros [| fuel] Hlt; [lia |]. simpl. unfold bind. by rewrite Hpass.
    + apply page_loop_spec in Hpass as
        [[_ (t & Ht & Hdl)] | (before & en & after & tb & _ & _ & _ & Hres)].
      * exists t. split; [done |]. by eapply downloaded_counts.
      * by destruct (images_endpoint E _ _ _).
  - intros (images' & w1 & Hpass & Hrest).
    destruct (IH _ _ Hrest) as (w' & Hloop & t & Ht & Hc1 & Hc2).
    exists w'. split.
    + intros [| fuel] Hlt; [lia |]. simpl. unfold bind. rewrite Hpass. simpl.
      apply Hloop. lia.
    + apply page_loop_spec in Hpass as
        [[[=] _] | (before & en & after & tb & _ & Hdl & Ht1 & Hres)].
      destruct (downloaded_counts _ _ _ _ Hdl) as [Hd1 Hd2].
      exists (tb ++ [EvPageDownload (pe_url en) (cp // pe_name en) r Failed;
                     EvImagesFetch (ci_id images)] ++ t).
      split; [rewrite Ht, Ht1; by rewrite <- !app_assoc |].
      rewrite !count_app, Hd1, Hd2, Hc1, Hc2. done.
Qed.

Lemma prepare_chapter_spec bp vol chap images w cp images1 w1 :
  prepare_chapter E bp (vol, chap, images) w = (Ok (cp, images1), w1) ->
  cp = bp // chapter_folder vol chap /\
  files w1 = files w /\
  (exists pages,
     images_endpoint E (length (trace w))
       (ci_id images) (ci_data_saver images) = inr pages /\
     images1 = mkImages (ci_id images) (ci_data_saver images) pages) /\
  exists t, trace w1 = trace w ++ EvImagesFetch (ci_id images) :: t /\
            (t = [] \/ t = [EvMkdir cp]).
Proof.
  unfold prepare_chapter. unfold bind at 1. rewrite images_fetch_spec.
  destruct (images_endpoint E _ _ _) as [e | pages]; [by intros [=] |].
  unfold bind, path_exists, mkdir, emit, create_dir, ret. simpl.
  destruct (_ || _); simpl; intros [= <- <- <-]; simpl;
    (split; [done |]); (split; [done |]);
    (split; [by exists pages |]).
  - exists []. split; [| by left]. done.
  - eexists. split; [| by right]. by rewrite <- app_assoc.
Qed.

Lemma prepare_chapter_cases bp vol chap images w res w1 :
  prepare_chapter E bp (vol, chap, images) w = (res, w1) ->
  files w1 = files w /\
  exists t,
    trace w1 = trace w ++ EvImagesFetch (ci_id images) :: t /\
    match images_endpoint E (length (trace w))
            (ci_id images) (ci_data_saver images) with
    | inl e => res = Raise e /\ t = [] /\ dirs w1 = dirs w
    | inr pages =>
        res = Ok (bp // chapter_folder vol chap,
                  mkImages (ci_id images) (ci_data_saver images) pages) /\
        if bool_decide (bp // chapter_folder vol chap ∈ files w)
           || bool_decide (bp // chapter_folder vol chap ∈ dirs w)
        then t = [] /\ dirs w1 = dirs w
        else t = [EvMkdir (bp // chapter_folder vol chap)] /\
             dirs w1 = {[bp // chapter_folder vol chap]} ∪ dirs w
    end.
Proof.
  unfold prepare_chapter. unfold bind at 1. rewrite images_fetch_spec.
  destruct (images_endpoint E _ _ _) as [e | pages].
  - intros [= <- <-]. split; [done |]. by exists [].
  - unfold bind, path_exists, mkdir, emit, create_dir, ret. simpl.
    destruct (_ || _); simpl; intros [= <- <-]; simpl; (split; [done |]).
    + by exists [].
    + eexists. split; [by rewrite <- app_assoc | done].
Qed.

(** C4, as amended: a chapter whose first [n] passes fail and whose next
    pass goes through is completed with any allowance of more than [n]
    passes, after exactly [n + 1] calls of [images.fetch()] (the one before
    the page loop and one per failed pass) and [n] failed page downloads.
    With [replace=False] no file that existed is transferred and no file is
    transferred twice. *)
Theorem retry_converges (n : nat) (bp : Path) (r : bool)
    (item : label * string * ChapterImages) (w : World) :
  converges_after E n bp r item w ->
  exists w',
    (forall fuel, n < fuel ->
       download_chapter E fuel bp r item w = (Ok tt, w')) /\
    count is_images_fetch (new_events w w') = n + 1 /\
    count is_page_failure (new_events w w') = n /\
    (r = false ->
     forall p, count (transfers_to p) (new_events w w') <= 1 /\
               (p ∈ files w -> count (transfers_to p) (new_events w w') = 0)).
Proof.
  intros (cp & images & w1 & Hprep & Hpasses).
  destruct (failed_passes_run _ _ _ _ _ Hpasses)
    as (w' & Hloop & t & Ht & Hc1 & Hc2).
  exists w'.
  assert (forall fuel, n < fuel ->
            download_chapter E fuel bp r item w = (Ok tt, w')) as Hrun.
  { intros fuel Hlt. unfold download_chapter, bind. rewrite Hprep.
    by apply Hloop. }
  split; [done |].
  destruct item as [[vol chap] images0].
  apply prepare_chapter_spec in Hprep as (_ & _ & _ & t0 & Ht0 & Hmk).
  rewrite (new_events_app w w' (EvImagesFetch (ci_id images0) :: t0 ++ t)).
  2:{ rewrite Ht, Ht0. by rewrite <- app_assoc. }
  rewrite !count_cons, !count_app, Hc1, Hc2. simpl.
  split; [destruct Hmk as [-> | ->]; simpl; rewrite ?count_cons, ?count_nil; simpl; lia |].
  split; [destruct Hmk as [-> | ->]; simpl; rewrite ?count_cons, ?count_nil; simpl; lia |].
  intros -> p.
  specialize (Hrun (S n) ltac:(lia)).
  apply download_chapter_fresh in Hrun as (_ & t' & Ht' & Hfresh).
  assert (t' = EvImagesFetch (ci_id images0) :: t0 ++ t) as ->.
  { rewrite Ht, Ht0, <- app_assoc in Ht'. simpl in Ht'. by simplify_list_eq. }
  destruct (Hfresh p) as (Hle & Hin & _). done.
Qed.
End Convergence.

(** ** What a finished run leaves on disk, and a run over it *)

Lemma independent_ret {A} (a : A) : world_independent (ret a).
Proof. by intros w w'. Qed.

Lemma independent_raise {A} e : world_independent (@raise A e).
Proof. by intros w w'. Qed.

Lemma independent_lift {A} (x : exn + A) : world_independent (lift x).
Proof. destruct x; [apply independent_raise | apply independent_ret]. Qed.

Lemma independent_bind {A B} (m : M A) (k : A -> M B) :
  world_independent m -> (forall a, world_independent (k a)) -> world_independent (bind m k).
Proof.
  intros Hm Hk w w'. unfold bind. specialize (Hm w w').
  destruct (m w) as [[a | e |] w1], (m w') as [[a' | e' |] w1'];
    simpl in Hm; simplify_eq; try done.
  apply Hk.
Qed.

Lemma independent_request {A} ev (x : exn + A) :
  world_independent (request ev (fun _ => x)).
Proof. intros w w'. unfold request, bind, now, emit, lift. by destruct x. Qed.

Section SecondRun.
Variable E : Env.

Lemma fetch_rels_independent rels authors artists cover_ :
  world_independent (fetch_rels E rels authors artists cover_).
Proof.
  revert authors artists cover_.
  induction rels as [| r rels IH]; intros; simpl; [apply independent_ret |].
  repeat case_match;
    try (apply independent_bind; [apply independent_request | intros ?]);
    apply IH.
Qed.

Lemma fetch_independent u l : world_independent (fetch E u l).
Proof.
  unfold fetch.
  apply independent_bind; [| intros lang].
  { destruct l; simpl; [apply independent_ret | | apply independent_raise].
    apply independent_bind; [apply independent_lift | intros ?].
    apply independent_ret. }
  apply independent_bind; [apply independent_lift | intros mid].
  apply independent_bind; [apply independent_request | intros data].
  apply independent_bind; [apply fetch_rels_independent | intros [[au ar] co]].
  apply independent_bind; [apply independent_request | intros listing].
  apply independent_bind; [apply independent_lift | intros ch].
  apply independent_ret.
Qed.

(** *** What a finished chapter leaves on disk *)

Lemma page_loop_clean_files entries cp r images w images' w' :
  page_loop E entries cp r images w = (Ok (false, images'), w') ->
  forall en, en ∈ entries -> cp // pe_name en ∈ files w'.
Proof.
  revert w. induction entries as [| [page u name] rest IH]; intros w; simpl.
  - intros _ en Hen. by apply elem_of_nil in Hen.
  - destruct (page_download_spec E u (cp // name) r w)
      as (o & w1 & Hrun & Ht & Hd & Hf & Ho & _ & _).
    unfold bind at 1. rewrite Hrun.
    destruct o; simpl.
    + intros Hrest en Hen. apply elem_of_cons in Hen as [-> | Hen];
        [| by eapply IH].
      apply (page_loop_evolves E _ _ _ _ _ _ _ Hrest). rewrite Hf.
      by destruct Ho as [Ho _]; destruct (Ho eq_refl).
    + intros Hrest en Hen. apply elem_of_cons in Hen as [-> | Hen];
        [| by eapply IH].
      apply (page_loop_evolves E _ _ _ _ _ _ _ Hrest). rewrite Hf.
      by apply elem_of_union_l, elem_of_singleton.
    + unfold bind. rewrite images_fetch_spec.
      destruct (images_endpoint E _ _ _); by intros [=].
Qed.

Lemma retry_loop_ok_files fuel cp r images w w' :
  retry_loop E fuel cp r images w = (Ok tt, w') ->
  (exists t, images_endpoint E t (ci_id images) (ci_data_saver images)
             = inr (ci_images images)) ->
  exists t l,
    images_endpoint E t (ci_id images) (ci_data_saver images) = inr l /\
    forall en, en ∈ l -> cp // pe_name en ∈ files w'.
Proof.
  revert images w. induction fuel as [| fuel IH]; intros images w; simpl;
    [by intros [=] |].
  unfold bind at 1.
  destruct (page_loop E (images_iter images) cp r images w)
    as [[[[] images'] | e |] w1] eqn:Hpass; simpl; try by intros [=].
  - intros Hrest _.
    apply page_loop_spec in Hpass as
      [[[=] _] | (before & en & after & tb & _ & _ & _ & Hres)].
    destruct (images_endpoint E _ _ _) as [e | pages] eqn:Hend; [done |].
    injection Hres as ->.
    destruct (IH _ _ Hrest) as (t & l & Hl & Hfiles); [by eexists |].
    by exists t, l.
  - intros [= <-] [t Hfrom]. exists t, (ci_images images). split; [done |].
    by eapply page_loop_clean_files.
Qed.

Lemma pages_present_mono bp item w w' :
  files w ⊆ files w' -> pages_present E bp item w -> pages_present E bp item w'.
Proof.
  destruct item as [[vol chap] images]. intros Hsub Hp t l en Hl Hen.
  apply Hsub. by eapply Hp.
Qed.

Lemma download_chapter_present fuel bp r item w w' :
  stable_names E ->
  download_chapter E fuel bp r item w = (Ok tt, w') ->
  pages_present E bp item w'.
Proof.
  intros Hstable. destruct item as [[vol chap] images].
  unfold download_chapter. unfold bind at 1.
  destruct (prepare_chapter E bp (vol, chap, images) w)
    as [[[cp images1] | e |] w1] eqn:Hprep; try by intros [=].
  apply prepare_chapter_spec in Hprep as (-> & _ & (pages & Hend & ->) & _).
  intros Hloop.
  apply retry_loop_ok_files in Hloop as (t & l & Hl & Hfiles);
    [| by eexists].
  simpl in Hl. intros t' l' en' Hl' Hen'.
  pose proof (Hstable _ _ _ _ _ _ Hl Hl') as Hnames.
  assert (pe_name en' ∈ map pe_name l) as Hin.
  { rewrite Hnames. by apply list_elem_of_fmap_2. }
  apply list_elem_of_fmap in Hin as (en & -> & Hen).
  by apply Hfiles.
Qed.

Lemma download_chapters_present fuel bp r items w w' :
  stable_names E ->
  download_chapters E fuel bp r items w = (Ok tt, w') ->
  forall item, item ∈ items -> pages_present E bp item w'.
Proof.
  intros Hstable. revert w.
  induction items as [| item items IH]; intros w; simpl.
  - intros _ item Hin. by apply elem_of_nil in Hin.
  - unfold bind at 1.
    destruct (download_chapter E fuel bp r item w)
      as [[[] | e |] w1] eqn:Hone; try by intros [=].
    intros Hrest item' Hin. apply elem_of_cons in Hin as [-> | Hin].
    + apply (pages_present_mono bp item w1 w');
        [apply (download_chapters_evolves E _ _ _ _ _ _ _ Hrest) |].
      by eapply download_chapter_present.
    + by eapply IH.
Qed.

(** *** A pass over files that are all there *)

Lemma page_loop_present entries cp images w :
  (forall en, en ∈ entries -> cp // pe_name en ∈ files w) ->
  exists w',
    page_loop E entries cp false images w = (Ok (false, images), w') /\
    files w' = files w /\ dirs w' = dirs w /\
    exists t, trace w' = trace w ++ t /\
              Forall (fun e => is_recheck e = true) t.
Proof.
  revert w. induction entries as [| [page u name] rest IH]; intros w Hall; simpl.
  - exists w. repeat split; try done. exists []. by rewrite app_nil_r.
  - destruct (page_download_spec E u (cp // name) false w)
      as (o & w1 & Hrun & Ht & Hd & Hf & Ho & _ & _).
    assert (o = Skipped) as ->.
    { apply Ho. split; [| done]. apply (Hall (PageEntry page u name)).
      apply elem_of_cons. by left. }
    unfold bind at 1. rewrite Hrun. simpl.
    destruct (IH w1) as (w' & Hloop & Hf' & Hd' & t & Ht' & Hrc).
    { intros en Hen. rewrite Hf. apply Hall, elem_of_cons. by right. }
    exists w'. split; [done |]. split; [congruence |]. split; [congruence |].
    exists (EvPageDownload u (cp // name) false Skipped :: t).
    split; [by rewrite Ht', Ht, <- app_assoc | by constructor].
Qed.

Lemma download_chapter_present_run fuel bp item from w :
  pages_present E bp item w ->
  endpoint_up E from -> from <= length (trace w) ->
  exists w',
    download_chapter E (S fuel) bp false item w = (Ok tt, w') /\
    files w' = files w /\
    exists t, trace w' = trace w ++ t /\
              Forall (fun e => is_recheck e = true) t.
Proof.
  destruct item as [[vol chap] images]. intros Hpresent Hup Hfrom.
  destruct (Hup (length (trace w)) (ci_id images) (ci_data_saver images) Hfrom)
    as [l Hl].
  unfold download_chapter, prepare_chapter.
  unfold bind at 1. unfold bind at 1. rewrite images_fetch_spec, Hl.
  set (w1 := mkWorld (files w) (dirs w) (trace w ++ [EvImagesFetch (ci_id images)])).
  set (cp := bp // chapter_folder vol chap).
  set (images1 := mkImages (ci_id images) (ci_data_saver images) l).
  assert (exists w2 t2, (present <- path_exists cp ;;
             (if negb present then mkdir cp else ret tt) ;;;
             ret (cp, images1)) w1 = (Ok (cp, images1), w2) /\
            files w2 = files w /\ trace w2 = trace w1 ++ t2 /\
            Forall (fun e => is_recheck e = true) t2)
    as (w2 & t2 & -> & Hf2 & Ht2 & Hrc2).
  { unfold bind, path_exists, mkdir, emit, create_dir, ret.
    destruct (_ || _); simpl.
    - exists w1, []. repeat split; try done. by rewrite app_nil_r.
    - eexists _, [EvMkdir cp]. repeat split; try done. by repeat constructor. }
  destruct (page_loop_present l cp images1 w2)
    as (w' & Hloop & Hf' & Hd' & t & Ht' & Hrc).
  { intros en Hen. rewrite Hf2. by eapply (Hpresent _ l). }
  exists w'. simpl. unfold bind at 1. unfold images_iter. simpl.
  rewrite Hloop. simpl.
  split; [done |]. split; [congruence |].
  exists (EvImagesFetch (ci_id images) :: t2 ++ t).
  split; [rewrite Ht', Ht2; simpl; by rewrite <- !app_assoc |].
  constructor; [done |]. by apply Forall_app.
Qed.

Lemma download_chapters_present_run fuel bp items from w :
  (forall item, item ∈ items -> pages_present E bp item w) ->
  endpoint_up E from -> from <= length (trace w) ->
  exists w',
    download_chapters E (S fuel) bp false items w = (Ok tt, w') /\
    files w' = files w /\
    exists t, trace w' = trace w ++ t /\
              Forall (fun e => is_recheck e = true) t.
Proof.
  intros Hall Hup. revert w Hall.
  induction items as [| item items IH]; intros w Hall Hfrom.
  - exists w. repeat split; try done. exists []. by rewrite app_nil_r.
  - assert (pages_present E bp item w) as Hitem
      by (apply Hall, elem_of_cons; by left).
    destruct (download_chapter_present_run fuel bp item from w Hitem Hup Hfrom)
      as (w1 & Hone & Hf1 & t1 & Ht1 & Hrc1).
    destruct (IH w1) as (w' & Hrest & Hf' & t & Ht' & Hrc).
    { intros item' Hin. apply (pages_present_mono bp item' w w1);
        [by rewrite Hf1 |].
      apply Hall, elem_of_cons. by right. }
    { rewrite Ht1, length_app. lia. }
    exists w'. cbn [download_chapters]. unfold bind at 1. rewrite Hone.
    split; [done |]. split; [congruence |].
    exists (t1 ++ t). split; [by rewrite Ht', Ht1, app_assoc |].
    by apply Forall_app.
Qed.
End SecondRun.

(** ** Two runs *)

Section TwoRuns.
Variable E : Env.

Lemma write_details_ok (manga : Manga E) p w :
  exists w', write_details manga p w = (Ok tt, w') /\
             trace w' = trace w ++ [EvWriteDetails p] /\
             files w ⊆ files w' /\ dirs w' = dirs w.
Proof.
  unfold write_details, bind, emit, create_file. eexists.
  split; [done |]. split; [done |]. split; [apply union_subseteq_r | done].
Qed.

Lemma after_fetch_ok (a : Args E) fuel start stop manga w m' w' :
  after_fetch E a fuel start stop manga w = (Ok m', w') ->
  m' = manga /\
  (forall p, p ∈ ancestors [] (base_path_of (folder a) manga) -> p ∈ dirs w') /\
  exists u chapters wd,
    select_cover_url (cover a) manga = Some u /\
    _chapters manga = Some chapters /\
    download_chapters E fuel (base_path_of (folder a) manga) (replace a)
      (iter_chapter_images E chapters start stop
         (no_oneshot_chapter a) (compressed_image a)) wd = (Ok tt, w').
Proof.
  unfold after_fetch. cbv zeta.
  set (bp := base_path_of (folder a) manga).
  unfold bind at 1.
  destruct (mkdir_parents bp w) as [[[] | e |] wm] eqn:Hm; try by intros [=].
  apply mkdir_parents_returned in Hm as (_ & _ & _ & _ & Hall).
  destruct (select_cover_url (cover a) manga) as [u |]; [| by intros [=]].
  destruct (download_file_spec E u (bp // "cover.jpg") true wm)
    as (o & wc & Hc & _ & _ & _).
  pose proof (download_file_dirs E _ _ _ _ _ _ Hc) as Hdc.
  unfold bind at 1. rewrite Hc.
  destruct (write_details_ok manga (bp // "details.json") wc)
    as (wd & Hd & _ & _ & Hdd).
  unfold bind at 1. rewrite Hd.
  unfold manga_chapters. destruct (_chapters manga) as [chapters |];
    [| by intros [=]].
  unfold bind at 1. unfold ret at 1. unfold bind.
  destruct (download_chapters E fuel bp (replace a) _ wd)
    as [[[] | e |] w2] eqn:Hch; intros [= <- <-].
  split; [done |]. split; [| by exists u, chapters, wd].
  intros p Hp.
  destruct (download_chapters_evolves E _ _ _ _ _ _ _ Hch) as (_ & Hsub & _).
  apply Hsub. rewrite Hdd, Hdc. by apply Hall.
Qed.

Lemma after_fetch_present (a : Args E) fuel start stop manga u chapters from w :
  replace a = false ->
  select_cover_url (cover a) manga = Some u ->
  _chapters manga = Some chapters ->
  (forall item,
     item ∈ iter_chapter_images E chapters start stop
              (no_oneshot_chapter a) (compressed_image a) ->
     pages_present E (base_path_of (folder a) manga) item w) ->
  endpoint_up E from -> from <= length (trace w) ->
  ~ blocked (base_path_of (folder a) manga) w ->
  exists w2 o t,
    after_fetch E a (S fuel) start stop manga w = (Ok manga, w2) /\
    o <> Skipped /\
    trace w2 = trace w
      ++ [EvMkdir (base_path_of (folder a) manga);
          EvDownloadFile u (base_path_of (folder a) manga // "cover.jpg") true o;
          EvWriteDetails (base_path_of (folder a) manga // "details.json")]
      ++ t /\
    Forall (fun e => is_recheck e = true) t.
Proof.
  intros Hr Hu Hch Hall Hup Hfrom Hfree. unfold after_fetch. cbv zeta.
  set (bp := base_path_of (folder a) manga) in *.
  destruct (mkdir_parents_ok bp w Hfree) as (wm & Hm & Htm & Hfm & _).
  unfold bind at 1. rewrite Hm, Hu.
  destruct (download_file_spec E u (bp // "cover.jpg") true wm)
    as (o & wc & Hc & Htc & Hfc & Ho).
  unfold bind at 1. rewrite Hc.
  destruct (write_details_ok manga (bp // "details.json") wc)
    as (wd & Hd & Htd & Hfd & _).
  unfold bind at 1. rewrite Hd.
  unfold manga_chapters. rewrite Hch.
  unfold bind at 1. unfold ret at 1. rewrite Hr.
  destruct (download_chapters_present_run E fuel bp
              (iter_chapter_images E chapters start stop
                 (no_oneshot_chapter a) (compressed_image a)) from wd)
    as (w2 & Hrun & _ & t & Ht & Hrc); [| done | |].
  { intros item Hin. apply (pages_present_mono E bp item w wd); [| by apply Hall].
    rewrite <- Hfm. by etrans. }
  { rewrite Htd, Htc, Htm, !length_app. lia. }
  exists w2, o, t. unfold bind. rewrite Hrun.
  split; [done |]. split; [intros ->; by destruct Ho as [[_ ?] _] |].
  split; [| done].
  rewrite Ht, Htd, Htc, Htm. by rewrite <- !app_assoc.
Qed.

Lemma download_ok_validated (a : Args E) fuel w m w' :
  download E a fuel w = (Ok m, w') -> exists s t, validated a s t.
Proof.
  intros Hrun. destruct (validated_dec E a) as [Hv | Hn]; [done |].
  destruct (download_not_validated E a fuel w Hn) as [e He]. congruence.
Qed.

(** C2, as amended: after a run that returned, a second run of the same
    call with [replace=False], against an upstream that names the page
    files as before and answers, returns the same manga, and every page
    download of it is skipped because the file exists.  The cover is not
    skipped: it is downloaded with [replace=True], so its transfer is
    attempted again. *)
Theorem second_run_skips_pages (a : Args E) (fuel fuel' : nat)
    (w0 w1 : World) (manga : Manga E) :
  replace a = false ->
  stable_names E ->
  endpoint_up E (length (trace w1)) ->
  download E a fuel w0 = (Ok manga, w1) ->
  exists w2 u o,
    download E a (S fuel') w1 = (Ok manga, w2) /\
    Forall (fun e => is_page_download e = true -> is_skipped_page e = true)
           (new_events w1 w2) /\
    count is_page_transfer (new_events w1 w2) = 0 /\
    filter (fun e => is_download_file e = true) (new_events w1 w2) =
      [EvDownloadFile u (base_path_of (folder a) manga // "cover.jpg") true o] /\
    o <> Skipped.
Proof.
  intros Hr Hstable Hup Hrun1.
  destruct (download_ok_validated a fuel w0 manga w1 Hrun1) as (s & t & Hv).
  rewrite (download_validated E a fuel s t w0 Hv) in Hrun1.
  unfold bind in Hrun1.
  destruct (fetch E (url a) (language a) w0) as [[m0 | e |] wf] eqn:Hf1;
    try discriminate.
  apply after_fetch_ok in Hrun1
    as (-> & Hdirs & u & chapters & wd & Hu & Hch & Hrun1).
  pose proof (download_chapters_present E _ _ _ _ _ _ Hstable Hrun1) as Hpresent.
  (* the second run *)
  rewrite (download_validated E a (S fuel') s t w1 Hv). unfold bind.
  destruct (fetch E (url a) (language a) w1) as [r2 wf2] eqn:Hf2.
  pose proof (fetch_independent E (url a) (language a) w0 w1) as Hsame.
  rewrite Hf1, Hf2 in Hsame. simpl in Hsame. subst r2.
  pose proof (fetch_evolves E _ _ _ _ _ Hf2) as (Hfiles & Hds & tf & Htf & Hapi).
  destruct (after_fetch_present a fuel' (Some s) (Some t) m0 u chapters
              (length (trace w1)) wf2 Hr Hu Hch)
    as (w2 & o & tc & Hrun2 & Ho & Ht2 & Hrc); [| done | | |].
  { intros item Hin.
    apply (pages_present_mono E _ item w1 wf2); [done | by apply Hpresent]. }
  { rewrite Htf, length_app. lia. }
  { apply not_blocked_dirs. intros p Hp. by apply Hds, Hdirs. }
  exists w2, u, o. split; [done |].
  set (bp := base_path_of (folder a) m0) in *.
  rewrite (new_events_app w1 w2
             (tf ++ [EvMkdir bp; EvDownloadFile u (bp // "cover.jpg") true o;
                     EvWriteDetails (bp // "details.json")] ++ tc)).
  2:{ rewrite Ht2, Htf. by rewrite <- !app_assoc. }
  split; [| split; [| split; [| done]]].
  - apply Forall_app. split.
    + eapply Forall_impl; [done |]. simpl. by intros [].
    + apply Forall_app. split; [by repeat constructor |].
      eapply Forall_impl; [done |]. simpl. by intros [| | | | | | | | ? ? ? []].
  - rewrite !count_app, (count_zero _ tf), (count_zero _ tc); [done | |].
    + eapply Forall_impl; [done |]. simpl. by intros [| | | | | | | | ? ? ? []].
    + eapply Forall_impl; [done |]. simpl. by intros [].
  - rewrite !filter_app.
    rewrite (filter_none _ tf), (filter_none _ tc); [done | |].
    + eapply Forall_impl; [done |]. simpl. by intros [| | | | | | | | ? ? ? []].
    + eapply Forall_impl; [done |]. simpl. by intros [].
Qed.
End TwoRuns.

(** ** The retry loop as a whole; the pipeline on the small upstream *)

Section ChaptersRun.
Variable E : Env.

Lemma download_chapters_run fuel bp r items : forall w res w',
  download_chapters E fuel bp r items w = (res, w') ->
  chapters_run E bp r (length (trace w)) items res (new_events w w').
Proof.
  induction items as [| [[vol chap] images] items IH]; intros w res w'.
  - intros [= <- <-]. unfold new_events. rewrite drop_all. apply chapters_done.
  - cbn [download_chapters]. unfold bind at 1, download_chapter, bind at 1.
    destruct (prepare_chapter E bp (vol, chap, images) w) as [res1 w1] eqn:Hprep.
    apply prepare_chapter_cases in Hprep as (_ & t & Ht & Hcase).
    destruct (images_endpoint E (length (trace w)) (ci_id images)
                (ci_data_saver images)) as [e | pages] eqn:Hend.
    + destruct Hcase as (-> & -> & _). intros [= <- <-].
      rewrite (new_events_app _ _ _ Ht). by apply chapters_fetch_raises.
    + destruct Hcase as [-> Hdir].
      set (cp := bp // chapter_folder vol chap) in *.
      assert (t = [] \/ t = [EvMkdir cp]) as Ht_dir.
      { destruct (_ || _); destruct Hdir as [-> _]; auto. }
      assert (length (trace w1) = length (trace w) + 1 + length t) as Hlen.
      { rewrite Ht, length_app. simpl. lia. }
      destruct (retry_loop E fuel cp r
                  (mkImages (ci_id images) (ci_data_saver images) pages) w1)
        as [res2 w2] eqn:Hloop.
      pose proof (retry_loop_evolves E _ _ _ _ _ _ _ Hloop)
        as (_ & _ & t2 & Ht2 & _).
      apply retry_loop_run in Hloop.
      rewrite (new_events_app _ _ _ Ht2), Hlen in Hloop.
      destruct res2 as [[] | e |].
      * intros Hrest.
        pose proof (download_chapters_evolves E _ _ _ _ _ _ _ Hrest)
          as (_ & _ & t3 & Ht3 & _).
        apply IH in Hrest. rewrite (new_events_app _ _ _ Ht3) in Hrest.
        rewrite (new_events_app w w' (EvImagesFetch (ci_id images) :: t ++ t2 ++ t3)).
        2:{ rewrite Ht3, Ht2, Ht. by rewrite <- !app_assoc. }
        eapply chapters_next; [done | done | done |].
        replace (length (trace w) + 1 + length t + length t2)
          with (length (trace w2)); [done |].
        rewrite Ht2, length_app. lia.
      * intros [= <- <-].
        rewrite (new_events_app w w2 (EvImagesFetch (ci_id images) :: t ++ t2)).
        2:{ rewrite Ht2, Ht. by rewrite <- !app_assoc. }
        by eapply chapters_stop.
      * intros [= <- <-].
        rewrite (new_events_app w w2 (EvImagesFetch (ci_id images) :: t ++ t2)).
        2:{ rewrite Ht2, Ht. by rewrite <- !app_assoc. }
        by eapply chapters_stop.
Qed.

Lemma download_chapter_never_delivers fuel bp r vol chap images w :
  never_delivers E (bp // chapter_folder vol chap) images w ->
  exists w',
    download_chapter E fuel bp r (vol, chap, images) w = (Diverge, w') /\
    count is_images_fetch (new_events w w') = fuel + 1 /\
    count is_page_failure (new_events w w') = fuel.
Proof.
  intros [Hnet Hend]. unfold download_chapter, bind.
  destruct (prepare_chapter E bp (vol, chap, images) w) as [res1 w1] eqn:Hprep.
  apply prepare_chapter_cases in Hprep as (Hfs & t & Ht & Hcase).
  destruct (Hend (length (trace w))) as (en & rest & Hpages & Hnew).
  rewrite Hpages in Hcase. destruct Hcase as [-> Hdir].
  set (cp := bp // chapter_folder vol chap) in *.
  assert (count is_images_fetch t = 0 /\ count is_page_failure t = 0)
    as [Hc1 Hc2].
  { destruct (_ || _); by destruct Hdir as [-> _]. }
  destruct (retry_loop_broken E fuel cp r
              (mkImages (ci_id images) (ci_data_saver images) (en :: rest)) w w1 Hfs)
    as (w' & Hrun & _ & t2 & Ht2 & Hf2 & Hp2).
  { split; [done |]. split; [exact Hend |]. by exists en, rest. }
  exists w'. split; [done |].
  rewrite (new_events_app w w' (EvImagesFetch (ci_id images) :: t ++ t2)).
  2:{ rewrite Ht2, Ht. by rewrite <- !app_assoc. }
  rewrite !count_cons, !count_app, Hc1, Hc2, Hf2, Hp2. simpl. split; lia.
Qed.
End ChaptersRun.

(** C3: however the loop over the chapters ends, its trace is, chapter by
    chapter, the fetch of the image links, the chapter folder, and a
    sequence of passes over the pages in which every failed page download
    is followed at once by the refetch of the image set and by a pass over
    the refreshed set from its first page; the page loop returns only after
    a pass over the whole current set without a failure, and the next
    chapter is entered only then.  No number of passes makes it give up:
    against an upstream whose transfers never go through a chapter is still
    being retried after any number of passes, having refetched once per
    pass. *)
Theorem retry_until_clean_pass (E : Env) (r : bool) :
  (forall bp fuel items w res w',
     download_chapters E fuel bp r items w = (res, w') ->
     chapters_run E bp r (length (trace w)) items res (new_events w w')) /\
  (forall cp fuel images w res w',
     retry_loop E fuel cp r images w = (res, w') ->
     chapter_run E cp r (length (trace w)) images res (new_events w w')) /\
  (forall bp fuel item items w res w',
     download_chapters E fuel bp r (item :: items) w = (res, w') ->
     (exists w1, download_chapter E fuel bp r item w = (Ok tt, w1) /\
                 download_chapters E fuel bp r items w1 = (res, w')) \/
     (res <> Ok tt /\ download_chapter E fuel bp r item w = (res, w'))) /\
  (forall bp vol chap images w,
     never_delivers E (bp // chapter_folder vol chap) images w ->
     forall fuel, exists w',
       download_chapter E fuel bp r (vol, chap, images) w = (Diverge, w') /\
       count is_images_fetch (new_events w w') = fuel + 1 /\
       count is_page_failure (new_events w w') = fuel) /\
  (forall cp images w,
     broken_upstream E cp images w ->
     forall fuel, exists w',
       retry_loop E fuel cp r images w = (Diverge, w') /\
       count is_images_fetch (new_events w w') = fuel /\
       count is_page_failure (new_events w w') = fuel).
Proof.
  split; [| split; [| split; [| split]]].
  - intros bp fuel items w res w'. apply download_chapters_run.
  - intros cp fuel images w res w'. apply retry_loop_run.
  - intros bp fuel item items w res w'. cbn [download_chapters]. unfold bind.
    destruct (download_chapter E fuel bp r item w) as [[[] | e |] w1] eqn:Hone.
    + intros Hrest. left. by exists w1.
    + intros [= <- <-]. by right.
    + intros [= <- <-]. by right.
  - intros bp vol chap images w Hnever fuel.
    by apply download_chapter_never_delivers.
  - intros cp images w Hbroken fuel.
    destruct (retry_loop_broken E fuel cp r images w w eq_refl Hbroken)
      as (w' & Hrun & _ & t & Ht & Hc1 & Hc2).
    exists w'. by rewrite (new_events_app _ _ _ Ht).
Qed.

Import Mock.

(** C5 on an integer volume, a string volume, no volume, and a oneshot. *)
Lemma chapter_folder_witness :
  chapter_folder (LInt 12) "3.5" = "Volume. 12 Chapter. 3.5" /\
  chapter_folder (LStr "2") "10" = "Volume. 2 Chapter. 10" /\
  chapter_folder (LStr "none") "7" = "Chapter. 7" /\
  chapter_folder (LInt 0) "none" = "Oneshot".
Proof.
  split; [| split; [| split]].
  - destruct (proj2 (chapter_folder_spec (LInt 12) "3.5")) as (_ & _ & Hint).
    { intros [[[=] _] | [[[=] _] | [[=] _]]]. }
    exact (Hint 12%Z eq_refl).
  - destruct (proj2 (chapter_folder_spec (LStr "2") "10")) as (_ & Hstr & _).
    { intros [[[=] _] | [[[=] _] | [[=] _]]]. }
    apply (Hstr "2" eq_refl). discriminate.
  - destruct (proj2 (chapter_folder_spec (LStr "none") "7")) as (Hnone & _).
    { intros [[[=] _] | [[_ [=]] | [_ [=]]]]. }
    exact (Hnone eq_refl).
  - apply (proj1 (chapter_folder_spec (LInt 0) "none")). left. by split.
Defined.

(** C1 at [start_chapter=5.0, end_chapter=1.0]. *)
Lemma config_errors_witness :
  exists e,
    download healthy
      (args healthy (LangStr "en") "m1" (AFloat 5) (AFloat 1) "original" false)
      1 empty_world = (Raise e, empty_world) /\
    e = ValueError "start_chapter cannot be more than end_chapter".
Proof.
  destruct (config_errors_before_network healthy
              (args healthy (LangStr "en") "m1" (AFloat 5) (AFloat 1) "original" false)
              1 empty_world) as (e & Hrun & Hmsg).
  { left. exists 5%float, 1%float. repeat split; reflexivity. }
  exists e. split; [exact Hrun |].
  apply (Hmsg 5%float 1%float); reflexivity.
Defined.

(** C10 as stated fails at [start_chapter=None, end_chapter=3]: the type
    check raises a [ValueError] before the comparison is reached. *)
Lemma none_bound_value_error :
  start_chapter (args healthy (LangStr "en") "m1" ANone (AOther "<class 'int'>")
                   "original" false) = ANone /\
  download healthy
    (args healthy (LangStr "en") "m1" ANone (AOther "<class 'int'>") "original" false)
    1 empty_world
  = (Raise (ValueError "end_chapter must be float, not <class 'int'>"), empty_world).
Proof. split; reflexivity. Qed.

(** C10, as amended, for the default bounds. *)
Lemma none_bound_witness :
  exists e,
    download healthy
      (args healthy (LangStr "en") "m1" ANone ANone "original" false)
      1 empty_world = (Raise e, empty_world) /\
    exists msg, e = TypeError msg.
Proof.
  destruct (none_bound_raises healthy
              (args healthy (LangStr "en") "m1" ANone ANone "original" false)
              1 empty_world) as [Hnone _].
  destruct (Hnone (or_introl eq_refl)) as (e & Hrun & Hkind).
  exists e. split; [exact Hrun | exact Hkind].
Defined.

Lemma validated_mock (E : Env) l u c r :
  c ∈ valid_cover_types E ->
  validated (args E l u (AFloat 1) (AFloat 2) c r) 1%float 2%float.
Proof. intros Hc. repeat split; done. Qed.


(** C2 as stated fails on the second run against the healthy upstream: the
    cover file exists, and the cover is transferred again. *)
Lemma second_run_retransfers_cover :
  bool_decide (["Title"; "cover.jpg"] ∈ files after_first_run) = true /\
  fst (download healthy run_args 1 after_first_run) = Ok the_manga /\
  filter (fun e => is_download_file e = true)
         (new_events after_first_run after_second_run) =
    [EvDownloadFile "covers/c1.jpg" ["Title"; "cover.jpg"] true Transferred].
Proof. repeat split; vm_compute; reflexivity. Qed.

(** C2, as amended, on the same two runs. *)
Lemma second_run_witness :
  exists w2 u o,
    download healthy run_args 1 after_first_run = (Ok the_manga, w2) /\
    Forall (fun e => is_page_download e = true -> is_skipped_page e = true)
           (new_events after_first_run w2) /\
    count is_page_transfer (new_events after_first_run w2) = 0 /\
    filter (fun e => is_download_file e = true) (new_events after_first_run w2) =
      [EvDownloadFile u ["Title"; "cover.jpg"] true o] /\
    o <> Skipped.
Proof.
  apply (second_run_skips_pages healthy run_args 1 0 empty_world
           after_first_run the_manga).
  - reflexivity.
  - intros t t' cid saver l l' [= <-] [= <-]. reflexivity.
  - intros t cid saver _. by eexists.
  - vm_compute. reflexivity.
Defined.

(** C3 on a chapter whose first links are stale, and on an upstream that is
    down. *)
Lemma retry_witness :
  chapters_run (flaky 1) ["Title"] false 0 [chapter1] (Ok tt)
    [EvImagesFetch "ch1";
     EvMkdir chapter1_path;
     EvPageDownload "stale/1.png" (chapter1_path // "1.png") false Transferred;
     EvPageDownload "stale/2.png" (chapter1_path // "2.png") false Failed;
     EvImagesFetch "ch1";
     EvPageDownload "cdn/1.png" (chapter1_path // "1.png") false Skipped;
     EvPageDownload "cdn/2.png" (chapter1_path // "2.png") false Transferred] /\
  chapter_run (flaky 1) chapter1_path false 0 stale_images (Ok tt)
    [EvPageDownload "stale/1.png" (chapter1_path // "1.png") false Transferred;
     EvPageDownload "stale/2.png" (chapter1_path // "2.png") false Failed;
     EvImagesFetch "ch1";
     EvPageDownload "cdn/1.png" (chapter1_path // "1.png") false Skipped;
     EvPageDownload "cdn/2.png" (chapter1_path // "2.png") false Transferred] /\
  (exists w',
     download_chapter broken 5 ["Title"] true chapter1 empty_world = (Diverge, w') /\
     count is_images_fetch (new_events empty_world w') = 5 + 1 /\
     count is_page_failure (new_events empty_world w') = 5) /\
  (exists w',
     retry_loop broken 5 chapter1_path true stale_images empty_world = (Diverge, w') /\
     count is_images_fetch (new_events empty_world w') = 5 /\
     count is_page_failure (new_events empty_world w') = 5).
Proof.
  split; [| split; [| split]].
  - apply (proj1 (retry_until_clean_pass (flaky 1) false)
             ["Title"] 2 [chapter1] empty_world (Ok tt)
             (snd (download_chapters (flaky 1) 2 ["Title"] false [chapter1]
                     empty_world))).
    vm_compute. reflexivity.
  - apply (proj1 (proj2 (retry_until_clean_pass (flaky 1) false))
             chapter1_path 2 stale_images empty_world (Ok tt)
             (snd (retry_loop (flaky 1) 2 chapter1_path false stale_images empty_world))).
    vm_compute. reflexivity.
  - apply (proj1 (proj2 (proj2 (proj2 (retry_until_clean_pass broken true))))
             ["Title"] (LStr "1") "1" (mkImages "ch1" false []) empty_world).
    split; [reflexivity |].
    intros t. eexists _, _. split; [reflexivity |]. apply not_elem_of_empty.
  - apply (proj2 (proj2 (proj2 (proj2 (retry_until_clean_pass broken true))))
             chapter1_path stale_images empty_world).
    split; [reflexivity |]. split.
    + intros t. eexists _, _. split; [reflexivity |]. apply not_elem_of_empty.
    + eexists _, _. split; [reflexivity |]. apply not_elem_of_empty.
Defined.

(** C4, as amended, for one failed pass and [replace=False]. *)
Lemma retry_converges_witness :
  exists w',
    download_chapter (flaky 1) 2 ["Title"] false chapter1 empty_world = (Ok tt, w') /\
    count is_images_fetch (new_events empty_world w') = 2 /\
    count is_page_failure (new_events empty_world w') = 1 /\
    count (transfers_to (chapter1_path // "1.png")) (new_events empty_world w') <= 1.
Proof.
  destruct (retry_converges (flaky 1) 1 ["Title"] false chapter1 empty_world)
    as (w' & Hrun & Hfetch & Hfail & Hfresh).
  { eexists _, _, _. split; [vm_compute; reflexivity |].
    eexists _, _. split; [vm_compute; reflexivity |].
    eexists. vm_compute. reflexivity. }
  exists w'. split; [apply Hrun; lia |]. split; [exact Hfetch |].
  split; [exact Hfail |]. apply (Hfresh eq_refl).
Defined.

(** C4 as stated fails with [replace=True]: after one failed pass and two
    calls of [fetch()], the first page, which had succeeded, is transferred a
    second time. *)
Lemma retry_redownloads_when_replacing :
  fst (download_chapter (flaky 1) 2 ["Title"] true chapter1 empty_world) = Ok tt /\
  count is_images_fetch
    (trace (snd (download_chapter (flaky 1) 2 ["Title"] true chapter1 empty_world))) = 2 /\
  filter (fun e => transfers_to (chapter1_path // "1.png") e = true)
    (trace (snd (download_chapter (flaky 1) 2 ["Title"] true chapter1 empty_world))) =
    [EvPageDownload "stale/1.png" (chapter1_path // "1.png") true Transferred;
     EvPageDownload "cdn/1.png" (chapter1_path // "1.png") true Transferred].
Proof. repeat split; vm_compute; reflexivity. Qed.

(** ** The background worker *)

Module WorkerFacts.
Import Worker.

Lemma invariant_init jobs : invariant (init jobs).
Proof.
  split; simpl.
  - done.
  - intros event H. by apply elem_of_empty in H.
  - done.
  - intros i event job H. apply list_lookup_fmap_Some in H as (? & ? & ?).
    discriminate.
  - intros i event job H. apply list_lookup_fmap_Some in H as (? & ? & ?).
    discriminate.
  - intros event job H. by apply elem_of_nil in H.
  - constructor.
  - done.
Qed.

Lemma invariant_step_main s s' :
  invariant s -> step_main s = Some s' -> invariant s'.
Proof.
  intros [Ho Hs Hsetting Hw Hr Hrank Hnd Hlog]. unfold step_main.
  destruct (_thread_main s) as [| event job | event | |] eqn:Hpc; try done.
  - (* get *)
    unfold running, pending in Ho. rewrite Hpc in Ho.
    destruct (_queue s) as [| [[event job] |] q] eqn:Hq; try done;
      intros [= <-]; split; simpl; done.
  - (* run *)
    assert (submitted s = (finished s ++ [(event, job)]) ++ pending s) as Ho'.
    { rewrite Ho. unfold running. rewrite Hpc. by rewrite <- app_assoc. }
    assert (forall e, e ∈ (finished s).*1 -> e ∈ (finished s ++ [(event, job)]).*1).
    { intros e He. rewrite fmap_app. apply elem_of_app. by left. }
    destruct (run job); intros [= <-]; split; simpl; try done; auto.
    all: intros e [= <-]; rewrite fmap_app; apply elem_of_app; right;
      by apply list_elem_of_singleton.
  - (* set *)
    intros [= <-]; split; simpl; try done.
    + unfold running in *. by rewrite Hpc in Ho.
    + intros e He. apply elem_of_union in He as [He | He]; [| by auto].
      apply elem_of_singleton in He as ->. by apply Hsetting.
    + intros i e job Hi. destruct (Hr i e job Hi) as [? ?].
      split; [done |]. apply elem_of_union. by right.
Qed.

Lemma invariant_step_caller i s s' :
  invariant s -> step_caller i s = Some s' -> invariant s'.
Proof.
  intros [Ho Hs Hsetting Hw Hr Hrank Hnd Hlog]. unfold step_caller.
  destruct (callers s !! i) as [[job | event job | event job] |] eqn:Hi;
    try done.
  - (* put *)
    intros [= <-]. split; simpl; try done.
    + rewrite Ho. unfold running, pending. simpl.
      rewrite omap_app. simpl. by rewrite <- !app_assoc.
    + intros j e jb Hj. apply elem_of_app.
      destruct (decide (i = j)) as [<- | Hne].
      * rewrite list_lookup_insert_eq in Hj by (by eapply lookup_lt_Some).
        injection Hj as <- <-. right. by apply list_elem_of_singleton.
      * rewrite list_lookup_insert_ne in Hj by done. left. by eapply Hw.
    + intros j e jb Hj.
      destruct (decide (i = j)) as [<- | Hne].
      * rewrite list_lookup_insert_eq in Hj by (by eapply lookup_lt_Some).
        discriminate.
      * rewrite list_lookup_insert_ne in Hj by done.
        destruct (Hr j e jb Hj). split; [| done]. apply elem_of_app. by left.
    + intros e jb He. apply elem_of_app in He as [He | He].
      * apply Hrank in He. lia.
      * apply list_elem_of_singleton in He. injection He as -> ->. lia.
    + rewrite fmap_app. apply NoDup_app. split; [done |]. split.
      * intros e He He'. apply list_elem_of_singleton in He'. simpl in He'.
        subst e. apply list_elem_of_fmap in He as ([e jb] & Heq & He).
        apply Hrank in He. simpl in Heq. lia.
      * apply NoDup_singleton.
  - (* wait *)
    case_bool_decide as Hset; [| done]. intros [= <-]. split; simpl; try done.
    + intros j e jb Hj.
      destruct (decide (i = j)) as [<- | Hne].
      * rewrite list_lookup_insert_eq in Hj by (by eapply lookup_lt_Some).
        discriminate.
      * rewrite list_lookup_insert_ne in Hj by done. by eapply Hw.
    + intros j e jb Hj.
      destruct (decide (i = j)) as [<- | Hne].
      * rewrite list_lookup_insert_eq in Hj by (by eapply lookup_lt_Some).
        injection Hj as <- <-. split; [by eapply Hw | done].
      * rewrite list_lookup_insert_ne in Hj by done. by eapply Hr.
Qed.

Lemma invariant_step_watchdog s s' :
  invariant s -> step_watchdog s = Some s' -> invariant s'.
Proof.
  intros [Ho Hs Hsetting Hw Hr Hrank Hnd Hlog]. unfold step_watchdog.
  destruct (_thread_shutdown s); [| done].
  destruct (_ && _); intros [= <-]; [done |].
  split; simpl; try done.
  rewrite Ho. unfold running, pending. simpl.
  rewrite omap_app. simpl. by rewrite app_nil_r.
Qed.

Lemma invariant_step t s s' : invariant s -> step t s = Some s' -> invariant s'.
Proof.
  intros Hinv. destruct t; simpl.
  - by apply invariant_step_main.
  - by apply invariant_step_watchdog.
  - by apply invariant_step_caller.
  - intros [= <-]. by destruct Hinv.
  - intros [= <-]. by destruct Hinv.
Qed.

Lemma reachable_invariant jobs s : reachable jobs s -> invariant s.
Proof.
  induction 1 as [| s t s' _ IH Hstep]; [apply invariant_init |].
  by eapply invariant_step.
Qed.

Lemma returned_finished s i event job :
  invariant s ->
  callers s !! i = Some (SReturned event job) -> (event, job) ∈ finished s.
Proof.
  intros [Ho Hs Hsetting Hw Hr Hrank Hnd Hlog] Hi.
  destruct (Hr i event job Hi) as [Hsub Hset].
  apply Hs in Hset. apply list_elem_of_fmap in Hset as ([e job'] & He & Hfin).
  simpl in He. subst e.
  assert ((event, job') ∈ submitted s) as Hsub'.
  { rewrite Ho. apply elem_of_app. by left. }
  assert (job = job') as ->; [| done].
  apply list_elem_of_lookup in Hsub as [k Hk].
  apply list_elem_of_lookup in Hsub' as [k' Hk'].
  assert (k = k') as ->.
  { eapply NoDup_lookup; [exact Hnd | |];
      rewrite list_lookup_fmap; [by rewrite Hk | by rewrite Hk']. }
  congruence.
Qed.

(** C7, as amended: in every reachable state of the worker and its
    callers, a caller that has returned from [submit] finds its job among
    the calls that ended; the items are served one at a time in the order
    they were put; nothing was ever logged; and a job that raises an
    [Exception] does not end [_main]: its event is set, [_main] is back at
    [get()], and the caller that waits on that event can return. *)
Theorem worker_serves_in_order (jobs : list Job) (s : state) :
  reachable jobs s ->
  (forall i event job,
     callers s !! i = Some (SReturned event job) -> (event, job) ∈ finished s) /\
  submitted s = finished s ++ running s ++ pending s /\
  logged s = [] /\
  (forall event job,
     _thread_main s = MRun event job -> run job = RaisesException ->
     exists s1 s2,
       step TMain s = Some s1 /\ step TMain s1 = Some s2 /\
       _thread_main s2 = MGet /\
       finished s2 = finished s ++ [(event, job)] /\
       event ∈ set_events s2 /\
       logged s2 = [] /\
       forall i, callers s !! i = Some (SWait event job) ->
         exists s3, step (TCaller i) s2 = Some s3 /\
                    callers s3 !! i = Some (SReturned event job)).
Proof.
  intros Hreach. pose proof (reachable_invariant jobs s Hreach) as Hinv.
  split; [intros i event job; by apply returned_finished |].
  split; [by destruct Hinv |]. split; [by destruct Hinv |].
  intros event job Hpc Hraise.
  exists (with_finished (MSet event) (event, job) s),
         (with_event_set MGet event (with_finished (MSet event) (event, job) s)).
  split; [simpl; unfold step_main; by rewrite Hpc, Hraise |].
  split; [done |]. split; [done |]. split; [done |].
  split; [simpl; apply elem_of_union; left; by apply elem_of_singleton |].
  split; [simpl; by destruct Hinv |].
  intros i Hi. simpl. unfold step_caller. simpl. rewrite Hi.
  rewrite bool_decide_eq_true_2
    by (apply elem_of_union; left; by apply elem_of_singleton).
  eexists. split; [done |]. simpl.
  apply list_lookup_insert_eq. by eapply lookup_lt_Some.
Qed.
End WorkerFacts.

(** ** The command-line entry point *)

Module CliFacts.
Import Cli.

Lemma do_returns E c t :
  behaviour E c = inr tt -> do E c t = (Ok tt, t ++ [c]).
Proof. intros H. unfold do, perform. by rewrite H. Qed.

(** C8: when the arguments parse with both chapter bounds given and
    [start_chapter > end_chapter], the entry point returns [1] after the
    signal handler, the argument parser, the logging setup and the error
    message, and before proxy setup, login or download; otherwise, when
    every collaborator returns, it goes through all of them and returns
    [0]. *)
Theorem main_exit_code (E : Env) (argv : option (list string))
    (sys_argv : list string) (args : Namespace) :
  get_args E (default (tail sys_argv) argv) = inr args ->
  behaviour E RegisterKeyboardinterruptHandler = inr tt ->
  behaviour E SetupLogging = inr tt ->
  (forall s e,
     start_chapter args = Some s -> end_chapter args = Some e ->
     float_gt s e = true ->
     behaviour E (LogError "--start-chapter cannot be more than --end-chapter")
       = inr tt ->
     main E argv sys_argv [] =
       (Ok 1%Z,
        [RegisterKeyboardinterruptHandler;
         GetArgs (default (tail sys_argv) argv);
         SetupLogging;
         LogError "--start-chapter cannot be more than --end-chapter"])) /\
  ((forall s e,
      start_chapter args = Some s -> end_chapter args = Some e ->
      float_gt s e = false) ->
   (forall c, is_work c = true -> behaviour E c = inr tt) ->
   main E argv sys_argv [] =
     (Ok 0%Z,
      [RegisterKeyboardinterruptHandler;
       GetArgs (default (tail sys_argv) argv);
       SetupLogging; SetupProxy; LoginWithErrHandler; Download;
       LogoutWithErrHandler; CheckUpdate; CloseNetworkObject])).
Proof.
  intros Hargs Hreg Hlog.
  assert (main E argv sys_argv = _main E (default (tail sys_argv) argv)) as ->
    by (by destruct argv).
  set (av := default (tail sys_argv) argv) in *.
  split.
  - intros s e Hs He Hgt Herr. unfold _main, cbind.
    rewrite (do_returns E _ _ Hreg). unfold perform at 1. rewrite Hargs.
    rewrite (do_returns E _ _ Hlog). rewrite Hs, He, Hgt.
    by rewrite (do_returns E _ _ Herr).
  - intros Hok Hwork. unfold _main, cbind.
    rewrite (do_returns E _ _ Hreg). unfold perform at 1. rewrite Hargs.
    rewrite (do_returns E _ _ Hlog).
    assert (match start_chapter args, end_chapter args with
            | Some s, Some e => float_gt s e
            | _, _ => false
            end = false) as ->.
    { destruct (start_chapter args) as [s |], (end_chapter args) as [e |];
        try done. by apply Hok. }
    by rewrite !do_returns by (by apply Hwork).
Qed.
End CliFacts.

(** ** The worker and the entry point on concrete inputs *)

Module WorkerExamples.
Import Worker WorkerFacts.

Lemma exec_reachable jobs schedule s :
  reachable jobs s -> reachable jobs (exec schedule s).
Proof.
  revert s. induction schedule as [| t schedule IH]; intros s Hs; [done |].
  simpl. apply IH. destruct (step t s) as [s' |] eqn:Hstep; [| done].
  by eapply reach_step.
Qed.

(** The caller submits [boom]; the worker takes it, runs it, sets the
    event; the caller returns. *)
(** C7 as stated fails on a job that raises: the exception is swallowed,
    the event is set and the caller returns, and the log is empty. *)
Lemma worker_does_not_log :
  run boom = RaisesException /\
  finished (exec [TCaller 0; TMain; TMain; TMain; TCaller 0] (init [boom]))
    = [(0, boom)] /\
  callers (exec [TCaller 0; TMain; TMain; TMain; TCaller 0] (init [boom]))
    = [SReturned 0 boom] /\
  _thread_main (exec [TCaller 0; TMain; TMain; TMain; TCaller 0] (init [boom]))
    = MGet /\
  logged (exec [TCaller 0; TMain; TMain; TMain; TCaller 0] (init [boom])) = [].
Proof. repeat split; vm_compute; reflexivity. Qed.

(** C7, as amended, with [boom] running and [zip] queued behind it. *)
Lemma worker_witness :
  exists s1 s2 s3,
    step TMain (exec [TCaller 0; TCaller 1; TMain] (init [boom; zip])) = Some s1 /\
    step TMain s1 = Some s2 /\
    _thread_main s2 = MGet /\
    finished s2 = [(0, boom)] /\
    pending s2 = [(1, zip)] /\
    step (TCaller 0) s2 = Some s3 /\
    callers s3 !! 0 = Some (SReturned 0 boom).
Proof.
  destruct (worker_serves_in_order [boom; zip]
              (exec [TCaller 0; TCaller 1; TMain] (init [boom; zip])))
    as (_ & _ & _ & Hswallow).
  { apply exec_reachable, reach_init. }
  destruct (Hswallow 0 boom eq_refl eq_refl)
    as (s1 & s2 & H1 & H2 & Hpc & Hfin & _ & _ & Hwake).
  destruct (Hwake 0 eq_refl) as (s3 & H3 & Hret).
  exists s1, s2, s3. split; [exact H1 |]. split; [exact H2 |].
  split; [exact Hpc |]. split; [exact Hfin |].
  split; [| split; [exact H3 | exact Hret]].
  injection H1 as <-. injection H2 as <-. reflexivity.
Defined.
End WorkerExamples.

Module CliExamples.
Import Cli CliFacts.

(** C8 for reversed bounds, and for a command line without an end bound. *)
Lemma exit_code_witness :
  main (cli (mkNamespace (Some 5%float) (Some 1%float)))
       None ["mangadex-dl"; "m1"; "--start-chapter"; "5"; "--end-chapter"; "1"] []
  = (Ok 1%Z,
     [RegisterKeyboardinterruptHandler;
      GetArgs ["m1"; "--start-chapter"; "5"; "--end-chapter"; "1"];
      SetupLogging;
      LogError "--start-chapter cannot be more than --end-chapter"]) /\
  main (cli (mkNamespace (Some 1%float) None)) (Some ["m1"]) [] []
  = (Ok 0%Z,
     [RegisterKeyboardinterruptHandler; GetArgs ["m1"]; SetupLogging;
      SetupProxy; LoginWithErrHandler; Download; LogoutWithErrHandler;
      CheckUpdate; CloseNetworkObject]).
Proof.
  split.
  - apply (proj1 (main_exit_code
                    (cli (mkNamespace (Some 5%float) (Some 1%float))) None
                    ["mangadex-dl"; "m1"; "--start-chapter"; "5"; "--end-chapter"; "1"]
                    (mkNamespace (Some 5%float) (Some 1%float))
                    eq_refl eq_refl eq_refl) 5%float 1%float);
      reflexivity.
  - apply (proj2 (main_exit_code
                    (cli (mkNamespace (Some 1%float) None)) (Some ["m1"]) []
                    (mkNamespace (Some 1%float) None)
                    eq_refl eq_refl eq_refl)).
    + intros s e _ [=].
    + reflexivity.
Defined.
End CliExamples.

(** * Further properties

    ** The requests of [fetch] *)

Section FetchFacts.
Variable E : Env.

Lemma request_spec {A} ev (answer : nat -> exn + A) w :
  request ev answer w =
    (match answer (length (trace w)) with inl e => Raise e | inr a => Ok a end,
     mkWorld (files w) (dirs w) (trace w ++ [ev])).
Proof.
  unfold request, bind, now, emit, lift. simpl.
  by destruct (answer (length (trace w))).
Qed.

Lemma rel_request_other r :
  rel_type r <> Some "author" -> rel_type r <> Some "artist" ->
  rel_type r <> Some "cover_art" -> rel_request r = None.
Proof.
  intros H1 H2 H3. unfold rel_request.
  by rewrite !bool_decide_eq_false_2.
Qed.

Lemma omap_cons_Some {A B} (f : A -> option B) x l y :
  f x = Some y -> omap f (x :: l) = y :: omap f l.
Proof. intros H. simpl. by rewrite H. Qed.

Lemma omap_cons_None {A B} (f : A -> option B) x l :
  f x = None -> omap f (x :: l) = omap f l.
Proof. intros H. simpl. by rewrite H. Qed.

Lemma answers_of_cons_other {A} kind (ask : option string -> exn + A) r rels :
  rel_type r <> Some kind ->
  answers_of kind ask (r :: rels) = answers_of kind ask rels.
Proof.
  intros H. unfold answers_of. apply omap_cons_None.
  by rewrite bool_decide_eq_false_2.
Qed.

Lemma answers_of_cons_answer {A} kind (ask : option string -> exn + A) r rels a :
  rel_type r = Some kind -> ask (rel_id r) = inr a ->
  answers_of kind ask (r :: rels) = a :: answers_of kind ask rels.
Proof.
  intros H Ha. unfold answers_of. apply omap_cons_Some.
  by rewrite bool_decide_eq_true_2, Ha.
Qed.

(** One turn of the loop that makes the request [ev]. *)
Lemma fetch_rels_step_raise {A} (r : rel) rels ev (ans : exn + A) e w :
  rel_request r = Some ev -> ans = inl e ->
  exists k,
    k <= length (r :: rels) /\
    trace (mkWorld (files w) (dirs w) (trace w ++ [ev]))
      = trace w ++ omap rel_request (take k (r :: rels)) /\
    (r :: rels) !! (k - 1) = Some r /\ 0 < k.
Proof.
  intros Hreq _. exists 1. simpl. rewrite Hreq. simpl.
  repeat split; lia.
Qed.

(** The loop over the relationships, whatever its result: the requests
    made are those of a prefix of the relationships; it returns only after
    the whole list, with the answers in order. *)
Lemma fetch_rels_spec rels authors artists cover_ w res w' :
  fetch_rels E rels authors artists cover_ w = (res, w') ->
  exists k,
    k <= length rels /\
    trace w' = trace w ++ omap rel_request (take k rels) /\
    files w' = files w /\ dirs w' = dirs w /\
    match res with
    | Ok x =>
        k = length rels /\
        x = (authors ++ answers_of "author" (get_author E) rels,
             artists ++ answers_of "artist" (get_author E) rels,
             match last (answers_of "cover_art" (get_cover_art E) rels) with
             | Some c => Some c
             | None => cover_
             end)
    | Raise e =>
        exists r, rels !! (k - 1) = Some r /\ 0 < k /\
          (get_author E (rel_id r) = inl e \/ get_cover_art E (rel_id r) = inl e)
    | Diverge => False
    end.
Proof.
  revert authors artists cover_ w.
  induction rels as [| r rels IH]; intros authors artists cover_ w.
  - intros [= <- <-]. exists 0. simpl. rewrite !app_nil_r. by repeat split.
  - cbn [fetch_rels].
    assert (forall k t1 ev,
              rel_request r = Some ev ->
              t1 = trace w ++ [ev] ->
              k <= length rels ->
              trace w' = t1 ++ omap rel_request (take k rels) ->
              S k <= length (r :: rels) /\
              trace w' = trace w ++ omap rel_request (take (S k) (r :: rels)))
      as Hext.
    { intros k t1 ev Hreq Hw1 Hk Ht. split; [simpl; lia |].
      cbn [take]. rewrite (omap_cons_Some _ _ _ _ Hreq), Ht, Hw1.
      by rewrite <- app_assoc. }
    destruct (bool_decide (rel_type r = Some "author")) eqn:Hau.
    { apply bool_decide_eq_true in Hau.
      assert (rel_request r = Some (EvGetAuthor (rel_id r))) as Hreq
        by (unfold rel_request; by rewrite bool_decide_eq_true_2).
      unfold bind at 1. rewrite request_spec.
      destruct (get_author E (rel_id r)) as [e | a] eqn:Hans.
      - intros [= <- <-].
        destruct (fetch_rels_step_raise r rels _ (get_author E (rel_id r)) e w Hreq Hans)
          as (k & Hk & Ht & Hr & Hpos).
        exists k. repeat split; try done. exists r. auto.
      - intros Hrest. apply IH in Hrest as (k & Hk & Ht & Hf & Hd & Hres).
        destruct (Hext k _ _ Hreq eq_refl Hk Ht) as [Hk' Ht'].
        exists (S k). repeat split; try done.
        destruct res as [x | e |]; [| | done].
        + destruct Hres as [-> ->]. split; [done |].
          rewrite (answers_of_cons_answer "author" _ r rels a Hau Hans).
          rewrite (answers_of_cons_other "artist") by congruence.
          rewrite (answers_of_cons_other "cover_art") by congruence.
          by rewrite <- app_assoc.
        + destruct Hres as (r' & Hr' & Hpos & Hwhy). exists r'.
          repeat split; [| lia | done].
          replace (S k - 1) with (S (k - 1)) by lia. done. }
    apply bool_decide_eq_false in Hau.
    destruct (bool_decide (rel_type r = Some "artist")) eqn:Har.
    { apply bool_decide_eq_true in Har.
      assert (rel_request r = Some (EvGetAuthor (rel_id r))) as Hreq.
      { unfold rel_request. rewrite bool_decide_eq_false_2 by done.
        by rewrite bool_decide_eq_true_2. }
      unfold bind at 1. rewrite request_spec.
      destruct (get_author E (rel_id r)) as [e | a] eqn:Hans.
      - intros [= <- <-].
        destruct (fetch_rels_step_raise r rels _ (get_author E (rel_id r)) e w Hreq Hans)
          as (k & Hk & Ht & Hr & Hpos).
        exists k. repeat split; try done. exists r. auto.
      - intros Hrest. apply IH in Hrest as (k & Hk & Ht & Hf & Hd & Hres).
        destruct (Hext k _ _ Hreq eq_refl Hk Ht) as [Hk' Ht'].
        exists (S k). repeat split; try done.
        destruct res as [x | e |]; [| | done].
        + destruct Hres as [-> ->]. split; [done |].
          rewrite (answers_of_cons_answer "artist" _ r rels a Har Hans).
          rewrite (answers_of_cons_other "author") by done.
          rewrite (answers_of_cons_other "cover_art") by congruence.
          by rewrite <- app_assoc.
        + destruct Hres as (r' & Hr' & Hpos & Hwhy). exists r'.
          repeat split; [| lia | done].
          replace (S k - 1) with (S (k - 1)) by lia. done. }
    apply bool_decide_eq_false in Har.
    destruct (bool_decide (rel_type r = Some "cover_art")) eqn:Hco.
    { apply bool_decide_eq_true in Hco.
      assert (rel_request r = Some (EvGetCoverArt (rel_id r))) as Hreq.
      { unfold rel_request. rewrite !bool_decide_eq_false_2 by done.
        by rewrite bool_decide_eq_true_2. }
      unfold bind at 1. rewrite request_spec.
      destruct (get_cover_art E (rel_id r)) as [e | c] eqn:Hans.
      - intros [= <- <-].
        destruct (fetch_rels_step_raise r rels _ (get_cover_art E (rel_id r)) e w Hreq Hans)
          as (k & Hk & Ht & Hr & Hpos).
        exists k. repeat split; try done. exists r. auto.
      - intros Hrest. apply IH in Hrest as (k & Hk & Ht & Hf & Hd & Hres).
        destruct (Hext k _ _ Hreq eq_refl Hk Ht) as [Hk' Ht'].
        exists (S k). repeat split; try done.
        destruct res as [x | e |]; [| | done].
        + destruct Hres as [-> ->]. split; [done |].
          rewrite (answers_of_cons_answer "cover_art" _ r rels c Hco Hans).
          rewrite (answers_of_cons_other "author") by done.
          rewrite (answers_of_cons_other "artist") by done.
          rewrite last_cons.
          by destruct (last (answers_of "cover_art" (get_cover_art E) rels)).
        + destruct Hres as (r' & Hr' & Hpos & Hwhy). exists r'.
          repeat split; [| lia | done].
          replace (S k - 1) with (S (k - 1)) by lia. done. }
    apply bool_decide_eq_false in Hco.
    intros Hrest. apply IH in Hrest as (k & Hk & Ht & Hf & Hd & Hres).
    exists (S k). cbn [take].
    rewrite (omap_cons_None _ _ _ (rel_request_other r Hau Har Hco)).
    repeat split; try done; [simpl; lia |].
    destruct res as [x | e |]; [| | done].
    + destruct Hres as [-> ->]. split; [done |].
      by rewrite !answers_of_cons_other by done.
    + destruct Hres as (r' & Hr' & Hpos & Hwhy). exists r'.
      repeat split; [| lia | done].
      replace (S k - 1) with (S (k - 1)) by lia. done.
Qed.
End FetchFacts.

Section FetchRuns.
Variable E : Env.

Lemma parse_language_cases (l : lang_arg E) w :
  (exists lang, parse_language E l w = (Ok lang, w)) \/
  (exists e, parse_language E l w = (Raise e, w)).
Proof.
  destruct l as [l | s | c]; simpl; [left; by eexists | | right; by eexists].
  unfold bind, lift. destruct (get_language E s) as [e | l'];
    [right | left]; by eexists.
Qed.

(** The runs of [fetch], step by step. *)
Lemma fetch_unfold u l w lang mid data :
  parse_language E l w = (Ok lang, w) ->
  validate_url E u = inr mid ->
  get_manga E mid = inr data ->
  fetch E u l w =
    bind (fetch_rels E (relationships E data) [] [] None)
      (fun extra =>
         let '(authors, artists, cover) := extra in
         listing <- request (EvGetAllChapters (Manga_id E data) lang)
                      (fun _ => get_all_chapters E (Manga_id E data) lang) ;;
         chapters <- lift (Chapter_init E listing (Manga_title E data) lang) ;;
         ret (mkManga (Manga_id E data) (Manga_title E data)
                      (Manga_cover_art E data cover)
                      (Manga_cover_art_512px E data cover)
                      (Manga_cover_art_256px E data cover)
                      (Some chapters)))
      (mkWorld (files w) (dirs w) (trace w ++ [EvGetManga mid])).
Proof.
  intros Hl Hu Hm. unfold fetch.
  unfold bind at 1. rewrite Hl.
  unfold bind at 1. rewrite Hu. simpl.
  unfold bind at 1. rewrite request_spec, Hm.
  reflexivity.
Qed.

(** X1: [fetch] parses the language and validates the URL before it asks the
    upstream for anything: either it raises the error of one of the two
    checks in the world it started in, or its first event is the
    [get_manga] request for the validated id. *)
Theorem fetch_validates_before_requesting (u : string) (l : lang_arg E)
    (w : World) (res : result (Manga E)) (w' : World) :
  fetch E u l w = (res, w') ->
  (w' = w /\
   exists e, res = Raise e /\
     (parse_language E l w = (Raise e, w) \/ validate_url E u = inl e)) \/
  (exists lang mid t,
     parse_language E l w = (Ok lang, w) /\
     validate_url E u = inr mid /\
     trace w' = trace w ++ EvGetManga mid :: t).
Proof.
  intros Hrun.
  pose proof (fetch_evolves E u l w res w' Hrun) as Hev.
  revert Hrun. unfold fetch.
  destruct (parse_language_cases l w) as [[lang Hl] | [e Hl]];
    unfold bind at 1; rewrite Hl.
  2:{ intros [= <- <-]. left. split; [done |]. exists e. auto. }
  destruct (validate_url E u) as [e | mid] eqn:Hu; unfold bind at 1; simpl.
  { intros [= <- <-]. left. split; [done |]. exists e. auto. }
  unfold bind at 1. rewrite request_spec.
  destruct (get_manga E mid) as [e | data].
  { intros [= <- <-]. right. by exists lang, mid, []. }
  intros Hrest. right. exists lang, mid.
  match type of Hrest with ?m ?w1 = _ =>
    assert (respects (evolves (fun _ => True)) m) as Hresp end.
  { apply respects_bind; [apply _ | | intros [[au ar] co]].
    - eapply respects_evolves_impl; [| apply fetch_rels_evolves]. done.
    - apply respects_bind; [apply _ | by apply request_evolves | intros ?].
      apply respects_bind; [apply _ | apply respects_lift; apply _ | intros ?].
      apply respects_ret; apply _. }
  apply Hresp in Hrest as (_ & _ & t & Ht & _). simpl in Ht.
  exists t. repeat split; try done. by rewrite Ht, <- app_assoc.
Qed.

(** X2: the loop over the relationships asks for each author, artist and
    cover in the order of the list and for nothing else, stops at the first
    request that fails with that request's error, and otherwise returns all
    authors, all artists and the last cover (the one passed in if there is
    none). *)
Theorem fetch_rels_requests (rels : list rel)
    (authors artists : list (json E)) (cover_ : option (json E))
    (w : World) res (w' : World) :
  fetch_rels E rels authors artists cover_ w = (res, w') ->
  exists k,
    k <= length rels /\
    new_events w w' = omap rel_request (take k rels) /\
    match res with
    | Ok x =>
        k = length rels /\
        x = (authors ++ answers_of "author" (get_author E) rels,
             artists ++ answers_of "artist" (get_author E) rels,
             match last (answers_of "cover_art" (get_cover_art E) rels) with
             | Some c => Some c
             | None => cover_
             end)
    | Raise e =>
        exists r, rels !! (k - 1) = Some r /\ 0 < k /\
          (get_author E (rel_id r) = inl e \/ get_cover_art E (rel_id r) = inl e)
    | Diverge => False
    end.
Proof.
  intros Hrun.
  apply fetch_rels_spec in Hrun as (k & Hk & Ht & _ & _ & Hres).
  exists k. split; [done |]. split; [by apply new_events_app | done].
Qed.

Lemma fetch_ok_spec (u : string) (l : lang_arg E)
    (w : World) (manga : Manga E) (w' : World) :
  fetch E u l w = (Ok manga, w') ->
  exists lang mid data listing chapters,
    parse_language E l w = (Ok lang, w) /\
    validate_url E u = inr mid /\
    get_manga E mid = inr data /\
    get_all_chapters E (Manga_id E data) lang = inr listing /\
    Chapter_init E listing (Manga_title E data) lang = inr chapters /\
    new_events w w' =
      EvGetManga mid :: omap rel_request (relationships E data)
      ++ [EvGetAllChapters (Manga_id E data) lang] /\
    let cover :=
      last (answers_of "cover_art" (get_cover_art E) (relationships E data)) in
    manga = mkManga (Manga_id E data) (Manga_title E data)
                    (Manga_cover_art E data cover)
                    (Manga_cover_art_512px E data cover)
                    (Manga_cover_art_256px E data cover)
                    (Some chapters).
Proof.
  intros Hrun.
  destruct (parse_language_cases l w) as [[lang Hl] | [e Hl]].
  2:{ revert Hrun. unfold fetch. unfold bind at 1. by rewrite Hl. }
  destruct (validate_url E u) as [e | mid] eqn:Hu.
  { revert Hrun. unfold fetch. unfold bind at 1. rewrite Hl.
    unfold bind at 1. by rewrite Hu. }
  destruct (get_manga E mid) as [e | data] eqn:Hm.
  { revert Hrun. unfold fetch. unfold bind at 1. rewrite Hl.
    unfold bind at 1. rewrite Hu. simpl.
    unfold bind at 1. by rewrite request_spec, Hm. }
  rewrite (fetch_unfold u l w lang mid data Hl Hu Hm) in Hrun.
  unfold bind at 1 in Hrun.
  destruct (fetch_rels E _ _ _ _ _) as [[[[au ar] co] | e |] w1] eqn:Hrels;
    try discriminate.
  apply fetch_rels_spec in Hrels as (k & _ & Ht1 & _ & _ & -> & Hx).
  injection Hx as -> -> ->. rewrite firstn_all in Ht1. simpl in Ht1.
  unfold bind at 1 in Hrun. rewrite request_spec in Hrun.
  destruct (get_all_chapters E (Manga_id E data) lang) as [e | listing] eqn:Hall;
    [discriminate |].
  unfold bind, lift in Hrun.
  destruct (Chapter_init E listing (Manga_title E data) lang) as [e | chapters] eqn:Hch;
    [discriminate |].
  injection Hrun as <- <-.
  exists lang, mid, data, listing, chapters.
  repeat split; try done.
  - apply new_events_app. simpl. rewrite Ht1. by rewrite <- !app_assoc.
  - simpl. by destruct (last _).
Qed.


(** X3: when [fetch] returns, it has asked for the manga, then for every
    author, artist and cover among its relationships, then for the chapter
    list in the parsed language, every request was answered, and the manga
    returned carries that chapter list and the cover of the last
    [cover_art] relationship. *)
Theorem fetch_returns_after_all_requests (u : string) (l : lang_arg E)
    (w : World) (manga : Manga E) (w' : World) :
  fetch E u l w = (Ok manga, w') ->
  exists lang mid data listing chapters,
    parse_language E l w = (Ok lang, w) /\
    validate_url E u = inr mid /\
    get_manga E mid = inr data /\
    get_all_chapters E (Manga_id E data) lang = inr listing /\
    Chapter_init E listing (Manga_title E data) lang = inr chapters /\
    new_events w w' =
      EvGetManga mid :: omap rel_request (relationships E data)
      ++ [EvGetAllChapters (Manga_id E data) lang] /\
    let cover :=
      last (answers_of "cover_art" (get_cover_art E) (relationships E data)) in
    manga = mkManga (Manga_id E data) (Manga_title E data)
                    (Manga_cover_art E data cover)
                    (Manga_cover_art_512px E data cover)
                    (Manga_cover_art_256px E data cover)
                    (Some chapters).
Proof. apply fetch_ok_spec. Qed.
End FetchRuns.

(** ** The hard errors of the upstream *)

Section HardErrors.
Variable E : Env.

Lemma fetch_rels_answered rels : forall authors artists cover_ w,
  rels_answered E rels ->
  exists x w',
    fetch_rels E rels authors artists cover_ w = (Ok x, w') /\
    trace w' = trace w ++ omap rel_request rels /\
    files w' = files w /\ dirs w' = dirs w.
Proof.
  induction rels as [| r rels IH]; intros authors artists cover_ w Hans.
  - eexists _, w. simpl. by rewrite app_nil_r.
  - assert (rels_answered E rels) as Hrest.
    { intros r' Hr'. apply Hans, elem_of_cons. by right. }
    destruct (Hans r) as [Hauthor Hcover]; [apply elem_of_cons; by left |].
    cbn [fetch_rels].
    destruct (bool_decide (rel_type r = Some "author")) eqn:Hau.
    { apply bool_decide_eq_true in Hau. destruct Hauthor as [x Hx]; [by left |].
      unfold bind at 1. rewrite request_spec, Hx.
      destruct (IH (authors ++ [x]) artists cover_
                  (mkWorld (files w) (dirs w)
                           (trace w ++ [EvGetAuthor (rel_id r)])) Hrest)
        as (y & w' & -> & Ht & Hf & Hd).
      exists y, w'. simpl in Ht.
      rewrite (omap_cons_Some rel_request r rels (EvGetAuthor (rel_id r)))
        by (unfold rel_request; by rewrite bool_decide_eq_true_2).
      by rewrite Ht, <- app_assoc. }
    destruct (bool_decide (rel_type r = Some "artist")) eqn:Har.
    { apply bool_decide_eq_true in Har. destruct Hauthor as [x Hx]; [by right |].
      unfold bind at 1. rewrite request_spec, Hx.
      destruct (IH authors (artists ++ [x]) cover_
                  (mkWorld (files w) (dirs w)
                           (trace w ++ [EvGetAuthor (rel_id r)])) Hrest)
        as (y & w' & -> & Ht & Hf & Hd).
      exists y, w'. simpl in Ht.
      rewrite (omap_cons_Some rel_request r rels (EvGetAuthor (rel_id r)))
        by (unfold rel_request; by rewrite Hau, bool_decide_eq_true_2).
      by rewrite Ht, <- app_assoc. }
    destruct (bool_decide (rel_type r = Some "cover_art")) eqn:Hco.
    { apply bool_decide_eq_true in Hco. destruct Hcover as [x Hx]; [done |].
      unfold bind at 1. rewrite request_spec, Hx.
      destruct (IH authors artists (Some x)
                  (mkWorld (files w) (dirs w)
                           (trace w ++ [EvGetCoverArt (rel_id r)])) Hrest)
        as (y & w' & -> & Ht & Hf & Hd).
      exists y, w'. simpl in Ht.
      rewrite (omap_cons_Some rel_request r rels (EvGetCoverArt (rel_id r)))
        by (unfold rel_request; by rewrite Hau, Har, bool_decide_eq_true_2).
      by rewrite Ht, <- app_assoc. }
    destruct (IH authors artists cover_ w Hrest) as (y & w' & -> & Ht & Hf & Hd).
    exists y, w'.
    rewrite (omap_cons_None rel_request r rels)
      by (unfold rel_request; by rewrite Hau, Har, Hco).
    done.
Qed.

Lemma raises_without_output_intro (a : Args E) fuel w e w1 requests :
  fetch E (url a) (language a) w = (Raise e, w1) ->
  new_events w w1 = requests ->
  raises_without_output a fuel w e requests.
Proof.
  intros Hf Hev. exists w1. split; [done |]. split; [done |].
  by apply download_fetch_raises.
Qed.

(** C6: in a call to [download] whose language and URL are accepted, a
    manga that cannot be found ([get_manga] raises), a chapter listing that
    cannot be had ([get_all_chapters] raises) and a language without
    chapters ([Chapter(...)] raises, after the manga and everything asked
    about its relationships were answered) each make [fetch] raise that
    very error after the requests made so far; [download] then raises too,
    with that error when the call passed the checks, and in every case the
    disk is as it was: no directory and no file was created. *)
Theorem hard_upstream_error_no_output (a : Args E) (fuel : nat) (w : World)
    (lang mid : string) :
  parse_language E (language a) w = (Ok lang, w) ->
  validate_url E (url a) = inr mid ->
  (forall e,
     get_manga E mid = inl e ->
     raises_without_output a fuel w e [EvGetManga mid]) /\
  (forall data e,
     get_manga E mid = inr data ->
     rels_answered E (relationships E data) ->
     get_all_chapters E (Manga_id E data) lang = inl e \/
     (exists listing,
        get_all_chapters E (Manga_id E data) lang = inr listing /\
        Chapter_init E listing (Manga_title E data) lang = inl e) ->
     raises_without_output a fuel w e
       (EvGetManga mid :: omap rel_request (relationships E data)
        ++ [EvGetAllChapters (Manga_id E data) lang])).
Proof.
  intros Hl Hu. split.
  - intros e Hm.
    apply (raises_without_output_intro a fuel w e
             (mkWorld (files w) (dirs w) (trace w ++ [EvGetManga mid]))).
    + unfold fetch. unfold bind at 1. rewrite Hl.
      unfold bind at 1. rewrite Hu. simpl.
      unfold bind at 1. by rewrite request_spec, Hm.
    + by apply new_events_app.
  - intros data e Hm Hans Hcause.
    destruct (fetch_rels_answered (relationships E data) [] [] None
                (mkWorld (files w) (dirs w) (trace w ++ [EvGetManga mid])) Hans)
      as ([[authors artists] cover_] & w1 & Hrels & Ht1 & _ & _).
    simpl in Ht1.
    apply (raises_without_output_intro a fuel w e
             (mkWorld (files w1) (dirs w1)
                (trace w1 ++ [EvGetAllChapters (Manga_id E data) lang]))).
    + rewrite (fetch_unfold E _ _ w lang mid data Hl Hu Hm).
      unfold bind at 1. rewrite Hrels.
      unfold bind at 1. rewrite request_spec.
      destruct Hcause as [Hall | (listing & Hall & Hch)]; rewrite Hall;
        [done |].
      unfold bind, lift. by rewrite Hch.
    + apply new_events_app. simpl. rewrite Ht1. by rewrite <- !app_assoc.
Qed.
End HardErrors.

(** C6 for a manga that does not exist, and for a language without
    chapters. *)
Lemma hard_error_witness :
  (exists w',
     download healthy
       (args healthy (LangStr "en") "gone" (AFloat 1) (AFloat 2) "original" false)
       1 empty_world = (Raise (InvalidManga "Manga cannot be found"), w') /\
     new_events empty_world w' = [EvGetManga "gone"] /\
     files w' = ∅ /\ dirs w' = ∅) /\
  (exists w',
     download healthy
       (args healthy (LangStr "id") "m1" (AFloat 1) (AFloat 2) "original" false)
       1 empty_world = (Raise (ChapterNotFound "no chapters"), w') /\
     new_events empty_world w' =
       [EvGetManga "m1"; EvGetAuthor (Some "a1"); EvGetCoverArt (Some "c1");
        EvGetAllChapters "m1" "id"] /\
     files w' = ∅ /\ dirs w' = ∅).
Proof.
  split.
  - destruct (proj1 (hard_upstream_error_no_output healthy
                       (args healthy (LangStr "en") "gone" (AFloat 1) (AFloat 2)
                          "original" false)
                       1 empty_world "en" "gone" eq_refl eq_refl)
                (InvalidManga "Manga cannot be found") eq_refl)
      as (w1 & _ & Hev & e' & w' & Hrun & Hf & Hd & _ & Hsame).
    destruct (Hsame 1%float 2%float) as [-> ->].
    { apply validated_mock. simpl. do 1 constructor. }
    by exists w1.
  - destruct (proj2 (hard_upstream_error_no_output healthy
                       (args healthy (LangStr "id") "m1" (AFloat 1) (AFloat 2)
                          "original" false)
                       1 empty_world "id" "m1" eq_refl eq_refl)
                "m1" (ChapterNotFound "no chapters") eq_refl)
      as (w1 & _ & Hev & e' & w' & Hrun & Hf & Hd & _ & Hsame).
    { intros r Hr. split; intros _; by eexists. }
    { right. by exists "m1". }
    destruct (Hsame 1%float 2%float) as [-> ->].
    { apply validated_mock. simpl. do 1 constructor. }
    by exists w1.
Defined.

Section DownloadFacts.
Variable E : Env.

Lemma ancestors_last (prefix p : list string) :
  p <> [] -> prefix ++ p ∈ ancestors prefix p.
Proof.
  revert prefix. induction p as [| x p IH]; intros prefix Hne; [done |].
  simpl. destruct p as [| y p].
  - apply elem_of_cons. by left.
  - apply elem_of_cons. right.
    replace (prefix ++ x :: y :: p) with ((prefix ++ [x]) ++ y :: p)
      by (by rewrite <- app_assoc).
    by apply IH.
Qed.

Lemma base_path_nonempty (folder : option string) (manga : Manga E) :
  base_path_of folder manga <> [].
Proof.
  unfold base_path_of, path_div. by destruct (truthy folder).
Qed.
End DownloadFacts.

(** ** The layout [download] produces *)

Section DownloadRuns.
Variable E : Env.

Lemma write_details_spec (manga : Manga E) p w :
  write_details manga p w =
    (Ok tt, mkWorld ({[p]} ∪ files w) (dirs w) (trace w ++ [EvWriteDetails p])).
Proof. reflexivity. Qed.

(** What [download] does between [fetch] and the loop over the chapters. *)
Lemma after_fetch_head (a : Args E) fuel start stop manga w :
  ~ blocked (base_path_of (folder a) manga) w ->
  exists wm,
    trace wm = trace w ++ [EvMkdir (base_path_of (folder a) manga)] /\
    files wm = files w /\ dirs w ⊆ dirs wm /\
    base_path_of (folder a) manga ∈ dirs wm /\
    match select_cover_url (cover a) manga with
    | None =>
        after_fetch E a fuel start stop manga w
          = (Raise (UnboundLocalError "cover_url"), wm)
    | Some u =>
        exists o wd,
          trace wd = trace wm
            ++ [EvDownloadFile u (base_path_of (folder a) manga // "cover.jpg") true o;
                EvWriteDetails (base_path_of (folder a) manga // "details.json")] /\
          files wm ⊆ files wd /\ dirs wd = dirs wm /\
          base_path_of (folder a) manga // "details.json" ∈ files wd /\
          after_fetch E a fuel start stop manga w =
            (chapters <- manga_chapters manga ;;
             download_chapters E fuel (base_path_of (folder a) manga) (replace a)
               (iter_chapter_images E chapters start stop
                  (no_oneshot_chapter a) (compressed_image a)) ;;;
             ret manga) wd
    end.
Proof.
  intros Hfree. unfold after_fetch. cbv zeta.
  set (bp := base_path_of (folder a) manga) in *.
  destruct (mkdir_parents_ok bp w Hfree) as (wm & Hm & Htm & Hfm & Hsub & Hall).
  assert (bp ∈ dirs wm) as Hin.
  { apply Hall, (ancestors_last [] bp), base_path_nonempty. }
  exists wm. repeat split; try done.
  destruct (select_cover_url (cover a) manga) as [u |];
    [| unfold bind; by rewrite Hm].
  destruct (download_file_spec E u (bp // "cover.jpg") true wm)
    as (o & wc & Hc & Htc & Hfc & _).
  assert (dirs wc = dirs wm) as Hdc.
  { revert Hc. unfold download_file, bind, file_exists, now, emit, create_file.
    simpl. rewrite andb_false_r.
    destruct (transfer_ok E (length (trace wm)) u); by intros [= <-]. }
  exists o, (mkWorld ({[bp // "details.json"]} ∪ files wc) (dirs wc)
                     (trace wc ++ [EvWriteDetails (bp // "details.json")])).
  simpl. repeat split; try done.
  - by rewrite Htc, <- app_assoc.
  - etrans; [exact Hfc | apply union_subseteq_r].
  - by apply elem_of_union_l, elem_of_singleton.
  - unfold bind at 1. rewrite Hm.
    unfold bind at 1. rewrite Hc.
    unfold bind at 1. by rewrite write_details_spec.
Qed.

Lemma after_fetch_returned (a : Args E) fuel start stop manga w m' w' :
  after_fetch E a fuel start stop manga w = (Ok m', w') ->
  ~ blocked (base_path_of (folder a) manga) w.
Proof.
  unfold after_fetch. cbv zeta. unfold bind at 1.
  destruct (mkdir_parents _ w) as [[[] | e |] wm] eqn:Hm; try by intros [=].
  intros _. by apply mkdir_parents_returned in Hm as (Hfree & _).
Qed.

(** X4: a [download] that returns has, after [fetch], created the base
    folder, downloaded the cover to [cover.jpg] in it with [replace=True],
    written [details.json] next to it, in that order, and only then gone
    through the chapters; both the folder and [details.json] exist at the
    end. *)
Theorem download_layout (a : Args E) (fuel : nat) (w : World)
    (manga : Manga E) (w' : World) :
  download E a fuel w = (Ok manga, w') ->
  exists wf u o t,
    fetch E (url a) (language a) w = (Ok manga, wf) /\
    select_cover_url (cover a) manga = Some u /\
    new_events w w' =
      new_events w wf
      ++ [EvMkdir (base_path_of (folder a) manga);
          EvDownloadFile u (base_path_of (folder a) manga // "cover.jpg") true o;
          EvWriteDetails (base_path_of (folder a) manga // "details.json")]
      ++ t /\
    Forall (fun e => is_chapter_event e = true) t /\
    base_path_of (folder a) manga ∈ dirs w' /\
    base_path_of (folder a) manga // "details.json" ∈ files w'.
Proof.
  intros Hrun.
  destruct (download_ok_validated E a fuel w manga w' Hrun) as (s & t0 & Hv).
  rewrite (download_validated E a fuel s t0 w Hv) in Hrun.
  unfold bind in Hrun.
  destruct (fetch E (url a) (language a) w) as [[m0 | e |] wf] eqn:Hf;
    try discriminate.
  pose proof (fetch_evolves E _ _ _ _ _ Hf) as Hevf.
  destruct (after_fetch_head a fuel (Some s) (Some t0) m0 wf)
    as (wm & Htm & Hfm & Hsub & Hin & Hrest);
    [by eapply after_fetch_returned |].
  destruct (select_cover_url (cover a) m0) as [u |] eqn:Hu;
    [| rewrite Hrest in Hrun; discriminate].
  destruct Hrest as (o & wd & Htd & Hfd & Hdd & Hdet & Hrest).
  rewrite Hrest in Hrun. unfold bind at 1, manga_chapters in Hrun.
  destruct (_chapters m0) as [chapters |]; [| discriminate].
  unfold ret at 1 in Hrun. unfold bind in Hrun.
  destruct (download_chapters E fuel _ _ _ wd) as [[[] | e |] w2] eqn:Hch;
    try discriminate.
  injection Hrun as <- <-.
  pose proof (download_chapters_evolves E _ _ _ _ _ _ _ Hch)
    as (Hfiles & Hdirs & t & Ht & HP).
  exists wf, u, o, t. repeat split; try done.
  - apply new_events_app. rewrite Ht, Htd, Htm.
    rewrite (evolves_trace _ _ _ Hevf) at 1. by rewrite <- !app_assoc.
  - apply Hdirs. by rewrite Hdd.
  - by apply Hfiles.
Qed.



(** X14: a regular file where the base folder or one of its parents would
    have to be makes [download] raise the [FileExistsError] or
    [NotADirectoryError] of [mkdir], right after [fetch]: the cover is not
    downloaded, [details.json] is not written, no chapter is touched. *)
Theorem download_stops_at_blocked_folder (a : Args E) (fuel : nat) (w : World)
    (s t : float) (manga : Manga E) (wf : World) :
  validated a s t ->
  fetch E (url a) (language a) w = (Ok manga, wf) ->
  blocked (base_path_of (folder a) manga) w ->
  exists e w',
    download E a fuel w = (Raise e, w') /\
    (e = FileExistsError (base_path_of (folder a) manga) \/
     e = NotADirectoryError (base_path_of (folder a) manga)) /\
    new_events w w' =
      new_events w wf ++ [EvMkdir (base_path_of (folder a) manga)] /\
    files w' = files w.
Proof. apply download_blocked. Qed.
End DownloadRuns.

(** ** The loop over the chapters *)

Section ChapterLoop.
Variable E : Env.

Lemma chapter_run_counts cp r n images res t :
  chapter_run E cp r n images res t ->
  count is_images_fetch t = count is_page_failure t.
Proof.
  induction 1 as [n images t Hdl
                 | n images before en after tb pages res t_rest _ Hdl _ _ IH
                 | n images before en after tb e _ Hdl _
                 | n images].
  - destruct (downloaded_counts _ _ _ _ Hdl) as [-> ->]. done.
  - destruct (downloaded_counts _ _ _ _ Hdl) as [H1 H2].
    rewrite !count_app, H1, H2, IH. done.
  - destruct (downloaded_counts _ _ _ _ Hdl) as [H1 H2].
    rewrite !count_app, H1, H2. done.
  - done.
Qed.

(** The head of a chapter's iteration, whatever its result. *)
Lemma download_chapter_counts fuel bp r item w res w' :
  download_chapter E fuel bp r item w = (res, w') ->
  count is_images_fetch (new_events w w')
    = 1 + count is_page_failure (new_events w w').
Proof.
  destruct item as [[vol chap] images]. unfold download_chapter, bind.
  destruct (prepare_chapter E bp (vol, chap, images) w) as [res1 w1] eqn:Hprep.
  apply prepare_chapter_cases in Hprep as (_ & t & Ht & Hcase).
  assert (count is_images_fetch t = 0 /\ count is_page_failure t = 0) as [Hc1 Hc2].
  { destruct (images_endpoint E _ _ _); [by destruct Hcase as (_ & -> & _) |].
    destruct Hcase as [_ Hcase].
    destruct (_ || _); by destruct Hcase as [-> _]. }
  destruct res1 as [[cp images1] | e |].
  - intros Hloop.
    pose proof (retry_loop_evolves E _ _ _ _ _ _ _ Hloop) as (_ & _ & t2 & Ht2 & _).
    apply retry_loop_run in Hloop. rewrite (new_events_app _ _ _ Ht2) in Hloop.
    apply chapter_run_counts in Hloop.
    rewrite (new_events_app w w' (EvImagesFetch (ci_id images) :: t ++ t2)).
    2:{ rewrite Ht2, Ht. by rewrite <- app_assoc. }
    rewrite !count_cons, !count_app, Hc1, Hc2, Hloop. simpl. lia.
  - intros [= <- <-]. rewrite (new_events_app _ _ _ Ht).
    rewrite !count_cons, Hc1, Hc2. done.
  - intros [= <- <-]. rewrite (new_events_app _ _ _ Ht).
    rewrite !count_cons, Hc1, Hc2. done.
Qed.

(** X8: in any run over the chapters, however it ends, the image links were
    fetched once per chapter started and once more per failed page, and a
    run that returns started every chapter. *)
Theorem one_refetch_per_failure (fuel : nat) (bp : Path) (r : bool)
    (items : list (label * string * ChapterImages)) (w : World)
    (res : result unit) (w' : World) :
  download_chapters E fuel bp r items w = (res, w') ->
  exists started,
    started <= length items /\
    count is_images_fetch (new_events w w')
      = started + count is_page_failure (new_events w w') /\
    (res = Ok tt -> started = length items).
Proof.
  revert w. induction items as [| item items IH]; intros w; simpl.
  - intros [= <- <-]. exists 0. unfold new_events. rewrite drop_all. done.
  - unfold bind at 1.
    destruct (download_chapter E fuel bp r item w) as [res1 w1] eqn:Hone.
    pose proof (download_chapter_evolves E _ _ _ _ _ _ _ Hone) as Hev1.
    apply download_chapter_counts in Hone.
    destruct res1 as [[] | e |].
    + intros Hrest.
      pose proof (download_chapters_evolves E _ _ _ _ _ _ _ Hrest) as Hev2.
      apply IH in Hrest as (n & Hn & Hcount & Hok).
      exists (S n). rewrite (new_events_trans _ _ _ _ _ Hev1 Hev2).
      rewrite !count_app, Hone, Hcount.
      repeat split; [lia | lia |]. intros Hres. by rewrite (Hok Hres).
    + intros [= <- <-]. exists 1. repeat split; [lia | done | done].
    + intros [= <- <-]. exists 1. repeat split; [lia | done | done].
Qed.

(** X7: before its pages are downloaded a chapter has its links fetched and
    its folder, named by [chapter_folder] under the base path, created if
    nothing of that name exists; an existing one is left alone, and no file
    is touched. *)
Theorem prepare_chapter_creates_missing_folder (bp : Path) (vol : label)
    (chap : string) (images : ChapterImages) (w : World)
    (cp : Path) (images1 : ChapterImages) (w1 : World) :
  prepare_chapter E bp (vol, chap, images) w = (Ok (cp, images1), w1) ->
  cp = bp // chapter_folder vol chap /\
  (cp ∈ dirs w1 \/ cp ∈ files w1) /\
  (cp ∈ dirs w \/ cp ∈ files w -> new_events w w1 = [EvImagesFetch (ci_id images)]) /\
  (cp ∉ dirs w -> cp ∉ files w ->
   new_events w w1 = [EvImagesFetch (ci_id images); EvMkdir cp]) /\
  files w1 = files w.
Proof.
  intros Hprep.
  apply prepare_chapter_cases in Hprep as (Hf & t & Ht & Hcase).
  destruct (images_endpoint E _ _ _) as [e | pages]; [by destruct Hcase |].
  destruct Hcase as [[= -> ->] Hcase].
  set (cp := bp // chapter_folder vol chap) in *.
  rewrite (new_events_app _ _ _ Ht).
  destruct (bool_decide (cp ∈ files w)) eqn:Hinf;
    destruct (bool_decide (cp ∈ dirs w)) eqn:Hind; simpl in Hcase;
    destruct Hcase as [-> Hd];
    try apply bool_decide_eq_true in Hinf; try apply bool_decide_eq_true in Hind;
    try apply bool_decide_eq_false in Hinf; try apply bool_decide_eq_false in Hind;
    rewrite ?Hd, ?Hf; repeat split; try done; try tauto; auto.
  left. by apply elem_of_union_l, elem_of_singleton.
Qed.
End ChapterLoop.

(** ** The shutdown of the worker *)

Module WorkerShutdown.
Import Worker WorkerFacts.

Lemma sentinels_cons_None q : sentinels (None :: q) = S (sentinels q).
Proof. unfold sentinels. by rewrite filter_cons_True. Qed.

Lemma sentinels_cons_Some x q : sentinels (Some x :: q) = sentinels q.
Proof. unfold sentinels. by rewrite filter_cons_False. Qed.

Lemma sentinels_app q1 q2 : sentinels (q1 ++ q2) = sentinels q1 + sentinels q2.
Proof. unfold sentinels. by rewrite filter_app, length_app. Qed.

Lemma shutdown_invariant_init jobs : shutdown_invariant (init jobs).
Proof. split; simpl; try done. unfold sentinels. simpl. lia. Qed.

Lemma shutdown_invariant_step t s s' :
  shutdown_invariant s -> step t s = Some s' -> shutdown_invariant s'.
Proof.
  intros Hinv. pose proof Hinv as [Hwatch Hput Honce Htaken].
  destruct t; simpl.
  - (* the worker thread *)
    unfold step_main.
    destruct (_thread_main s) as [| event job | event | |] eqn:Hpc; try done.
    + destruct (_queue s) as [| [[event job] |] q] eqn:Hq; try done;
        intros [= <-]; split; simpl.
      * intros Hd. destruct (Hwatch Hd) as [H0 _].
        rewrite sentinels_cons_Some in H0. done.
      * done.
      * by rewrite sentinels_cons_Some in Honce.
      * done.
      * intros Hd. destruct (Hwatch Hd) as [H0 _].
        rewrite sentinels_cons_None in H0. lia.
      * done.
      * rewrite sentinels_cons_None in Honce. lia.
      * intros _. rewrite sentinels_cons_None in Honce. lia.
    + destruct (run job); intros [= <-]; split; simpl; try done;
        intros Hd; destruct (Hwatch Hd) as [H0 _]; done.
    + intros [= <-]; split; simpl; try done.
      intros Hd. destruct (Hwatch Hd) as [H0 _]. done.
  - (* the watchdog *)
    unfold step_watchdog.
    destruct (_thread_shutdown s) eqn:Hd; [| done].
    destruct (mainthread_alive s && negb (_shutdown_event s)) eqn:Hflags;
      intros [= <-]; [done |].
    destruct (Hwatch eq_refl) as [H0 Hmain].
    split; simpl; [done | | |].
    + intros _. destruct (mainthread_alive s), (_shutdown_event s);
        first [by left | by right | discriminate].
    + rewrite sentinels_app, H0. unfold sentinels. simpl. lia.
    + done.
  - (* a caller *)
    unfold step_caller.
    destruct (callers s !! i) as [[job | event job | event job] |]; try done.
    + intros [= <-]. split; simpl; try done.
      * intros Hd. destruct (Hwatch Hd) as [H0 Hmain].
        split; [| done]. rewrite sentinels_app, H0. done.
      * rewrite sentinels_app. unfold sentinels at 2. simpl. lia.
      * intros Hm. rewrite sentinels_app, (Htaken Hm). done.
    + case_bool_decide; [| done]. intros [= <-]. by split.
  - intros [= <-]. split; simpl; try done. intros Hd. auto.
  - intros [= <-]. split; simpl; try done. intros Hd. auto.
Qed.

Lemma reachable_shutdown_invariant jobs s :
  reachable jobs s -> shutdown_invariant s.
Proof.
  induction 1 as [| s t s' _ IH Hstep]; [apply shutdown_invariant_init |].
  by eapply shutdown_invariant_step.
Qed.

(** X9: the [None] that stops the worker is put at most once, and only by
    the watchdog; so a worker that has returned from [_main] did so after
    [shutdown()] was called or the main thread ended, and no [None] is left
    in the queue. *)
Theorem worker_stops_only_on_shutdown (jobs : list Job) (s : state) :
  reachable jobs s ->
  sentinels (_queue s) <= 1 /\
  (_thread_main s = MReturned ->
   sentinels (_queue s) = 0 /\
   _thread_shutdown s = DReturned /\
   (_shutdown_event s = true \/ mainthread_alive s = false)).
Proof.
  intros Hreach.
  destruct (reachable_shutdown_invariant jobs s Hreach)
    as [Hwatch Hput Honce Htaken].
  split; [done |]. intros Hm. split; [by apply Htaken |].
  destruct (_thread_shutdown s) eqn:Hd.
  - by destruct (Hwatch eq_refl) as [_ ?].
  - split; [done | by apply Hput].
Qed.

(** Once the worker thread has left [_main] nothing runs and no event is
    set any more. *)
Lemma ended_step t s s' :
  main_ended s -> step t s = Some s' ->
  _thread_main s' = _thread_main s /\
  finished s' = finished s /\
  set_events s' = set_events s /\
  next_event s <= next_event s'.
Proof.
  intros Hend. destruct t; simpl.
  - unfold step_main. by destruct Hend as [-> | ->].
  - unfold step_watchdog. destruct (_thread_shutdown s); [| done].
    destruct (mainthread_alive s && negb (_shutdown_event s));
      by intros [= <-].
  - unfold step_caller.
    destruct (callers s !! i) as [[job | event job | event job] |]; try done.
    + intros [= <-]. simpl. repeat split. lia.
    + case_bool_decide; [| done]. by intros [= <-].
  - by intros [= <-].
  - by intros [= <-].
Qed.

Lemma ended_exec schedule s :
  main_ended s ->
  _thread_main (exec schedule s) = _thread_main s /\
  finished (exec schedule s) = finished s /\
  set_events (exec schedule s) = set_events s.
Proof.
  revert s. induction schedule as [| t schedule IH]; intros s Hend; [done |].
  simpl. destruct (step t s) as [s' |] eqn:Hstep; simpl; [| by apply IH].
  destruct (ended_step t s s' Hend Hstep) as (Hpc & Hfin & Hset & _).
  destruct (IH s') as (Hpc' & Hfin' & Hset').
  { unfold main_ended. by rewrite Hpc. }
  by rewrite Hpc', Hfin', Hset'.
Qed.

Lemma unanswered_step t s s' i :
  main_ended s ->
  (forall event, event ∈ set_events s -> event < next_event s) ->
  unanswered s i -> step t s = Some s' ->
  unanswered s' i /\
  (forall event, event ∈ set_events s' -> event < next_event s').
Proof.
  intros Hend Hrank Hun Hstep.
  destruct (ended_step t s s' Hend Hstep) as (_ & _ & Hset & Hnext).
  split; [| intros event; rewrite Hset; intros Hin%Hrank; lia].
  destruct t; simpl in Hstep.
  - unfold step_main in Hstep. by destruct Hend as [Hpc | Hpc]; rewrite Hpc in Hstep.
  - unfold step_watchdog in Hstep. destruct (_thread_shutdown s); [| done].
    by destruct (mainthread_alive s && negb (_shutdown_event s));
      injection Hstep as <-.
  - unfold step_caller in Hstep. unfold unanswered.
    destruct (decide (i0 = i)) as [-> | Hne].
    + destruct Hun as [[job Hi] | (event & job & Hi & Hnot)]; rewrite Hi in Hstep.
      * injection Hstep as <-. simpl. right. exists (next_event s), job.
        split.
        -- apply list_lookup_insert_eq. by eapply lookup_lt_Some.
        -- intros Hin%Hrank. lia.
      * by rewrite bool_decide_eq_false_2 in Hstep.
    + destruct (callers s !! i0) as [[job | event job | event job] |]; try done.
      * injection Hstep as <-. simpl.
        by rewrite list_lookup_insert_ne.
      * case_bool_decide; [| done]. injection Hstep as <-. simpl.
        by rewrite list_lookup_insert_ne.
  - by injection Hstep as <-.
  - by injection Hstep as <-.
Qed.

(** X11: once the worker thread has left [_main], by taking the [None] or
    by an exception that is not an [Exception], no job runs and no event
    is set any more: a [submit] it has not answered by then never
    returns, whatever the threads do. *)
Theorem submit_blocks_after_worker_ended (jobs : list Job) (s : state)
    (i : nat) (schedule : list thread) :
  reachable jobs s -> main_ended s -> unanswered s i ->
  finished (exec schedule s) = finished s /\
  set_events (exec schedule s) = set_events s /\
  unanswered (exec schedule s) i /\
  (forall event job, callers (exec schedule s) !! i <> Some (SReturned event job)).
Proof.
  intros Hreach Hend Hun.
  destruct (ended_exec schedule s Hend) as (_ & Hfin & Hset).
  split; [done |]. split; [done |].
  assert (Hrank : forall event, event ∈ set_events s -> event < next_event s).
  { destruct (reachable_invariant jobs s Hreach)
      as [Horder Hinset _ _ _ Hlt _ _].
    intros event Hin. apply Hinset in Hin.
    apply list_elem_of_fmap in Hin as ([event' job] & -> & Hin).
    apply (Hlt event' job). rewrite Horder. apply elem_of_app. by left. }
  clear Hreach Hfin Hset.
  assert (Hkeep : unanswered (exec schedule s) i).
  { revert s Hend Hun Hrank.
    induction schedule as [| t schedule IH]; intros s Hend Hun Hrank; [done |].
    simpl. destruct (step t s) as [s' |] eqn:Hstep; simpl; [| by apply IH].
    destruct (unanswered_step t s s' i Hend Hrank Hun Hstep) as [Hun' Hrank'].
    destruct (ended_step t s s' Hend Hstep) as (Hpc & _).
    apply IH; [| done | done]. unfold main_ended. by rewrite Hpc. }
  split; [done |]. intros event job Hret.
  destruct Hkeep as [[job' Hi] | (event' & job' & Hi & _)]; congruence.
Qed.

(** What the worker thread still holds: the events it has yet to set. *)
Lemma drain_exec schedule : forall s items rest,
  _queue s = (Some <$> items) ++ None :: rest ->
  _thread_main (exec schedule s) = MReturned ->
  _thread_main s <> MReturned ->
  finished (exec schedule s) = finished s ++ running s ++ items /\
  (forall p, p ∈ running s ++ items ->
     run p.2 <> RaisesBaseException /\ p.1 ∈ set_events (exec schedule s)) /\
  (forall event, _thread_main s = MSet event ->
     event ∈ set_events (exec schedule s)) /\
  set_events s ⊆ set_events (exec schedule s).
Proof.
  induction schedule as [| t schedule IH]; intros s items rest Hq Hret Hpc;
    [done |].
  simpl in Hret |- *.
  destruct (step t s) as [s' |] eqn:Hstep; simpl in Hret |- *;
    [| by eapply IH].
  destruct t; simpl in Hstep.
  - (* the worker thread *)
    unfold step_main in Hstep. unfold running.
    destruct (_thread_main s) as [| event job | event | |] eqn:Hs; try done.
    + rewrite Hq in Hstep. destruct items as [| [event job] items]; simpl in Hstep.
      * injection Hstep as <-.
        destruct (ended_exec schedule (with_main MReturned rest s))
          as (_ & Hfin & Hset); [by left |].
        rewrite Hfin, Hset. simpl. rewrite app_nil_r.
        split; [done |]. split; [by intros p Hp%elem_of_nil |]. done.
      * injection Hstep as <-.
        destruct (IH (with_main (MRun event job) ((Some <$> items) ++ None :: rest) s)
                    items rest eq_refl Hret) as (Hfin & Hitems & _ & Hsub);
          [done |].
        split; [exact Hfin |]. split; [exact Hitems |]. done.
    + destruct (run job) eqn:Hrun; injection Hstep as <-.
      * destruct (IH (with_finished (MSet event) (event, job) s) items rest Hq Hret)
          as (Hfin & Hitems & Hev & Hsub); [done |].
        unfold running in Hfin, Hitems. simpl in Hfin, Hitems, Hev, Hsub.
        split; [by rewrite Hfin, <- app_assoc |].
        split; [| done].
        intros p [-> | Hp]%elem_of_cons; [| by apply Hitems].
        split; [simpl; congruence | by apply Hev].
      * destruct (IH (with_finished (MSet event) (event, job) s) items rest Hq Hret)
          as (Hfin & Hitems & Hev & Hsub); [done |].
        unfold running in Hfin, Hitems. simpl in Hfin, Hitems, Hev, Hsub.
        split; [by rewrite Hfin, <- app_assoc |].
        split; [| done].
        intros p [-> | Hp]%elem_of_cons; [| by apply Hitems].
        split; [simpl; congruence | by apply Hev].
      * destruct (ended_exec schedule (with_finished MDied (event, job) s))
          as (Hdied & _); [by right |].
        rewrite Hdied in Hret. done.
    + injection Hstep as <-.
      destruct (IH (with_event_set MGet event s) items rest Hq Hret)
        as (Hfin & Hitems & _ & Hsub); [done |].
      simpl in Hsub. split; [done |]. split; [done |].
      split.
      * intros event' [= <-]. apply Hsub, elem_of_union_l, elem_of_singleton.
        done.
      * etrans; [| exact Hsub]. apply union_subseteq_r.
  - (* the watchdog *)
    unfold step_watchdog in Hstep. destruct (_thread_shutdown s); [| done].
    destruct (mainthread_alive s && negb (_shutdown_event s));
      injection Hstep as <-; [by eapply IH |].
    eapply (IH _ items (rest ++ [None])) in Hret; [exact Hret | | done].
    simpl. by rewrite Hq, <- app_assoc.
  - (* a caller *)
    unfold step_caller in Hstep.
    destruct (callers s !! i) as [[job | event job | event job] |]; try done.
    + injection Hstep as <-.
      eapply (IH _ items (rest ++ [Some (next_event s, job)])) in Hret;
        [exact Hret | | done].
      simpl. by rewrite Hq, <- app_assoc.
    + case_bool_decide; [| done]. injection Hstep as <-.
      by eapply (IH _ items rest) in Hret.
  - injection Hstep as <-. by eapply (IH _ items rest) in Hret.
  - injection Hstep as <-. by eapply (IH _ items rest) in Hret.
Qed.

Lemma exec_step t schedule s s' :
  step t s = Some s' -> exec (t :: schedule) s = exec schedule s'.
Proof. intros Hstep. simpl. by rewrite Hstep. Qed.

Lemma drain_alone : forall items s rest,
  _thread_main s = MGet ->
  _queue s = (Some <$> items) ++ None :: rest ->
  (forall p, p ∈ items -> run p.2 <> RaisesBaseException) ->
  _thread_main (exec (replicate (3 * length items + 1) TMain) s) = MReturned /\
  _queue (exec (replicate (3 * length items + 1) TMain) s) = rest.
Proof.
  induction items as [| [event job] items IH]; intros s rest Hpc Hq Hrun.
  - simpl. unfold step_main. rewrite Hpc, Hq. done.
  - replace (3 * length ((event, job) :: items) + 1)
      with (S (S (S (3 * length items + 1)))) by (simpl; lia).
    assert (Hjob : run job <> RaisesBaseException).
    { apply (Hrun (event, job)), elem_of_cons. by left. }
    set (q := (Some <$> items) ++ None :: rest).
    set (s1 := with_main (MRun event job) q s).
    set (s2 := with_finished (MSet event) (event, job) s1).
    set (s3 := with_event_set MGet event s2).
    simpl replicate.
    rewrite (exec_step TMain _ s s1), (exec_step TMain _ s1 s2),
      (exec_step TMain _ s2 s3).
    + apply IH; [done | done |].
      intros p Hp. apply Hrun, elem_of_cons. by right.
    + done.
    + simpl. unfold step_main. simpl. by destruct (run job).
    + simpl. unfold step_main. by rewrite Hpc, Hq.
Qed.

(** X10: the jobs put before the [None] are all served: whatever the
    threads do, a worker that returns has run exactly these jobs, in queue
    order, and set their events; and if none of them raises outside
    [Exception], the worker thread on its own gets there in three steps a
    job and one for the [None]. *)
Theorem worker_drains_before_returning (s : state)
    (items : list (nat * Job)) (rest : list (option (nat * Job))) :
  _thread_main s = MGet ->
  _queue s = (Some <$> items) ++ None :: rest ->
  (forall schedule,
     _thread_main (exec schedule s) = MReturned ->
     finished (exec schedule s) = finished s ++ items /\
     forall p, p ∈ items ->
       run p.2 <> RaisesBaseException /\ p.1 ∈ set_events (exec schedule s)) /\
  ((forall p, p ∈ items -> run p.2 <> RaisesBaseException) ->
   _thread_main (exec (replicate (3 * length items + 1) TMain) s) = MReturned /\
   _queue (exec (replicate (3 * length items + 1) TMain) s) = rest).
Proof.
  intros Hpc Hq. split.
  - intros schedule Hret.
    destruct (drain_exec schedule s items rest Hq Hret) as (Hfin & Hitems & _).
    { by rewrite Hpc. }
    unfold running in Hfin, Hitems. rewrite Hpc in Hfin, Hitems. done.
  - by apply drain_alone.
Qed.
End WorkerShutdown.

(** ** The runs of the entry point *)

Module CliRuns.
Import Cli CliFacts.

Lemma main_unfold E argv sys_argv :
  main E argv sys_argv = _main E (default (tail sys_argv) argv).
Proof. by destruct argv. Qed.

Ltac answer E c :=
  let u := fresh "u" in
  let H := fresh "H" in
  unfold do at 1; unfold perform at 1;
  destruct (behaviour E c) as [? | u] eqn:H; [| destruct u].

(** X12: [main] returns only [0] or [1]: [1] after the error message of the
    pre-flight check and nothing else, [0] after every step up to
    [close_network_object]. *)
Theorem main_returns_0_or_1 (E : Env) (argv : option (list string))
    (sys_argv : list string) (code : Z) (t : list call) :
  main E argv sys_argv [] = (Ok code, t) ->
  exists args,
    get_args E (default (tail sys_argv) argv) = inr args /\
    ((code = 1%Z /\ bounds_reversed args = true /\
      t = rejected_run (default (tail sys_argv) argv)) \/
     (code = 0%Z /\ bounds_reversed args = false /\
      t = full_run (default (tail sys_argv) argv) /\
      forall c, c ∈ t -> is_work c = true -> behaviour E c = inr tt)).
Proof.
  rewrite main_unfold. set (av := default (tail sys_argv) argv).
  unfold _main, cbind.
  answer E RegisterKeyboardinterruptHandler; [done |].
  unfold perform at 1. destruct (get_args E av) as [? | args] eqn:Hargs; [done |].
  answer E SetupLogging; [done |].
  fold (bounds_reversed args). destruct (bounds_reversed args) eqn:Hrev.
  - answer E (LogError "--start-chapter cannot be more than --end-chapter");
      [done |].
    intros [= <- <-]. exists args. split; [done |]. left. done.
  - answer E SetupProxy; [done |].
    answer E LoginWithErrHandler; [done |].
    answer E Download; [done |].
    answer E LogoutWithErrHandler; [done |].
    answer E CheckUpdate; [done |].
    answer E CloseNetworkObject; [done |].
    intros [= <- <-]. exists args. split; [done |]. right.
    split; [done |]. split; [done |]. split; [done |].
    intros c Hc Hwork. simpl in Hc. unfold full_run.
    repeat (apply elem_of_cons in Hc as [-> | Hc]; [done || by idtac |]).
    by apply elem_of_nil in Hc.
Qed.

Ltac stops_at before c :=
  let c' := fresh "c" in
  let Hc := fresh "Hc" in
  intros [= <- <-]; exists before, c;
  split; [done |]; split; [done |];
  split; [first [left; by eexists | right; by eexists] |];
  intros c' Hc;
  repeat (apply elem_of_cons in Hc as [-> | Hc]; [done || by eexists |]);
  by apply elem_of_nil in Hc.

(** X13: the first call that raises ends [main] with its exception; the calls
    after it are not made. *)
Theorem main_stops_at_first_error (E : Env) (argv : option (list string))
    (sys_argv : list string) (e : exn) (t : list call) :
  main E argv sys_argv [] = (Raise e, t) ->
  exists before c,
    t = before ++ [c] /\ raised_by E c e /\
    (t `prefix_of` full_run (default (tail sys_argv) argv) \/
     t `prefix_of` rejected_run (default (tail sys_argv) argv)) /\
    forall c', c' ∈ before ->
      match c' with
      | GetArgs av => exists args, get_args E av = inr args
      | _ => behaviour E c' = inr tt
      end.
Proof.
  rewrite main_unfold. set (av := default (tail sys_argv) argv).
  unfold _main, cbind.
  answer E RegisterKeyboardinterruptHandler.
  { stops_at (@nil call) RegisterKeyboardinterruptHandler. }
  unfold perform at 1. destruct (get_args E av) as [? | args] eqn:Hargs.
  { stops_at [RegisterKeyboardinterruptHandler] (GetArgs av). }
  answer E SetupLogging.
  { stops_at [RegisterKeyboardinterruptHandler; GetArgs av] SetupLogging. }
  fold (bounds_reversed args). destruct (bounds_reversed args) eqn:Hrev.
  - answer E (LogError "--start-chapter cannot be more than --end-chapter");
      [| done].
    stops_at [RegisterKeyboardinterruptHandler; GetArgs av; SetupLogging]
             (LogError "--start-chapter cannot be more than --end-chapter").
  - answer E SetupProxy.
    { stops_at [RegisterKeyboardinterruptHandler; GetArgs av; SetupLogging]
               SetupProxy. }
    answer E LoginWithErrHandler.
    { stops_at [RegisterKeyboardinterruptHandler; GetArgs av; SetupLogging;
                SetupProxy]
               LoginWithErrHandler. }
    answer E Download.
    { stops_at [RegisterKeyboardinterruptHandler; GetArgs av; SetupLogging;
                SetupProxy; LoginWithErrHandler]
               Download. }
    answer E LogoutWithErrHandler.
    { stops_at [RegisterKeyboardinterruptHandler; GetArgs av; SetupLogging;
                SetupProxy; LoginWithErrHandler; Download]
               LogoutWithErrHandler. }
    answer E CheckUpdate.
    { stops_at [RegisterKeyboardinterruptHandler; GetArgs av; SetupLogging;
                SetupProxy; LoginWithErrHandler; Download;
                LogoutWithErrHandler]
               CheckUpdate. }
    answer E CloseNetworkObject; [| done].
    stops_at [RegisterKeyboardinterruptHandler; GetArgs av; SetupLogging;
              SetupProxy; LoginWithErrHandler; Download;
              LogoutWithErrHandler; CheckUpdate]
             CloseNetworkObject.
Qed.
End CliRuns.

(** ** The further properties on concrete inputs *)

Module Runs.
Import Scenarios.

(** An empty URL is turned down before any request; the manga ["m1"] is
    asked for first. *)
Lemma fetch_validates_witness :
  ((snd (fetch healthy "" (LangStr "en") empty_world) = empty_world /\
    exists e,
      fst (fetch healthy "" (LangStr "en") empty_world) = Raise e /\
      (parse_language healthy (LangStr "en") empty_world = (Raise e, empty_world) \/
       validate_url healthy "" = inl e)) \/
   (exists lang mid t,
      parse_language healthy (LangStr "en") empty_world = (Ok lang, empty_world) /\
      validate_url healthy "" = inr mid /\
      trace (snd (fetch healthy "" (LangStr "en") empty_world))
        = trace empty_world ++ EvGetManga mid :: t)).
Proof.
  apply (fetch_validates_before_requesting healthy "" (LangStr "en") empty_world).
  vm_compute. reflexivity.
Defined.

(** The two relationships of ["m1"]: an author, then a cover. *)
Lemma fetch_rels_witness :
  exists k,
    k <= 2 /\
    new_events empty_world
      (snd (fetch_rels healthy (relationships healthy "m1") [] [] None empty_world))
      = omap rel_request (take k (relationships healthy "m1")) /\
    k = 2 /\
    ([] ++ answers_of "author" (get_author healthy) (relationships healthy "m1"),
     [] ++ answers_of "artist" (get_author healthy) (relationships healthy "m1"),
     match last (answers_of "cover_art" (get_cover_art healthy)
                   (relationships healthy "m1")) with
     | Some c => Some c
     | None => None
     end)
    = (["author"], [], Some "cover").
Proof.
  destruct (fetch_rels_requests healthy (relationships healthy "m1") [] [] None
              empty_world
              (Ok (["author"], [], Some "cover"))
              (snd (fetch_rels healthy (relationships healthy "m1") [] [] None
                      empty_world)))
    as (k & Hk & Hev & Hlen & Hres).
  { vm_compute. reflexivity. }
  exists k. split; [exact Hk |]. split; [exact Hev |].
  split; [exact Hlen | symmetry; exact Hres].
Defined.

(** [fetch] of ["m1"] in English: the manga, its author, its cover, its
    chapters. *)
Lemma fetch_returns_witness :
  exists lang mid data listing chapters,
    parse_language healthy (LangStr "en") empty_world = (Ok lang, empty_world) /\
    validate_url healthy "m1" = inr mid /\
    get_manga healthy mid = inr data /\
    get_all_chapters healthy (Manga_id healthy data) lang = inr listing /\
    Chapter_init healthy listing (Manga_title healthy data) lang = inr chapters /\
    new_events empty_world (snd (fetch healthy "m1" (LangStr "en") empty_world)) =
      EvGetManga mid :: omap rel_request (relationships healthy data)
      ++ [EvGetAllChapters (Manga_id healthy data) lang] /\
    the_manga =
      mkManga (Manga_id healthy data) (Manga_title healthy data)
        (Manga_cover_art healthy data
           (last (answers_of "cover_art" (get_cover_art healthy)
                    (relationships healthy data))))
        (Manga_cover_art_512px healthy data
           (last (answers_of "cover_art" (get_cover_art healthy)
                    (relationships healthy data))))
        (Manga_cover_art_256px healthy data
           (last (answers_of "cover_art" (get_cover_art healthy)
                    (relationships healthy data))))
        (Some chapters).
Proof.
  apply (fetch_returns_after_all_requests healthy "m1" (LangStr "en") empty_world
           the_manga (snd (fetch healthy "m1" (LangStr "en") empty_world))).
  vm_compute. reflexivity.
Defined.

(** The first run against the healthy upstream. *)
Lemma download_layout_witness :
  exists wf u o t,
    fetch healthy "m1" (LangStr "en") empty_world = (Ok the_manga, wf) /\
    select_cover_url "original" the_manga = Some u /\
    new_events empty_world after_first_run =
      new_events empty_world wf
      ++ [EvMkdir ["Title"];
          EvDownloadFile u ["Title"; "cover.jpg"] true o;
          EvWriteDetails ["Title"; "details.json"]]
      ++ t /\
    Forall (fun e => is_chapter_event e = true) t /\
    ["Title"] ∈ dirs after_first_run /\
    ["Title"; "details.json"] ∈ files after_first_run.
Proof.
  apply (download_layout healthy run_args 1 empty_world the_manga after_first_run).
  vm_compute. reflexivity.
Defined.



(** A regular file named [Title] where the base folder would go. *)
Lemma download_blocked_witness :
  exists e w',
    download healthy run_args 1 title_is_a_file = (Raise e, w') /\
    (e = FileExistsError ["Title"] \/ e = NotADirectoryError ["Title"]) /\
    new_events title_is_a_file w' =
      new_events title_is_a_file
        (snd (fetch healthy "m1" (LangStr "en") title_is_a_file))
      ++ [EvMkdir ["Title"]] /\
    files w' = files title_is_a_file.
Proof.
  apply (download_stops_at_blocked_folder healthy run_args 1 title_is_a_file
           1%float 2%float the_manga
           (snd (fetch healthy "m1" (LangStr "en") title_is_a_file))).
  - repeat split; try reflexivity. simpl. do 1 constructor.
  - vm_compute. reflexivity.
  - exists ["Title"]. split; [apply elem_of_cons; by left |].
    split; [| apply not_elem_of_empty].
    unfold title_is_a_file. simpl. by apply elem_of_singleton.
Defined.

(** One chapter whose first links are stale: one failed pass, two fetches. *)
Lemma one_refetch_witness :
  exists started,
    started <= 1 /\
    count is_images_fetch
      (new_events empty_world
         (snd (download_chapters (flaky 1) 2 ["Title"] false [chapter1] empty_world)))
    = started +
      count is_page_failure
        (new_events empty_world
           (snd (download_chapters (flaky 1) 2 ["Title"] false [chapter1] empty_world))) /\
    (Ok tt = Ok tt -> started = 1).
Proof.
  apply (one_refetch_per_failure (flaky 1) 2 ["Title"] false [chapter1]
           empty_world (Ok tt)
           (snd (download_chapters (flaky 1) 2 ["Title"] false [chapter1] empty_world))).
  vm_compute. reflexivity.
Defined.

(** The first chapter of ["m1"], in a world without its folder. *)
Lemma prepare_chapter_witness :
  chapter1_path = ["Title"] // chapter_folder (LStr "1") "1" /\
  (chapter1_path ∈ dirs (snd (prepare_chapter healthy ["Title"] chapter1 empty_world)) \/
   chapter1_path ∈ files (snd (prepare_chapter healthy ["Title"] chapter1 empty_world))) /\
  (chapter1_path ∈ dirs empty_world \/ chapter1_path ∈ files empty_world ->
   new_events empty_world (snd (prepare_chapter healthy ["Title"] chapter1 empty_world))
   = [EvImagesFetch "ch1"]) /\
  (chapter1_path ∉ dirs empty_world -> chapter1_path ∉ files empty_world ->
   new_events empty_world (snd (prepare_chapter healthy ["Title"] chapter1 empty_world))
   = [EvImagesFetch "ch1"; EvMkdir chapter1_path]) /\
  files (snd (prepare_chapter healthy ["Title"] chapter1 empty_world))
  = files empty_world.
Proof.
  apply (prepare_chapter_creates_missing_folder healthy ["Title"] (LStr "1") "1"
           (mkImages "ch1" false []) empty_world chapter1_path
           (mkImages "ch1" false (pages "cdn"))
           (snd (prepare_chapter healthy ["Title"] chapter1 empty_world))).
  vm_compute. reflexivity.
Defined.
End Runs.

Module WorkerRuns.
Import Worker WorkerFacts WorkerExamples WorkerShutdown Scenarios.

(** The worker returned after [shutdown()] and took the only [None]. *)
Lemma worker_stops_witness :
  sentinels (_queue stopped_early) <= 1 /\
  (_thread_main stopped_early = MReturned ->
   sentinels (_queue stopped_early) = 0 /\
   _thread_shutdown stopped_early = DReturned /\
   (_shutdown_event stopped_early = true \/ mainthread_alive stopped_early = false)).
Proof.
  apply (worker_stops_only_on_shutdown [boom] stopped_early).
  apply exec_reachable, reach_init.
Defined.

(** The caller puts [boom] after the worker has returned, and waits. *)
Lemma submit_blocks_witness :
  finished (exec [TCaller 0; TMain; TCaller 0] stopped_early)
    = finished stopped_early /\
  set_events (exec [TCaller 0; TMain; TCaller 0] stopped_early)
    = set_events stopped_early /\
  unanswered (exec [TCaller 0; TMain; TCaller 0] stopped_early) 0 /\
  (forall event job,
     callers (exec [TCaller 0; TMain; TCaller 0] stopped_early) !! 0
     <> Some (SReturned event job)).
Proof.
  apply (submit_blocks_after_worker_ended [boom] stopped_early 0
           [TCaller 0; TMain; TCaller 0]).
  - apply exec_reachable, reach_init.
  - left. reflexivity.
  - left. exists boom. reflexivity.
Defined.

(** [boom] and [zip] are served before the worker returns. *)
Lemma worker_drains_witness :
  (forall schedule,
     _thread_main (exec schedule two_queued) = MReturned ->
     finished (exec schedule two_queued)
       = finished two_queued ++ [(0, boom); (1, zip)] /\
     forall p, p ∈ [(0, boom); (1, zip)] ->
       run p.2 <> RaisesBaseException /\
       p.1 ∈ set_events (exec schedule two_queued)) /\
  ((forall p, p ∈ [(0, boom); (1, zip)] -> run p.2 <> RaisesBaseException) ->
   _thread_main (exec (replicate (3 * 2 + 1) TMain) two_queued) = MReturned /\
   _queue (exec (replicate (3 * 2 + 1) TMain) two_queued) = []).
Proof.
  apply (worker_drains_before_returning two_queued [(0, boom); (1, zip)] []);
    reflexivity.
Defined.
End WorkerRuns.

Module CliRunsExamples.
Import Cli CliRuns Scenarios.

(** Reversed bounds: exit code [1]. *)
Lemma main_returns_witness :
  exists args,
    get_args (cli (mkNamespace (Some 5%float) (Some 1%float)))
      (default (tail []) (Some ["m1"])) = inr args /\
    ((1%Z = 1%Z /\ bounds_reversed args = true /\
      rejected_run ["m1"] = rejected_run (default (tail []) (Some ["m1"]))) \/
     (1%Z = 0%Z /\ bounds_reversed args = false /\
      rejected_run ["m1"] = full_run (default (tail []) (Some ["m1"])) /\
      forall c, c ∈ rejected_run ["m1"] -> is_work c = true ->
        behaviour (cli (mkNamespace (Some 5%float) (Some 1%float))) c = inr tt)).
Proof.
  apply (main_returns_0_or_1 (cli (mkNamespace (Some 5%float) (Some 1%float)))
           (Some ["m1"]) [] 1%Z (rejected_run ["m1"])).
  reflexivity.
Defined.

(** The download raises: no logout, no update check, no clean-up. *)
Lemma main_stops_witness :
  exists before c,
    [RegisterKeyboardinterruptHandler; GetArgs ["m1"]; SetupLogging;
     SetupProxy; LoginWithErrHandler; Download] = before ++ [c] /\
    raised_by failing_download c (InvalidManga "Manga cannot be found") /\
    ([RegisterKeyboardinterruptHandler; GetArgs ["m1"]; SetupLogging;
      SetupProxy; LoginWithErrHandler; Download]
       `prefix_of` full_run (default (tail []) (Some ["m1"])) \/
     [RegisterKeyboardinterruptHandler; GetArgs ["m1"]; SetupLogging;
      SetupProxy; LoginWithErrHandler; Download]
       `prefix_of` rejected_run (default (tail []) (Some ["m1"]))) /\
    forall c', c' ∈ before ->
      match c' with
      | GetArgs av => exists args, get_args failing_download av = inr args
      | _ => behaviour failing_download c' = inr tt
      end.
Proof.
  apply (main_stops_at_first_error failing_download (Some ["m1"]) []
           (InvalidManga "Manga cannot be found")).
  reflexivity.
Defined.
End CliRunsExamples.
